(** * ClearSend: the ribbon commands and the processors library

    A shallow embedding of the recipient-cleaning code of the add-in.

    - The ribbon commands ([src/commands/commands.js]): the three local
      step functions ([validateAndFilterRecipients],
      [deduplicateAllRecipients], [sortRecipientsAlphabetically]) that
      [quickClean] falls back on, the settings handling and the control
      flow of [quickClean] itself.
    - The processors library behind [window.ClearSendProcessors], in the
      module [Processors]: the six step functions and the orchestrator
      [processRecipients].

    Conventions.
    - A JavaScript string is a [string]; a character stands for one code
      unit.  The only characters the code inspects are ASCII.
    - [String.prototype.toLowerCase] and [String.prototype.localeCompare]
      are host builtins (Unicode and locale aware); they are taken as the
      operations of the class [JsStringOps], so every result holds for any
      such pair of operations.
    - A property that may be [undefined] is an [option].
    - A JavaScript [Set] of strings is a [gset string]. *)

From Stdlib Require Import ZArith Ascii String Sorted.
From stdpp Require Import base tactics option list strings pretty gmap sets.

Local Open Scope string_scope.
Local Open Scope list_scope.

(** ** Host string operations *)

Class JsStringOps := {
  toLowerCase : string → string;
  localeCompare : string → string → Z;
}.

(** ** JavaScript string operations used by the code *)

Definition codeOf (c : ascii) : nat := nat_of_ascii c.

Definition inRange (lo hi : nat) (c : ascii) : bool :=
  (lo <=? codeOf c)%nat && (codeOf c <=? hi)%nat.

(** [s.includes(needle)] *)
Fixpoint includes (s needle : string) : bool :=
  String.prefix needle s
  || match s with
     | EmptyString => false
     | String _ s' => includes s' needle
     end.

(** [s.split(sep)] for a one-character separator. *)
Fixpoint split (sep : ascii) (s : string) : list string :=
  match s with
  | EmptyString => [EmptyString]
  | String c s' =>
      if Ascii.eqb c sep then EmptyString :: split sep s'
      else match split sep s' with
           | piece :: pieces => String c piece :: pieces
           | [] => [String c EmptyString]
           end
  end.

(** White space and line terminators, as [trim] and [\s] see them: TAB, LF,
    VT, FF, CR, SPACE, NBSP. *)
Definition isWhiteSpace (c : ascii) : bool :=
  inRange 9 13 c || (codeOf c =? 32)%nat || (codeOf c =? 160)%nat.

(** The line terminators, which [.] does not match: LF and CR. *)
Definition isLineTerminator (c : ascii) : bool :=
  (codeOf c =? 10)%nat || (codeOf c =? 13)%nat.

Fixpoint trimStart (s : string) : string :=
  match s with
  | EmptyString => EmptyString
  | String c s' => if isWhiteSpace c then trimStart s' else s
  end.

Fixpoint trimEnd (s : string) : string :=
  match s with
  | EmptyString => EmptyString
  | String c s' =>
      match trimEnd s' with
      | EmptyString => if isWhiteSpace c then EmptyString else String c EmptyString
      | t => String c t
      end
  end.

(** [s.trim()] *)
Definition trim (s : string) : string := trimEnd (trimStart s).

(** [n] copies of [piece], and whether every character satisfies [p];
    used to build inputs and to state facts about them. *)
Fixpoint repeatString (n : nat) (piece : string) : string :=
  match n with
  | O => EmptyString
  | S n' => piece +:+ repeatString n' piece
  end.

Fixpoint allChars (p : ascii → bool) (s : string) : bool :=
  match s with
  | EmptyString => true
  | String c s' => p c && allChars p s'
  end.

(** ** Regular expressions

    The pattern of [validateAndFilterRecipients] is anchored at both ends
    and has neither captures nor look-around, so [test] decides membership
    of the whole string in the language of the pattern.  Membership is
    computed with derivatives. *)

Inductive regex :=
| Void
| Eps
| Class (p : ascii → bool)
| Seq (r1 r2 : regex)
| Alt (r1 r2 : regex)
| Star (r : regex).

Definition Chr (c : ascii) : regex := Class (Ascii.eqb c).
(** [r+] *)
Definition Plus (r : regex) : regex := Seq r (Star r).
(** [r?] *)
Definition Opt (r : regex) : regex := Alt r Eps.
(** [r{0,n}] *)
Fixpoint UpTo (n : nat) (r : regex) : regex :=
  match n with
  | O => Eps
  | S n' => Opt (Seq r (UpTo n' r))
  end.

Fixpoint nullable (r : regex) : bool :=
  match r with
  | Void => false
  | Eps => true
  | Class _ => false
  | Seq r1 r2 => nullable r1 && nullable r2
  | Alt r1 r2 => nullable r1 || nullable r2
  | Star _ => true
  end.

(** Concatenation and union that do not build on [Void]. *)
Definition seq' (r1 r2 : regex) : regex :=
  match r1, r2 with
  | Void, _ => Void
  | _, Void => Void
  | Eps, _ => r2
  | _, _ => Seq r1 r2
  end.

Definition alt' (r1 r2 : regex) : regex :=
  match r1, r2 with
  | Void, _ => r2
  | _, Void => r1
  | _, _ => Alt r1 r2
  end.

Fixpoint deriv (c : ascii) (r : regex) : regex :=
  match r with
  | Void => Void
  | Eps => Void
  | Class p => if p c then Eps else Void
  | Seq r1 r2 =>
      alt' (seq' (deriv c r1) r2) (if nullable r1 then deriv c r2 else Void)
  | Alt r1 r2 => alt' (deriv c r1) (deriv c r2)
  | Star r1 => seq' (deriv c r1) (Star r1)
  end.

(** [/^r$/.test(s)] *)
Fixpoint regexTest (r : regex) (s : string) : bool :=
  match s with
  | EmptyString => nullable r
  | String c s' => regexTest (deriv c r) s'
  end.

(** The language of a pattern. *)
Inductive matches : regex → string → Prop :=
| matches_eps : matches Eps EmptyString
| matches_class p c : p c = true → matches (Class p) (String c EmptyString)
| matches_seq r1 r2 s1 s2 :
    matches r1 s1 → matches r2 s2 → matches (Seq r1 r2) (s1 +:+ s2)
| matches_alt_l r1 r2 s : matches r1 s → matches (Alt r1 r2) s
| matches_alt_r r1 r2 s : matches r2 s → matches (Alt r1 r2) s
| matches_star_nil r : matches (Star r) EmptyString
| matches_star_cons r s1 s2 :
    matches r s1 → matches (Star r) s2 → matches (Star r) (s1 +:+ s2).

(** [[a-zA-Z0-9]] *)
Definition alnum (c : ascii) : bool :=
  inRange 97 122 c || inRange 65 90 c || inRange 48 57 c.

(** [[a-zA-Z0-9-]] *)
Definition labelChar (c : ascii) : bool :=
  alnum c || Ascii.eqb c "-".

Definition isOneOf (chars : string) (c : ascii) : bool :=
  existsb (Ascii.eqb c) (list_ascii_of_string chars).

(** [[a-zA-Z0-9.!#$%&'*+/=?^_`{|}~-]] *)
Definition localChar (c : ascii) : bool :=
  alnum c || isOneOf ".!#$%&'*+/=?^_`{|}~-" c.

(** [[a-zA-Z0-9](?:[a-zA-Z0-9-]{0,61}[a-zA-Z0-9])?] *)
Definition labelRegex : regex :=
  Seq (Class alnum) (Opt (Seq (UpTo 61 (Class labelChar)) (Class alnum))).

(** The pattern [emailRegex] of [validateAndFilterRecipients]:
    [^[a-zA-Z0-9.!#$%&'*+/=?^_`{|}~-]+@label(?:\.label)*$]. *)
Definition emailRegex : regex :=
  Seq (Plus (Class localChar))
    (Seq (Chr "@")
       (Seq labelRegex (Star (Seq (Chr ".") labelRegex)))).

(** The shape of what the pattern accepts, for the statements below. *)

(** A label has between 1 and 63 characters, letters, digits or hyphens. *)
Definition isLabel (s : string) : Prop :=
  (1 ≤ String.length s ≤ 63)%nat ∧ allChars labelChar s = true.

(** The labels after the first, each behind its dot. *)
Fixpoint dotted (labels : list string) : string :=
  match labels with
  | [] => ""
  | label :: labels' => "." +:+ label +:+ dotted labels'
  end.

(** ** Recipients *)

(** [Office.EmailAddressDetails]: the two properties the code reads. *)
Record recipient := Recipient {
  displayName : option string;
  emailAddress : option string;
}.

Global Instance recipient_eq_dec : EqDecision recipient.
Proof. solve_decision. Defined.

(** The three recipient fields of a message. *)
Record recipientLists := RecipientLists {
  to : list recipient;
  cc : list recipient;
  bcc : list recipient;
}.

(** JavaScript truthiness of a string-valued property: [undefined] and the
    empty string are falsy. *)
Definition truthy (v : option string) : bool :=
  match v with
  | Some s => negb (String.eqb s "")
  | None => false
  end.

(** [a || b] on string-valued properties. *)
Definition js_or (a b : option string) : option string :=
  if truthy a then a else b.

(** [v || ""]: the final operand is a string, so is the result. *)
Definition or_empty (v : option string) : string :=
  match js_or v (Some "") with
  | Some s => s
  | None => ""
  end.

(** An entry from which no email can be taken: the property is missing
    or empty. *)
Definition hasNoEmail (r : recipient) : Prop :=
  or_empty (emailAddress r) = "".

Global Instance hasNoEmail_dec r : Decision (hasNoEmail r).
Proof. unfold hasNoEmail. apply _. Defined.

(** ** Dedupe *)

Section Dedupe.
Context {ops : JsStringOps}.

(** [(recipient.emailAddress || "").toLowerCase()] *)
Definition normalizedEmail (r : recipient) : string :=
  toLowerCase (or_empty (emailAddress r)).

(** The callback of [recipients.filter] in [deduplicateWithinArray],
    with the set [seen] it mutates passed along. *)
Fixpoint filterSeen (seen : gset string) (recipients : list recipient)
  : list recipient :=
  match recipients with
  | [] => []
  | recipient :: rest =>
      let email := normalizedEmail recipient in
      if decide (email ∈ seen) then filterSeen seen rest
      else recipient :: filterSeen ({[email]} ∪ seen) rest
  end.

Definition deduplicateWithinArray (recipients : list recipient)
  : list recipient :=
  filterSeen ∅ recipients.

(** One [forEach] loop of [deduplicateAllRecipients]: the state is the
    shared set [allEmails] and the array being pushed to. *)
Fixpoint forEachClaim (allEmails : gset string) (final : list recipient)
    (recipients : list recipient) : gset string * list recipient :=
  match recipients with
  | [] => (allEmails, final)
  | recipient :: rest =>
      let email := normalizedEmail recipient in
      if decide (email ∈ allEmails) then forEachClaim allEmails final rest
      else forEachClaim ({[email]} ∪ allEmails) (final ++ [recipient]) rest
  end.

Definition deduplicateAllRecipients
    (toRecipients ccRecipients bccRecipients : list recipient)
  : recipientLists :=
  let uniqueTo := deduplicateWithinArray toRecipients in
  let uniqueCc := deduplicateWithinArray ccRecipients in
  let uniqueBcc := deduplicateWithinArray bccRecipients in
  let '(allEmails1, finalTo) := forEachClaim ∅ [] uniqueTo in
  let '(allEmails2, finalCc) := forEachClaim allEmails1 [] uniqueCc in
  let '(_, finalBcc) := forEachClaim allEmails2 [] uniqueBcc in
  {| to := finalTo; cc := finalCc; bcc := finalBcc |}.

(** *** The behaviour as the specification words it *)

(** The normalized emails of a list of entries. *)
Definition emailsOf (l : list recipient) : list string :=
  normalizedEmail <$> l.

(** Per-field dedupe: the entry at position [i] is dropped when an entry
    at an earlier position has the same normalized email. *)
Definition dropLaterOccurrences (l : list recipient) : list recipient :=
  omap id
    (imap (λ i r,
       if decide (normalizedEmail r ∈ emailsOf (take i l))
       then None else Some r) l).

(** Cross-field dedupe, primary > copy > blind-copy. *)
Definition dedupeSpec (t c b : list recipient) : recipientLists :=
  let t' := dropLaterOccurrences t in
  let c' := filter (λ r, normalizedEmail r ∉ emailsOf t')
              (dropLaterOccurrences c) in
  let b' := filter (λ r, (normalizedEmail r ∉ emailsOf t')
                         ∧ (normalizedEmail r ∉ emailsOf c'))
              (dropLaterOccurrences b) in
  {| to := t'; cc := c'; bcc := b' |}.

End Dedupe.

(** ** Validate *)

(** The callback of [recipients.filter] in [validateAndFilterRecipients].
    A property typed as a string is a string, so [typeof email !== "string"]
    is false. *)
Definition isValidRecipient (recipient : recipient) : bool :=
  let email := or_empty (emailAddress recipient) in
  if String.eqb email "" then false
  else if negb (includes email "@") then false
  else
    match split "@" email with
    | [localPart; domainPart] =>
        if String.eqb localPart "" || String.eqb domainPart "" then false
        else if negb (includes domainPart ".") then false
        else if includes email ".." then false
        else regexTest emailRegex email
    | _ => false
    end.

Definition validateAndFilterRecipients (recipients : list recipient)
  : list recipient :=
  filter (λ r, isValidRecipient r = true) recipients.

(** ** Sort *)

(** [Array.prototype.sort(compareFn)].  ECMAScript requires the sort to be
    stable and, for a consistent comparator, to return the elements in
    ascending order; that arrangement is unique, and is computed here by
    inserting each element in front of the first element it does not
    follow.  The sort is in place and returns its array: the list returned
    here is the content of that array afterwards. *)
Fixpoint sortedInsert {A} (compareFn : A → A → Z) (x : A) (l : list A)
  : list A :=
  match l with
  | [] => [x]
  | y :: l' =>
      if (compareFn x y <=? 0)%Z then x :: l
      else y :: sortedInsert compareFn x l'
  end.

Definition arraySort {A} (compareFn : A → A → Z) (l : list A) : list A :=
  foldr (sortedInsert compareFn) [] l.

(** Each element is followed by one the comparator does not put before
    it. *)
Fixpoint ascending {A} (compareFn : A → A → Z) (l : list A) : Prop :=
  match l with
  | a :: (b :: _) as l' => (compareFn a b ≤ 0)%Z ∧ ascending compareFn l'
  | _ => True
  end.

Section Sort.
Context {ops : JsStringOps}.

(** [(a.displayName || a.emailAddress || "").toLowerCase()] *)
Definition sortName (a : recipient) : string :=
  toLowerCase (or_empty (js_or (displayName a) (emailAddress a))).

Definition compareRecipients (a b : recipient) : Z :=
  localeCompare (sortName a) (sortName b).

Definition sortRecipientsAlphabetically (recipients : list recipient)
  : list recipient :=
  arraySort compareRecipients recipients.

(** A list the comparator finds in order. *)
Definition inSortOrder (l : list recipient) : Prop :=
  ascending compareRecipients l.

End Sort.

(** ** Settings *)

(** The object stored under ["clearSendSettings"]. *)
Record settings := Settings {
  enabledSteps : list string;
  stepOrder : option (list string);
  orgDomain : option string;
  internalDomains : option (list string);
}.

Definition defaultSettings : settings :=
  {| enabledSteps := ["sort"; "dedupe"; "validate"; "prioritizeInternal"];
     stepOrder :=
       Some ["sort"; "dedupe"; "validate"; "prioritizeInternal";
             "removeExternal"];
     orgDomain := Some "";
     internalDomains := Some [] |}.

(** [roamingSettings.get("clearSendSettings") || { ... }] *)
Definition loadSettings (stored : option settings) : settings :=
  default defaultSettings stored.

(** [orderedSteps.filter((step) => settings.enabledSteps.includes(step))]
    with [orderedSteps = settings.stepOrder || settings.enabledSteps]; an
    array is truthy even when empty. *)
Definition enabledStepsInOrder (s : settings) : list string :=
  let orderedSteps := default (enabledSteps s) (stepOrder s) in
  filter (λ step, step ∈ enabledSteps s) orderedSteps.

(** [(d) => d && d !== "mydomain.com" && d.trim() !== ""] *)
Definition isConfiguredDomain (d : string) : bool :=
  negb (String.eqb d "")
  && negb (String.eqb d "mydomain.com")
  && negb (String.eqb (trim d) "").

(** [(settings.internalDomains || []).filter(...)], the internal-domain
    list handed to the processors library. *)
Definition filteredInternalDomains (s : settings) : list string :=
  filter (λ d, isConfiguredDomain d = true) (default [] (internalDomains s)).

(** ** Conversion between strings and recipient objects *)

(** The mapping of [quickClean] from an object to the string handed to the
    processors library; a template literal prints [undefined] as text. *)
Definition formatRecipient (r : recipient) : option string :=
  if truthy (displayName r)
  then Some (default "" (displayName r) +:+ " <"
             +:+ default "undefined" (emailAddress r) +:+ ">")
  else emailAddress r.

(** The string without its last character, and that character. *)
Fixpoint unsnoc (s : string) : option (string * ascii) :=
  match s with
  | EmptyString => None
  | String c s' =>
      match unsnoc s' with
      | None => Some (EmptyString, c)
      | Some (init, last) => Some (String c init, last)
      end
  end.

Fixpoint noLineTerminator (s : string) : bool :=
  match s with
  | EmptyString => true
  | String c s' => negb (isLineTerminator c) && noLineTerminator s'
  end.

(** The tail [\s*<(.+)>$] of the pattern of [convertToOfficeFormat]: the
    greedy [\s*] stops at the first character that is not white space,
    and [(.+)] has to reach the final [>]. *)
Definition matchBracketed (rest : string) : option string :=
  match trimStart rest with
  | String "<"%char inner =>
      match unsnoc inner with
      | Some (content, ">"%char) =>
          if negb (String.eqb content "") && noLineTerminator content
          then Some content else None
      | _ => None
      end
  | _ => None
  end.

(** The lazy group [(.+?)] tries the prefixes from the shortest on. *)
Fixpoint findNameAddress (name rest : string) : option (string * string) :=
  match rest with
  | EmptyString => None
  | String c rest' =>
      if isLineTerminator c then None
      else
        let name' := name +:+ String c EmptyString in
        match matchBracketed rest' with
        | Some address => Some (name', address)
        | None => findNameAddress name' rest'
        end
  end.

(** [r.match(/^(.+?)\s*<(.+)>$/)]: the two groups. *)
Definition matchNameAddress (r : string) : option (string * string) :=
  findNameAddress EmptyString r.

(** An element of an array returned by the processors library. *)
Inductive processedEntry :=
| EntryString (s : string)
| EntryObject (r : recipient).

Definition convertEntry (r : processedEntry) : recipient :=
  match r with
  | EntryString s =>
      match matchNameAddress s with
      | Some (name, address) =>
          {| displayName := Some (trim name);
             emailAddress := Some (trim address) |}
      | None => {| displayName := Some ""; emailAddress := Some (trim s) |}
      end
  | EntryObject o => o
  end.

Definition convertToOfficeFormat (recipients : list processedEntry)
  : list recipient :=
  convertEntry <$> recipients.

(** ** The host and the effects of a run *)

Record jsError := JsError { message : string }.

Inductive field := To | Cc | Bcc.

Inductive notificationType := InformationalMessage | ErrorMessage.

(** What a run does to the host. *)
Inductive effect :=
| SetAsync (f : field) (recipients : list recipient)
| ReplaceNotification (type : notificationType) (text : string)
| RemoveNotificationAfter (milliseconds : nat)
| EventCompleted.

(** An asynchronous result: its status and its value. *)
Record asyncResult := AsyncResult {
  succeeded : bool;
  value : option (list recipient);
}.

(** The argument of [processRecipients]. *)
Record payload := Payload {
  payloadTo : list (option string);
  payloadCc : list (option string);
  payloadBcc : list (option string);
  payloadEnabledSteps : list string;
  payloadInternalDomains : list string;
  payloadOrgDomain : string;
}.

(** [result.result] of [processRecipients]. *)
Record processed := Processed {
  resultTo : list processedEntry;
  resultCc : list processedEntry;
  resultBcc : list processedEntry;
}.

(** Everything a run reads from its environment. *)
Record host := Host {
  clearSendSettings : option settings;
  toGetAsync : asyncResult;
  ccGetAsync : asyncResult;
  bccGetAsync : asyncResult;
  (** [window.ClearSendProcessors.processRecipients], when loaded; it
      returns or throws. *)
  processRecipients : option (payload → jsError + processed);
  (** whether [setAsync] reports [Succeeded] *)
  toSetAsync : list recipient → bool;
  ccSetAsync : list recipient → bool;
  bccSetAsync : list recipient → bool;
}.

(** A computation that has effects on the host and returns or throws. *)
Definition run (A : Type) : Type := (list effect * (jsError + A))%type.

Definition ret {A} (a : A) : run A := ([], inr a).
Definition throw {A} (e : jsError) : run A := ([], inl e).
Definition emit (e : effect) : run unit := ([e], inr tt).
Definition bind {A B} (m : run A) (k : A → run B) : run B :=
  match m with
  | (es, inl e) => (es, inl e)
  | (es, inr a) => let '(es', r) := k a in (es ++ es', r)
  end.

Declare Scope run_scope.
Delimit Scope run_scope with run.
Notation "x <- m ;; k" := (bind m (λ x, k))
  (at level 100, m at next level, right associativity) : run_scope.
Notation "m ;; k" := (bind m (λ _, k))
  (at level 100, right associativity) : run_scope.

Section QuickClean.
Context {ops : JsStringOps}.
Local Open Scope run_scope.

Definition getAllRecipients (h : host) : run recipientLists :=
  if negb (succeeded (toGetAsync h))
  then throw (JsError "Failed to get To recipients")
  else if negb (succeeded (ccGetAsync h))
  then throw (JsError "Failed to get CC recipients")
  else if negb (succeeded (bccGetAsync h))
  then throw (JsError "Failed to get BCC recipients")
  else ret {| to := default [] (value (toGetAsync h));
              cc := default [] (value (ccGetAsync h));
              bcc := default [] (value (bccGetAsync h)) |}.

Definition updateAllRecipients (h : host)
    (toRecipients ccRecipients bccRecipients : list recipient)
  : run unit :=
  emit (SetAsync To toRecipients);;
  if negb (toSetAsync h toRecipients)
  then throw (JsError "Failed to update To recipients")
  else
    emit (SetAsync Cc ccRecipients);;
    if negb (ccSetAsync h ccRecipients)
    then throw (JsError "Failed to update CC recipients")
    else
      emit (SetAsync Bcc bccRecipients);;
      if negb (bccSetAsync h bccRecipients)
      then throw (JsError "Failed to update BCC recipients")
      else ret tt.

Definition showNotification (text : string) (type : notificationType)
  : run unit :=
  emit (ReplaceNotification type text);;
  emit (RemoveNotificationAfter 3000).

(** The fallback branch up to the update: the three local steps, each
    under its own test of [settings.enabledSteps]. *)
Definition fallbackProcessing (s : settings) (recipients : recipientLists)
  : recipientLists :=
  let processed0 := recipients in
  let processed1 :=
    if decide ("validate" ∈ enabledSteps s)
    then {| to := validateAndFilterRecipients (to processed0);
            cc := validateAndFilterRecipients (cc processed0);
            bcc := validateAndFilterRecipients (bcc processed0) |}
    else processed0 in
  let processed2 :=
    if decide ("dedupe" ∈ enabledSteps s)
    then deduplicateAllRecipients
           (to processed1) (cc processed1) (bcc processed1)
    else processed1 in
  if decide ("sort" ∈ enabledSteps s)
  then {| to := sortRecipientsAlphabetically (to processed2);
          cc := sortRecipientsAlphabetically (cc processed2);
          bcc := sortRecipientsAlphabetically (bcc processed2) |}
  else processed2.

Definition successMessage (totalOriginal : nat) : string :=
  "Success. " +:+ pretty totalOriginal +:+ " addresses processed.".

(** The object handed to [processRecipients]. *)
Definition processorRequest (s : settings) (recipients : recipientLists)
  : payload :=
  {| payloadTo := formatRecipient <$> to recipients;
     payloadCc := formatRecipient <$> cc recipients;
     payloadBcc := formatRecipient <$> bcc recipients;
     payloadEnabledSteps := enabledStepsInOrder s;
     payloadInternalDomains := filteredInternalDomains s;
     payloadOrgDomain := or_empty (orgDomain s) |}.

(** The [try] block of [quickClean]. *)
Definition quickCleanBody (h : host) : run unit :=
  let s := loadSettings (clearSendSettings h) in
  recipients <- getAllRecipients h;;
  let totalOriginal :=
    (length (to recipients) + length (cc recipients)
     + length (bcc recipients))%nat in
  match processRecipients h with
  | Some process =>
      result <- ([], process (processorRequest s recipients));;
      updateAllRecipients h
        (convertToOfficeFormat (resultTo result))
        (convertToOfficeFormat (resultCc result))
        (convertToOfficeFormat (resultBcc result));;
      showNotification (successMessage totalOriginal) InformationalMessage
  | None =>
      let result := fallbackProcessing s recipients in
      updateAllRecipients h (to result) (cc result) (bcc result);;
      showNotification (successMessage totalOriginal) InformationalMessage
  end.

Definition failureMessage : string :=
  "Quick clean failed. Please try again.".

(** What the [catch] block and [event.completed()] do. *)
Definition faultTrace : list effect :=
  [ReplaceNotification ErrorMessage failureMessage;
   RemoveNotificationAfter 3000; EventCompleted].

(** [quickClean]: the [try] block, the [catch] that drops the error it is
    given, and [event.completed()]. *)
Definition quickClean (h : host) : list effect :=
  let '(effects, outcome) :=
    match quickCleanBody h with
    | (effects, inl _error) =>
        bind (effects, inr tt)
          (λ _, showNotification failureMessage ErrorMessage)
    | (effects, inr _) => (effects, inr tt)
    end in
  effects ++ [EventCompleted].

(** [action], the legacy entry point. *)
Definition action (h : host) : list effect := quickClean h.

(** *** The three steps of the fallback, each on the three fields *)

Definition validateStep (st : recipientLists) : recipientLists :=
  {| to := validateAndFilterRecipients (to st);
     cc := validateAndFilterRecipients (cc st);
     bcc := validateAndFilterRecipients (bcc st) |}.

Definition dedupeStep (st : recipientLists) : recipientLists :=
  deduplicateAllRecipients (to st) (cc st) (bcc st).

Definition sortStep (st : recipientLists) : recipientLists :=
  {| to := sortRecipientsAlphabetically (to st);
     cc := sortRecipientsAlphabetically (cc st);
     bcc := sortRecipientsAlphabetically (bcc st) |}.

End QuickClean.

(** ** Concrete inputs *)

(** ASCII lower-casing, the behaviour of [toLowerCase] on ASCII text; code
    point order, the behaviour of [localeCompare] on lower-case ASCII
    letters and digits.  Used to run the code on concrete inputs. *)
Definition asciiLower (c : ascii) : ascii :=
  let n := nat_of_ascii c in
  if (65 <=? n)%nat && (n <=? 90)%nat then ascii_of_nat (n + 32) else c.

Fixpoint asciiToLowerCase (s : string) : string :=
  match s with
  | EmptyString => EmptyString
  | String c s' => String (asciiLower c) (asciiToLowerCase s')
  end.

Definition codeUnitCompare (a b : string) : Z :=
  match String.compare a b with
  | Lt => (-1)%Z
  | Eq => 0%Z
  | Gt => 1%Z
  end.

Definition asciiOps : JsStringOps :=
  {| toLowerCase := asciiToLowerCase; localeCompare := codeUnitCompare |}.

Definition addr (s : string) : recipient :=
  {| displayName := Some ""; emailAddress := Some s |}.


Definition named (name email : string) : recipient :=
  {| displayName := Some name; emailAddress := Some email |}.

(** A message whose primary field holds B at x@a.com, then A at X@a.com. *)
Definition twoSpellings : recipientLists :=
  {| to := [named "B" "x@a.com"; named "A" "X@a.com"]; cc := []; bcc := [] |}.

Definition succeededWith (l : list recipient) : asyncResult :=
  {| succeeded := true; value := Some l |}.

(** A host with no stored settings, on which every read and write
    succeeds. *)
Definition hostOf (recipients : recipientLists)
    (processors : option (payload → jsError + processed)) : host :=
  {| clearSendSettings := None;
     toGetAsync := succeededWith (to recipients);
     ccGetAsync := succeededWith (cc recipients);
     bccGetAsync := succeededWith (bcc recipients);
     processRecipients := processors;
     toSetAsync := λ _, true;
     ccSetAsync := λ _, true;
     bccSetAsync := λ _, true |}.

(** Stored settings with a repeated domain, the placeholder and blanks. *)
Definition repeatedDomains : settings :=
  {| enabledSteps := ["removeExternal"];
     stepOrder := None;
     orgDomain := None;
     internalDomains :=
       Some ["corp.com"; "mydomain.com"; "  "; ""; "corp.com"] |}.

(** Three entries already in alphabetical order, and three without an
    email spread over the fields. *)
Definition sortedThree : list recipient :=
  [named "Al" "z@x.com"; named "" "bob@x.com";
   {| displayName := None; emailAddress := Some "Carl@x.com" |}].

Definition noAddress (name : string) : recipient :=
  {| displayName := Some name; emailAddress := None |}.

Definition emptyAddress (name : string) : recipient :=
  {| displayName := Some name; emailAddress := Some "" |}.

(** An address whose second-level label has 64 characters. *)
Definition longLabel : recipient :=
  addr ("a@" +:+ repeatString 64 "x" +:+ ".com").

(** A local part of 65 characters. *)
Definition longLocal : string := repeatString 65 "a" +:+ "@example.com".

(** ** Definitions for the further properties *)

(** A label as [emailRegex] takes it: 1 to 63 characters, letters, digits
    or hyphens, the first and the last a letter or a digit. *)
Definition isHostLabel (s : string) : bool :=
  match s with
  | EmptyString => false
  | String c rest =>
      alnum c
      && match unsnoc rest with
         | None => true
         | Some (middle, last) => allChars labelChar middle && alnum last
         end
      && (String.length s <=? 63)%nat
  end.

(** A string that does not start with white space. *)
Definition startsClean (s : string) : Prop :=
  match s with
  | EmptyString => True
  | String c _ => isWhiteSpace c = false
  end.

(** The characters of an accepted address: no white space, no line
    terminator, no opening angle bracket. *)
Definition plainChar (c : ascii) : bool :=
  negb (isWhiteSpace c) && negb (isLineTerminator c) && negb (Ascii.eqb c "<").

Section States.
Context {ops : JsStringOps}.

(** Every field of the first state is, as a multiset, within the same
    field of the second. *)
Definition fieldsWithin (st1 st2 : recipientLists) : Prop :=
  to st1 ⊆+ to st2 ∧ cc st1 ⊆+ cc st2 ∧ bcc st1 ⊆+ bcc st2.

(** Properties of the three fields together. *)
Definition allValid (st : recipientLists) : Prop :=
  Forall (λ r, isValidRecipient r = true) (to st ++ cc st ++ bcc st).

Definition allDistinct (st : recipientLists) : Prop :=
  NoDup (emailsOf (to st ++ cc st ++ bcc st)).

Definition allInOrder (st : recipientLists) : Prop :=
  inSortOrder (to st) ∧ inSortOrder (cc st) ∧ inSortOrder (bcc st).

(** The lists a run means to write, once the reads have succeeded and the
    library, when loaded, has returned. *)
Inductive planned (h : host) (reads : recipientLists)
  : list recipient → list recipient → list recipient → Prop :=
| planned_fallback :
    processRecipients h = None →
    planned h reads
      (to (fallbackProcessing (loadSettings (clearSendSettings h)) reads))
      (cc (fallbackProcessing (loadSettings (clearSendSettings h)) reads))
      (bcc (fallbackProcessing (loadSettings (clearSendSettings h)) reads))
| planned_library process result :
    processRecipients h = Some process →
    process (processorRequest (loadSettings (clearSendSettings h)) reads)
    = inr result →
    planned h reads
      (convertToOfficeFormat (resultTo result))
      (convertToOfficeFormat (resultCc result))
      (convertToOfficeFormat (resultBcc result)).

End States.

(** Inputs for the further properties. *)
Definition nameClash : list recipient :=
  [named "bob" "1@x.com"; named "Al" "2@x.com"; named "Bob" "3@x.com";
   addr "not an address"; named "al" "4@x.com"].

Definition onlyDedupe : settings :=
  {| enabledSteps := ["dedupe"]; stepOrder := None; orgDomain := None;
     internalDomains := None |}.

Definition spacedName : recipient := named "Bob Smith  " "bob@x.com".


(** * The processors library

    The functions behind [window.ClearSendProcessors]: the six step
    functions with their helpers, and the orchestrator
    [processRecipients] that the ribbon command and the task pane call.

    Conventions.
    - The lists of a payload hold strings, and the settings hold strings
      and lists of strings; the test [typeof recipient !== 'string'] is
      then false.
    - An object literal used as a table ([stepMap], [COMMON_TYPOS], the
      accumulator of [reduce]) is looked up by property name, and a
      property read also finds what every object inherits from
      [Object.prototype]: the names of [objectPrototypeNames].
    - The text of a [TypeError] is the engine's; it is a field of the
      class [JsEngine]. *)

Module Processors.

(** ** The engine *)

(** The property names of [Object.prototype]. *)
Definition objectPrototypeNames : list string :=
  ["constructor"; "__defineGetter__"; "__defineSetter__"; "hasOwnProperty";
   "__lookupGetter__"; "__lookupSetter__"; "isPrototypeOf";
   "propertyIsEnumerable"; "toString"; "valueOf"; "__proto__";
   "toLocaleString"].

(** The places where the library can raise a [TypeError]. *)
Inductive faultSite :=
| StepIsNotCallable (stepName : string)
    (** [stepFn(state)] when [stepFn] is an object *)
| BuiltinRejects (stepName : string)
    (** a method of [Object.prototype] called without a receiver *)
| SpreadOfMissingList
    (** [[...state.to]] when [state.to] is [undefined] *)
| PushIsNotCallable (domain : string)
    (** [acc[domain].push(recipient)] when [acc[domain]] is inherited *)
| LengthOfMissingList.
    (** [state.to.length] when [state.to] is [undefined] *)

Class JsEngine := {
  typeErrorMessage : faultSite → string;
}.

(** ** String operations *)

(** [s.startsWith(searchString)] and [s.endsWith(searchString)] *)
Definition startsWith (s searchString : string) : bool :=
  String.prefix searchString s.

Fixpoint endsWith (s searchString : string) : bool :=
  String.eqb s searchString
  || match s with
     | EmptyString => false
     | String _ s' => endsWith s' searchString
     end.

(** The code unit that the flag [i] of a regular expression compares:
    the upper-case form of a letter. *)
Definition canonicalize (c : ascii) : ascii :=
  let n := codeOf c in
  if inRange 97 122 c
     || (inRange 224 254 c && negb (n =? 247)%nat)
  then ascii_of_nat (n - 32) else c.

(** The rest of [s] after a prefix that [pattern] matches, the case of
    letters ignored. *)
Fixpoint prefixIgnoringCase (pattern s : string) : option string :=
  match pattern, s with
  | EmptyString, _ => Some s
  | String p pattern', String c s' =>
      if Ascii.eqb (canonicalize p) (canonicalize c)
      then prefixIgnoringCase pattern' s' else None
  | String _ _, EmptyString => None
  end.

(** [s.replace(new RegExp(escaped, 'i'), replacement)], where [escaped] is
    [pattern] with its special characters escaped, so that it matches the
    text of [pattern]; [replacement] holds no [$].  The first match from
    the left is replaced. *)
Fixpoint replaceIgnoringCase (s pattern replacement : string) : string :=
  match prefixIgnoringCase pattern s with
  | Some rest => replacement +:+ rest
  | None =>
      match s with
      | EmptyString => EmptyString
      | String c s' => String c (replaceIgnoringCase s' pattern replacement)
      end
  end.

(** ** Utility functions *)

(** [/<(.+)>$/] tried where [s] starts: the group. *)
Definition matchAngle (s : string) : option string :=
  match s with
  | String "<"%char inner =>
      match unsnoc inner with
      | Some (content, ">"%char) =>
          if negb (String.eqb content "") && noLineTerminator content
          then Some content else None
      | _ => None
      end
  | _ => None
  end.

(** [recipient.match(/<(.+)>$/)]: the pattern is tried at each position
    from the left. *)
Fixpoint searchAngle (s : string) : option string :=
  match matchAngle s with
  | Some content => Some content
  | None =>
      match s with
      | EmptyString => None
      | String _ s' => searchAngle s'
      end
  end.

Definition extractEmail (recipient : string) : string :=
  if String.eqb recipient "" then ""
  else
    match searchAngle recipient with
    | Some content => trim content
    | None => trim recipient
    end.

Definition extractDisplayName (recipient : string) : string :=
  if String.eqb recipient "" then ""
  else
    match matchNameAddress recipient with
    | Some (name, _) => trim name
    | None => trim recipient
    end.

(** ** Data *)

(** The three lists of an action's [input] and [output], and of the
    result. *)
Record recipients := Recipients {
  toList : list string;
  ccList : list string;
  bccList : list string;
}.

(** What [validateRecipient] returns. *)
Record validationResult := ValidationResult {
  address : string;
  email : string;
  isValid : bool;
  status : string;
  warnings : list string;
  suggestions : list string;
}.

(** An entry of [categorizeRecipients], with the [field] that
    [flagExternalStep] adds to the external ones. *)
Record categorized := Categorized {
  recipient : string;
  recipientEmail : string;
  domain : string;
  isExternal : bool;
  field : option string;
}.

Record flagSummary := FlagSummary {
  totalRecipients : nat;
  externalCount : nat;
  internalCount : Z;
  uniqueExternalDomains : nat;
}.

(** The entries of the action log, one shape for each step; [flagExt] has
    a second shape for a run without organization domain. *)
Inductive action :=
| SortAction (input output : recipients) (processed : nat)
| DedupeAction (input : recipients) (removed : list string)
    (output : recipients) (processed duplicatesFound : nat)
| ValidateAction (input output : recipients)
    (validationResults errors warnings : list validationResult)
    (processed validCount warningCount errorCount removedInvalid : nat)
| PrioritizeInternalAction (input output : recipients) (processed : nat)
| RemoveExternalAction (input output removed : recipients)
    (total processed : nat)
| FlagExtSkipped (input output : recipients) (flagged : list string)
    (processed : nat) (skipped : bool) (text : string)
| FlagExtAction (input output : recipients) (flagged : list string)
    (externalByDomain : gmap string (list categorized))
    (summary : flagSummary) (orgDomain : string) (processed : nat).

(** [action.type], [action.input] and [action.output] *)
Definition actionType (a : action) : string :=
  match a with
  | SortAction _ _ _ => "sort"
  | DedupeAction _ _ _ _ _ => "dedupe"
  | ValidateAction _ _ _ _ _ _ _ _ _ _ => "validate"
  | PrioritizeInternalAction _ _ _ => "prioritizeInternal"
  | RemoveExternalAction _ _ _ _ _ => "removeExternal"
  | FlagExtSkipped _ _ _ _ _ _ => "flagExt"
  | FlagExtAction _ _ _ _ _ _ _ => "flagExt"
  end.

Definition actionInput (a : action) : recipients :=
  match a with
  | SortAction input _ _ => input
  | DedupeAction input _ _ _ _ => input
  | ValidateAction input _ _ _ _ _ _ _ _ _ => input
  | PrioritizeInternalAction input _ _ => input
  | RemoveExternalAction input _ _ _ _ => input
  | FlagExtSkipped input _ _ _ _ _ => input
  | FlagExtAction input _ _ _ _ _ _ => input
  end.

Definition actionOutput (a : action) : recipients :=
  match a with
  | SortAction _ output _ => output
  | DedupeAction _ _ output _ _ => output
  | ValidateAction _ output _ _ _ _ _ _ _ _ => output
  | PrioritizeInternalAction _ output _ => output
  | RemoveExternalAction _ output _ _ _ => output
  | FlagExtSkipped _ output _ _ _ _ => output
  | FlagExtAction _ output _ _ _ _ _ => output
  end.

(** The state that the steps pass on. *)
Record state := State {
  to : list string;
  cc : list string;
  bcc : list string;
  enabledSteps : list string;
  internalDomains : list string;
  orgDomain : string;
  actions : list action;
}.

(** [{ to: [...state.to], cc: [...state.cc], bcc: [...state.bcc] }] *)
Definition listsOf (st : state) : recipients :=
  {| toList := to st; ccList := cc st; bccList := bcc st |}.

(** [{ ...state, to, cc, bcc, actions: [...state.actions, action] }] *)
Definition withLists (st : state) (newTo newCc newBcc : list string)
    (a : action) : state :=
  {| to := newTo; cc := newCc; bcc := newBcc;
     enabledSteps := enabledSteps st;
     internalDomains := internalDomains st;
     orgDomain := orgDomain st;
     actions := actions st ++ [a] |}.

(** [input.to.length + input.cc.length + input.bcc.length] *)
Definition countOf (st : state) : nat :=
  (length (to st) + length (cc st) + length (bcc st))%nat.

(** [payload.userSettings] and the payload. *)
Record userSettings := UserSettings {
  settingsEnabledSteps : option (list string);
  settingsInternalDomains : option (list string);
  settingsOrgDomain : option string;
}.

Record payload := Payload {
  payloadTo : option (list string);
  payloadCc : option (list string);
  payloadBcc : option (list string);
  payloadUserSettings : option userSettings;
}.

Record summary := Summary {
  totalProcessed : nat;
  totalRemaining : nat;
  stepsExecuted : nat;
}.

(** What [processRecipients] returns. *)
Record processingResult := ProcessingResult {
  success : bool;
  result : recipients;
  resultActions : list action;
  resultSummary : summary;
}.

Section Library.
Context {ops : JsStringOps} {engine : JsEngine}.

(** ** Sort *)

(** The comparator of [sortAlphabetical], which [prioritizeInternal]
    repeats with the emails it has extracted before. *)
Definition compareByName (a emailA b emailB : string) : Z :=
  let nameA := toLowerCase (extractDisplayName a) in
  let nameB := toLowerCase (extractDisplayName b) in
  if String.eqb nameA "" && String.eqb nameB ""
  then localeCompare (toLowerCase emailA) (toLowerCase emailB)
  else localeCompare nameA nameB.

Definition compareEntries (a b : string) : Z :=
  compareByName a (extractEmail a) b (extractEmail b).

Definition sortAlphabetical (recipients : list string) : list string :=
  arraySort compareEntries recipients.

Definition sortStep (st : state) : state :=
  let input := listsOf st in
  let sortedTo := sortAlphabetical (to st) in
  let sortedCc := sortAlphabetical (cc st) in
  let sortedBcc := sortAlphabetical (bcc st) in
  let action :=
    SortAction input
      {| toList := sortedTo; ccList := sortedCc; bccList := sortedBcc |}
      (length (toList input) + length (ccList input)
       + length (bccList input))%nat in
  withLists st sortedTo sortedCc sortedBcc action.

(** ** Dedupe *)

(** The [filter] of [removeDuplicates] from a given content of [seen]:
    the entries kept and the entries removed. *)
Fixpoint removeDuplicatesFrom (seen : gset string) (recipients : list string)
  : list string * list string :=
  match recipients with
  | [] => ([], [])
  | recipient :: rest =>
      let email := toLowerCase (extractEmail recipient) in
      if decide (email ∈ seen)
      then let '(unique, removed) := removeDuplicatesFrom seen rest in
           (unique, recipient :: removed)
      else let '(unique, removed) :=
             removeDuplicatesFrom ({[email]} ∪ seen) rest in
           (recipient :: unique, removed)
  end.

Definition removeDuplicates (recipients : list string)
  : list string * list string :=
  removeDuplicatesFrom ∅ recipients.

(** One [forEach] of [dedupeArrays]: the content of [allEmails]
    afterwards, the entries pushed to the final list and those pushed to
    [crossArrayRemoved]. *)
Fixpoint claimEmails (allEmails : gset string) (recipients : list string)
  : gset string * list string * list string :=
  match recipients with
  | [] => (allEmails, [], [])
  | recipient :: rest =>
      let email := toLowerCase (extractEmail recipient) in
      if decide (email ∈ allEmails)
      then let '(all', final, crossed) := claimEmails allEmails rest in
           (all', final, recipient :: crossed)
      else let '(all', final, crossed) :=
             claimEmails ({[email]} ∪ allEmails) rest in
           (all', recipient :: final, crossed)
  end.

(** [dedupeArrays]: the three final lists and [removed]. *)
Definition dedupeArrays (toRecipients ccRecipients bccRecipients : list string)
  : recipients * list string :=
  let '(uniqueTo, removedFromTo) := removeDuplicates toRecipients in
  let '(uniqueCc, removedFromCc) := removeDuplicates ccRecipients in
  let '(uniqueBcc, removedFromBcc) := removeDuplicates bccRecipients in
  let '(allEmails1, finalTo, crossedTo) := claimEmails ∅ uniqueTo in
  let '(allEmails2, finalCc, crossedCc) := claimEmails allEmails1 uniqueCc in
  let '(_, finalBcc, crossedBcc) := claimEmails allEmails2 uniqueBcc in
  ({| toList := finalTo; ccList := finalCc; bccList := finalBcc |},
   removedFromTo ++ removedFromCc ++ removedFromBcc
   ++ (crossedTo ++ crossedCc ++ crossedBcc)).

Definition dedupeStep (st : state) : state :=
  let input := listsOf st in
  let '(final, removed) := dedupeArrays (to st) (cc st) (bcc st) in
  let action :=
    DedupeAction input removed final
      (length (toList input) + length (ccList input)
       + length (bccList input))%nat
      (length removed) in
  withLists st (toList final) (ccList final) (bccList final) action.

(** ** Validate *)

Definition COMMON_TYPOS : list (string * string) :=
  [("gmial.com", "gmail.com"); ("gmai.com", "gmail.com");
   ("gmal.com", "gmail.com"); ("yahooo.com", "yahoo.com");
   ("yaho.com", "yahoo.com"); ("hotmial.com", "hotmail.com");
   ("hotmial.co", "hotmail.com"); ("outlok.com", "outlook.com");
   ("outloo.com", "outlook.com"); ("microsft.com", "microsoft.com");
   ("mircosoft.com", "microsoft.com")].

(** What [validateEmailFormat] returns: [{ isValid: true }] or
    [{ isValid: false, message }]. *)
Inductive formatCheck :=
| FormatValid
| FormatInvalid (text : string).

(** The last element of [domainPart.split('.')]. *)
Definition lastLabel (domainPart : string) : string :=
  List.last (split "." domainPart) "".

Definition validateEmailFormat (email : string) : formatCheck :=
  if String.eqb email ""
  then FormatInvalid "Empty or invalid email address"
  else
    let email := trim email in
    if (String.length email <=? 3)%nat && negb (includes email "@")
    then FormatInvalid "Email address is too short or malformed"
    else if endsWith email ":" && negb (includes email "@")
    then FormatInvalid "Email appears to be incomplete or malformed"
    else if (String.length email =? 0)%nat
    then FormatInvalid "Empty email address"
    else if negb (includes email "@")
    then FormatInvalid "Email must contain @ symbol"
    else
      match split "@" email with
      | [localPart; domainPart] =>
          if String.eqb localPart ""
          then FormatInvalid "Email must have content before @ symbol"
          else if (64 <? String.length localPart)%nat
          then FormatInvalid "Local part of email is too long"
          else if String.eqb domainPart ""
          then FormatInvalid "Email must have content after @ symbol"
          else if (253 <? String.length domainPart)%nat
          then FormatInvalid "Domain part of email is too long"
          else if negb (includes domainPart ".")
          then FormatInvalid "Domain must contain at least one dot"
          else if negb (regexTest emailRegex email)
          then FormatInvalid "Invalid email format"
          else if includes email ".."
          then FormatInvalid "Email contains consecutive dots"
          else if startsWith email "." || endsWith email "."
          then FormatInvalid "Email starts or ends with a dot"
          else if includes email "@." || includes email ".@"
          then FormatInvalid "Invalid dot placement near @ symbol"
          else if startsWith email "-" || endsWith email "-"
          then FormatInvalid "Email starts or ends with hyphen"
          else if (String.length (lastLabel domainPart) <? 2)%nat
          then FormatInvalid "Top-level domain must be at least 2 characters"
          else FormatValid
      | _ => FormatInvalid "Email must contain exactly one @ symbol"
      end.

(** One row of the matrix of [getEditDistance] after the row [previous]:
    the cells from column 1 on, for the character [c2] of [str2]. *)
Fixpoint rowCells (c2 : ascii) (str1 : string) (diagonal : nat)
    (above : list nat) (left : nat) : list nat :=
  match str1, above with
  | String c1 str1', up :: above' =>
      let cell :=
        if Ascii.eqb c2 c1 then diagonal
        else Nat.min (diagonal + 1) (Nat.min (left + 1) (up + 1)) in
      cell :: rowCells c2 str1' up above' cell
  | _, _ => []
  end.

(** The rows for the characters of [str2], from the row [previous], with
    [i] the number of the next row; the result is the last row. *)
Fixpoint matrixRows (str1 str2 : string) (i : nat) (previous : list nat)
  : list nat :=
  match str2 with
  | EmptyString => previous
  | String c2 str2' =>
      matrixRows str1 str2' (S i)
        (i :: rowCells c2 str1 (List.hd 0%nat previous)
                (List.tl previous) i)
  end.

Definition getEditDistance (str1 str2 : string) : nat :=
  List.last (matrixRows str1 str2 1 (seq 0 (S (String.length str1)))) 0%nat.

(** A quotient of two integers, for the similarity that the source
    computes in floating point and compares with 0.8; at the lengths of
    domain names the comparison of the quotients is exact. *)
Record quotient := Quotient {
  numerator : Z;
  denominator : Z;
}.

Definition calculateSimilarity (str1 str2 : string) : quotient :=
  let longer :=
    if (String.length str2 <? String.length str1)%nat then str1 else str2 in
  let shorter :=
    if (String.length str2 <? String.length str1)%nat then str2 else str1 in
  if (String.length longer =? 0)%nat then Quotient 1 1
  else
    let editDistance := getEditDistance longer shorter in
    Quotient (Z.of_nat (String.length longer) - Z.of_nat editDistance)
             (Z.of_nat (String.length longer)).

(** [similarity > 0.8] *)
Definition aboveFourFifths (similarity : quotient) : bool :=
  (4 * denominator similarity <? 5 * numerator similarity)%Z.

(** What [checkForTypos] returns: [{ hasTypo: false }] or
    [{ hasTypo: true, suggestion, message }]. *)
Inductive typoCheck :=
| NoTypo
| Typo (suggestion text : string).

Definition commonDomains : list string :=
  ["gmail.com"; "yahoo.com"; "hotmail.com"; "outlook.com"; "microsoft.com"].

Definition didYouMean (correctedEmail : string) : string :=
  "Did you mean " +:+ String "034"%char correctedEmail
  +:+ String "034"%char "?".

(** The loop of [checkForTypos] over [commonDomains]. *)
Fixpoint nearCommonDomain (email domain lowerDomain : string)
    (candidates : list string) : typoCheck :=
  match candidates with
  | [] => NoTypo
  | commonDomain :: rest =>
      if (Z.abs (Z.of_nat (String.length lowerDomain)
                 - Z.of_nat (String.length commonDomain)) <=? 2)%Z
         && aboveFourFifths (calculateSimilarity lowerDomain commonDomain)
      then
        let correctedEmail := replaceIgnoringCase email domain commonDomain in
        Typo correctedEmail (didYouMean correctedEmail)
      else nearCommonDomain email domain lowerDomain rest
  end.

(** The table [COMMON_TYPOS] read at a key. *)
Fixpoint tableValue (table : list (string * string)) (key : string)
  : option string :=
  match table with
  | [] => None
  | (k, v) :: rest => if String.eqb k key then Some v else tableValue rest key
  end.

(** [checkForTypos]; [validateRecipient], its one caller, hands it an
    address that [validateEmailFormat] accepts, whose domain holds a dot
    and so is no inherited property name. *)
Definition checkForTypos (email : string) : typoCheck :=
  match split "@" email with
  | _ :: domain :: _ =>
      if String.eqb domain "" then NoTypo
      else
        let lowerDomain := toLowerCase domain in
        match tableValue COMMON_TYPOS lowerDomain with
        | Some corrected =>
            let correctedEmail := replaceIgnoringCase email domain corrected in
            Typo correctedEmail (didYouMean correctedEmail)
        | None => nearCommonDomain email domain lowerDomain commonDomains
        end
  | _ => NoTypo
  end.

Definition validateRecipient (recipient : string) : validationResult :=
  let email := extractEmail recipient in
  match validateEmailFormat email with
  | FormatInvalid text =>
      {| address := recipient; email := email; isValid := false;
         status := "error"; warnings := [text]; suggestions := [] |}
  | FormatValid =>
      match checkForTypos email with
      | Typo suggestion text =>
          {| address := recipient; email := email; isValid := true;
             status := "warning"; warnings := [text];
             suggestions := [suggestion] |}
      | NoTypo =>
          {| address := recipient; email := email; isValid := true;
             status := "valid"; warnings := []; suggestions := [] |}
      end
  end.

(** [result.status === 'valid' || result.status === 'warning'] *)
Definition isKept (r : validationResult) : bool :=
  String.eqb (status r) "valid" || String.eqb (status r) "warning".

(** [validateAndFilterRecipients]: [results] and [validRecipients].
    Nothing that [validateRecipient] calls raises an error, so the
    [catch] of the loop is not entered. *)
Definition validateAndFilterRecipients (recipients : list string)
  : list validationResult * list string :=
  (validateRecipient <$> recipients,
   filter (λ recipient, isKept (validateRecipient recipient) = true)
     recipients).

Definition validateStep (st : state) : state :=
  let input := listsOf st in
  let processedTo := validateAndFilterRecipients (to st) in
  let processedCc := validateAndFilterRecipients (cc st) in
  let processedBcc := validateAndFilterRecipients (bcc st) in
  let allValidationResults :=
    processedTo.1 ++ processedCc.1 ++ processedBcc.1 in
  let errors := filter (λ r, status r = "error") allValidationResults in
  let warnings := filter (λ r, status r = "warning") allValidationResults in
  let valid := filter (λ r, status r = "valid") allValidationResults in
  let action :=
    ValidateAction input
      {| toList := processedTo.2; ccList := processedCc.2;
         bccList := processedBcc.2 |}
      allValidationResults errors warnings
      (countOf st) (length valid) (length warnings) (length errors)
      (length errors) in
  withLists st processedTo.2 processedCc.2 processedBcc.2 action.

(** ** Prioritize internal *)

(** The loop of [getDomainIndex] and of [isInternalDomain] from the index
    [i] on: the index of the first internal domain that the domain equals
    or is a subdomain of, or -1. *)
Fixpoint firstMatchingDomain (domain : string) (internalDomains : list string)
    (i : Z) : Z :=
  match internalDomains with
  | [] => (-1)%Z
  | d :: rest =>
      let internalDomain := toLowerCase d in
      if String.eqb domain internalDomain
         || endsWith domain ("." +:+ internalDomain)
      then i
      else firstMatchingDomain domain rest (i + 1)%Z
  end.

(** [email.split('@')[1]] *)
Definition afterAt (email : string) : option string :=
  split "@" email !! 1%nat.

Definition getDomainIndex (email : string) (internalDomains : list string)
  : Z :=
  if String.eqb email "" || negb (includes email "@") then (-1)%Z
  else
    firstMatchingDomain (toLowerCase (default "" (afterAt email)))
      internalDomains 0.

(** An element of [internal] or of [external] in [prioritizeInternal]. *)
Record indexed := Indexed {
  indexedRecipient : string;
  domainIndex : Z;
  indexedEmail : string;
}.

Definition compareInternal (sortAlphabetically : bool) (a b : indexed) : Z :=
  if negb (domainIndex a =? domainIndex b)%Z
  then (domainIndex a - domainIndex b)%Z
  else if sortAlphabetically
  then compareByName (indexedRecipient a) (indexedEmail a)
         (indexedRecipient b) (indexedEmail b)
  else 0%Z.

Definition compareExternal (a b : indexed) : Z :=
  compareByName (indexedRecipient a) (indexedEmail a)
    (indexedRecipient b) (indexedEmail b).

Definition prioritizeInternal (recipients internalDomains : list string)
    (sortAlphabetically : bool) : list string :=
  match recipients, internalDomains with
  | [], _ => recipients
  | _, [] => recipients
  | _, _ =>
      let items :=
        (λ recipient,
           let email := extractEmail recipient in
           {| indexedRecipient := recipient;
              domainIndex := getDomainIndex email internalDomains;
              indexedEmail := email |}) <$> recipients in
      let internal := filter (λ item, (0 ≤ domainIndex item)%Z) items in
      let external := filter (λ item, ¬ (0 ≤ domainIndex item)%Z) items in
      let internal := arraySort (compareInternal sortAlphabetically) internal in
      let external :=
        if sortAlphabetically then arraySort compareExternal external
        else external in
      (indexedRecipient <$> internal) ++ (indexedRecipient <$> external)
  end.

Definition prioritizeInternalStep (st : state) : state :=
  let input := listsOf st in
  let internalDomains := internalDomains st in
  let sortAlphabetically := bool_decide ("sort" ∈ enabledSteps st) in
  let prioritizedTo :=
    prioritizeInternal (to st) internalDomains sortAlphabetically in
  let prioritizedCc :=
    prioritizeInternal (cc st) internalDomains sortAlphabetically in
  let prioritizedBcc :=
    prioritizeInternal (bcc st) internalDomains sortAlphabetically in
  let action :=
    PrioritizeInternalAction input
      {| toList := prioritizedTo; ccList := prioritizedCc;
         bccList := prioritizedBcc |}
      (length (toList input) + length (ccList input)
       + length (bccList input))%nat in
  withLists st prioritizedTo prioritizedCc prioritizedBcc action.

(** ** Remove external *)

Definition isInternalDomain (email : string) (internalDomains : list string)
  : bool :=
  if String.eqb email "" || negb (includes email "@") then false
  else
    (0 <=? firstMatchingDomain (toLowerCase (default "" (afterAt email)))
             internalDomains 0)%Z.

(** [removeExternal]: [filtered] and [removed]. *)
Definition removeExternal (recipients internalDomains : list string)
  : list string * list string :=
  match recipients, internalDomains with
  | [], _ => ([], [])
  | _, [] => (recipients, [])
  | _, _ =>
      (filter (λ recipient,
                 isInternalDomain (extractEmail recipient) internalDomains
                 = true) recipients,
       filter (λ recipient,
                 isInternalDomain (extractEmail recipient) internalDomains
                 ≠ true) recipients)
  end.

Definition removeExternalStep (st : state) : state :=
  let input := listsOf st in
  let internalDomains := internalDomains st in
  let toResult := removeExternal (to st) internalDomains in
  let ccResult := removeExternal (cc st) internalDomains in
  let bccResult := removeExternal (bcc st) internalDomains in
  let totalRemoved :=
    (length toResult.2 + length ccResult.2 + length bccResult.2)%nat in
  let action :=
    RemoveExternalAction input
      {| toList := toResult.1; ccList := ccResult.1; bccList := bccResult.1 |}
      {| toList := toResult.2; ccList := ccResult.2; bccList := bccResult.2 |}
      totalRemoved
      (length (toList input) + length (ccList input)
       + length (bccList input))%nat in
  withLists st toResult.1 ccResult.1 bccResult.1 action.

(** ** Flag external *)

Definition isExternalEmail (email orgDomain : string) : bool :=
  if String.eqb email "" || String.eqb orgDomain "" then false
  else
    match afterAt email with
    | None => true
    | Some emailDomain =>
        if String.eqb emailDomain "" then true
        else
          let normalizedEmailDomain := toLowerCase emailDomain in
          let normalizedOrgDomain := toLowerCase orgDomain in
          if String.eqb normalizedEmailDomain normalizedOrgDomain then false
          else if endsWith normalizedEmailDomain ("." +:+ normalizedOrgDomain)
          then false
          else true
    end.

(** [email.split('@')[1] || 'unknown'] *)
Definition domainOrUnknown (email : string) : string :=
  match afterAt email with
  | Some d => if String.eqb d "" then "unknown" else d
  | None => "unknown"
  end.

Definition categorize (orgDomain recipient : string) : categorized :=
  let email := extractEmail recipient in
  {| recipient := recipient; recipientEmail := email;
     domain := domainOrUnknown email;
     isExternal := isExternalEmail email orgDomain;
     field := None |}.

(** [categorizeRecipients]: [internal] and [external]. *)
Definition categorizeRecipients (recipients : list string)
    (orgDomain : string) : list categorized * list categorized :=
  let entries := categorize orgDomain <$> recipients in
  (filter (λ entry, isExternal entry = false) entries,
   filter (λ entry, isExternal entry = true) entries).

(** [{ ...r, field }] *)
Definition inField (name : string) (r : categorized) : categorized :=
  {| recipient := recipient r; recipientEmail := recipientEmail r;
     domain := domain r; isExternal := isExternal r; field := Some name |}.

(** The [reduce] of [flagExternalStep] from the accumulator [acc].  A
    domain that [acc] does not hold but every object inherits reads as
    the inherited value, which is truthy and has no [push]. *)
Fixpoint groupByDomain (acc : gmap string (list categorized))
    (entries : list categorized)
  : jsError + gmap string (list categorized) :=
  match entries with
  | [] => inr acc
  | entry :: rest =>
      match acc !! domain entry with
      | Some group =>
          groupByDomain (<[domain entry := group ++ [entry]]> acc) rest
      | None =>
          if decide (domain entry ∈ objectPrototypeNames)
          then inl (JsError
                      (typeErrorMessage (PushIsNotCallable (domain entry))))
          else groupByDomain (<[domain entry := [entry]]> acc) rest
      end
  end.

Definition flagExternalStep (st : state) : jsError + state :=
  if String.eqb (orgDomain st) ""
  then
    let action :=
      FlagExtSkipped (listsOf st) (listsOf st) [] 0 true
        "No organization domain provided" in
    inr (withLists st (to st) (cc st) (bcc st) action)
  else
    let input := listsOf st in
    let toCategorized := categorizeRecipients (to st) (orgDomain st) in
    let ccCategorized := categorizeRecipients (cc st) (orgDomain st) in
    let bccCategorized := categorizeRecipients (bcc st) (orgDomain st) in
    let allExternal :=
      (inField "to" <$> toCategorized.2)
      ++ (inField "cc" <$> ccCategorized.2)
      ++ (inField "bcc" <$> bccCategorized.2) in
    match groupByDomain ∅ allExternal with
    | inl error => inl error
    | inr externalDomains =>
        let action :=
          FlagExtAction input (listsOf st) (recipient <$> allExternal)
            externalDomains
            {| totalRecipients := countOf st;
               externalCount := length allExternal;
               internalCount :=
                 (Z.of_nat (countOf st) - Z.of_nat (length allExternal))%Z;
               uniqueExternalDomains := size externalDomains |}
            (orgDomain st) (countOf st) in
        inr (withLists st (to st) (cc st) (bcc st) action)
    end.

(** ** The orchestrator *)

(** What [stepMap[stepName]] can be: one of the six functions of the
    table, or the value that the table inherits under that name. *)
Inductive stepFn :=
| OwnStep (step : state → jsError + state)
| Inherited (name : string).

(** The own properties of [stepMap]. *)
Definition stepMap (stepName : string) : option (state → jsError + state) :=
  if String.eqb stepName "sort" then Some (λ st, inr (sortStep st))
  else if String.eqb stepName "dedupe" then Some (λ st, inr (dedupeStep st))
  else if String.eqb stepName "validate"
  then Some (λ st, inr (validateStep st))
  else if String.eqb stepName "prioritizeInternal"
  then Some (λ st, inr (prioritizeInternalStep st))
  else if String.eqb stepName "removeExternal"
  then Some (λ st, inr (removeExternalStep st))
  else if String.eqb stepName "flagExt" then Some flagExternalStep
  else None.

(** [stepMap[stepName]], when it is truthy. *)
Definition lookupStep (stepName : string) : option stepFn :=
  match stepMap stepName with
  | Some step => Some (OwnStep step)
  | None =>
      if decide (stepName ∈ objectPrototypeNames)
      then Some (Inherited stepName) else None
  end.

(** The value of the variable [state] during the loop: a state, or what
    an inherited function has returned in its place, a string or a
    boolean, or the wrapper object of one. *)
Inductive stateValue :=
| IsState (st : state)
| IsPrimitive
| IsWrapper.

(** [stepFn(state)].  The six functions first spread [state.to], which a
    value that is not a state does not have.  An inherited name reads as
    a method of [Object.prototype], called here without receiver:
    [Object] returns an object as it is and wraps a primitive,
    [toString] returns a string, [isPrototypeOf] returns [false] for a
    primitive, and each of the others raises a [TypeError], as does the
    call of the object that [__proto__] reads as. *)
Definition callStepFn (fn : stepFn) (v : stateValue) : jsError + stateValue :=
  match fn with
  | OwnStep step =>
      match v with
      | IsState st =>
          match step st with
          | inl error => inl error
          | inr st' => inr (IsState st')
          end
      | _ => inl (JsError (typeErrorMessage SpreadOfMissingList))
      end
  | Inherited name =>
      if String.eqb name "constructor"
      then inr (match v with IsState st => IsState st | _ => IsWrapper end)
      else if String.eqb name "toString" then inr IsPrimitive
      else if String.eqb name "__proto__"
      then inl (JsError (typeErrorMessage (StepIsNotCallable name)))
      else if String.eqb name "isPrototypeOf"
      then match v with
           | IsPrimitive => inr IsPrimitive
           | _ => inl (JsError (typeErrorMessage (BuiltinRejects name)))
           end
      else inl (JsError (typeErrorMessage (BuiltinRejects name)))
  end.

(** One turn of the loop of [processRecipients]. *)
Definition runStep (stepName : string) (v : stateValue)
  : jsError + stateValue :=
  match lookupStep stepName with
  | Some fn =>
      match callStepFn fn v with
      | inl error =>
          inl (JsError ("Step '" +:+ stepName +:+ "' failed: "
                        +:+ message error))
      | inr v' => inr v'
      end
  | None => inr v
  end.

(** The loop over [state.enabledSteps]. *)
Fixpoint runSteps (stepNames : list string) (v : stateValue)
  : jsError + stateValue :=
  match stepNames with
  | [] => inr v
  | stepName :: rest =>
      match runStep stepName v with
      | inl error => inl error
      | inr v' => runSteps rest v'
      end
  end.

(** The state that [processRecipients] starts from. *)
Definition initialState (p : payload) : state :=
  {| to := default [] (payloadTo p);
     cc := default [] (payloadCc p);
     bcc := default [] (payloadBcc p);
     enabledSteps :=
       default [] (payloadUserSettings p ≫= settingsEnabledSteps);
     internalDomains :=
       default [] (payloadUserSettings p ≫= settingsInternalDomains);
     orgDomain :=
       default "" (payloadUserSettings p ≫= settingsOrgDomain);
     actions := [] |}.

Definition processRecipients (p : payload) : jsError + processingResult :=
  let st0 := initialState p in
  match runSteps (enabledSteps st0) (IsState st0) with
  | inl error => inl error
  | inr (IsState st) =>
      inr {| success := true;
             result := listsOf st;
             resultActions := actions st;
             resultSummary :=
               {| totalProcessed :=
                    (length (default [] (payloadTo p))
                     + length (default [] (payloadCc p))
                     + length (default [] (payloadBcc p)))%nat;
                  totalRemaining := countOf st;
                  stepsExecuted := length (actions st) |} |}
  | inr _ => inl (JsError (typeErrorMessage LengthOfMissingList))
  end.

(** ** Definitions for the properties of a run *)

(** A name of the table of steps, and a name that the lookup finds. *)
Definition isStepName (stepName : string) : Prop :=
  is_Some (stepMap stepName).

Definition isFound (stepName : string) : Prop :=
  is_Some (lookupStep stepName).

Global Instance isStepName_dec (stepName : string)
  : Decision (isStepName stepName).
Proof. unfold isStepName. apply _. Defined.

Global Instance isFound_dec (stepName : string)
  : Decision (isFound stepName).
Proof. unfold isFound. apply _. Defined.

(** A log in which the first action starts from [start], each further
    action from the output of the one before it, and the last one ends in
    [final]. *)
Fixpoint chained (start : recipients) (log : list action)
    (final : recipients) : Prop :=
  match log with
  | [] => start = final
  | a :: log' => actionInput a = start ∧ chained (actionOutput a) log' final
  end.

(** The lists of a payload, and the payload with another list of enabled
    steps. *)
Definition payloadLists (p : payload) : recipients :=
  listsOf (initialState p).

Definition withEnabledSteps (p : payload) (stepNames : list string)
  : payload :=
  {| payloadTo := payloadTo p;
     payloadCc := payloadCc p;
     payloadBcc := payloadBcc p;
     payloadUserSettings :=
       Some {| settingsEnabledSteps := Some stepNames;
               settingsInternalDomains :=
                 payloadUserSettings p ≫= settingsInternalDomains;
               settingsOrgDomain :=
                 payloadUserSettings p ≫= settingsOrgDomain |} |}.

(** Every list of the first triple is, as a multiset, within the same
    list of the second. *)
Definition listsWithin (lists1 lists2 : recipients) : Prop :=
  toList lists1 ⊆+ toList lists2
  ∧ ccList lists1 ⊆+ ccList lists2
  ∧ bccList lists1 ⊆+ bccList lists2.

(** Two states that differ at most in the list of enabled steps, which
    holds sort in both or in neither; two values of the loop that are
    such states or are the same; two outcomes that are the same error or
    are related results. *)
Definition alike (st1 st2 : state) : Prop :=
  to st1 = to st2 ∧ cc st1 = cc st2 ∧ bcc st1 = bcc st2
  ∧ internalDomains st1 = internalDomains st2
  ∧ orgDomain st1 = orgDomain st2
  ∧ actions st1 = actions st2
  ∧ ("sort" ∈ enabledSteps st1 ↔ "sort" ∈ enabledSteps st2).

Definition alikeValues (v1 v2 : stateValue) : Prop :=
  match v1, v2 with
  | IsState st1, IsState st2 => alike st1 st2
  | IsPrimitive, IsPrimitive => True
  | IsWrapper, IsWrapper => True
  | _, _ => False
  end.

Definition alikeOutcomes {A} (R : A → A → Prop) (o1 o2 : jsError + A)
  : Prop :=
  match o1, o2 with
  | inl e1, inl e2 => e1 = e2
  | inr a1, inr a2 => R a1 a2
  | _, _ => False
  end.

End Library.

End Processors.

(** The default steps, enabled in another order and with no stored order. *)
Definition reorderedSettings : settings :=
  {| enabledSteps := ["validate"; "prioritizeInternal"; "dedupe"; "sort"];
     stepOrder := None; orgDomain := None; internalDomains := None |}.

(** Inputs for the library. *)

(** An engine for the examples; its messages follow the wording of V8 and
    stand for whatever the engine at hand reports. *)
Definition exampleEngine : Processors.JsEngine :=
  {| Processors.typeErrorMessage site :=
       match site with
       | Processors.StepIsNotCallable _ => "stepFn is not a function"
       | Processors.BuiltinRejects _ =>
           "Cannot convert undefined or null to object"
       | Processors.SpreadOfMissingList => "state.to is not iterable"
       | Processors.PushIsNotCallable _ =>
           "acc[domain].push is not a function"
       | Processors.LengthOfMissingList =>
           "Cannot read properties of undefined (reading 'length')"
       end |}.

(** A payload with a primary field only. *)
Definition payloadOf (toRecipients steps : list string) (org : string)
  : Processors.payload :=
  {| Processors.payloadTo := Some toRecipients;
     Processors.payloadCc := Some [];
     Processors.payloadBcc := Some [];
     Processors.payloadUserSettings :=
       Some {| Processors.settingsEnabledSteps := Some steps;
               Processors.settingsInternalDomains := Some [];
               Processors.settingsOrgDomain := Some org |} |}.

(** An address whose domain is the name of a property that every object
    inherits, flagged against the organization domain corp.com between a
    sort and a dedupe. *)
Definition inheritedDomain : Processors.payload :=
  payloadOf ["bob@constructor"] ["sort"; "flagExt"; "dedupe"] "corp.com".

(** A display name with an address whose local part has 65 characters. *)
Definition longLocalEntry : string := "Ann <" +:+ longLocal +:+ ">".

(** One address, with a list of enabled steps. *)
Definition oneAddress (steps : list string) : Processors.payload :=
  payloadOf ["a@x.com"] steps "".

(** Two spellings of one address under two names, sorted and deduplicated
    with a name in between that stands for no step. *)
Definition withUnknownName : Processors.payload :=
  payloadOf ["B <x@a.com>"; "A <X@a.com>"] ["sort"; "compress"; "dedupe"] "".


(** * Proofs *)
(** * Facts about Dedupe *)

Section DedupeFacts.
Context {ops : JsStringOps}.
Implicit Types (seen : gset string) (l : list recipient) (r : recipient).

Lemma filterSeen_union seen1 seen2 l :
  filterSeen (seen1 ∪ seen2) l
  = filter (λ r, normalizedEmail r ∉ seen1) (filterSeen seen2 l).
Proof.
  revert seen2. induction l as [|r l IH]; intros seen2; simpl; [done|].
  destruct (decide (normalizedEmail r ∈ seen2)) as [Hin2|Hin2].
  - rewrite decide_True by set_solver. apply IH.
  - destruct (decide (normalizedEmail r ∈ seen1)) as [Hin1|Hin1].
    + rewrite decide_True by set_solver.
      rewrite filter_cons_False by (intros Hn; by apply Hn).
      rewrite <- IH. f_equal. set_solver.
    + rewrite decide_False by set_solver.
      rewrite filter_cons_True by done.
      rewrite <- IH. do 2 f_equal. set_solver.
Qed.

Lemma filterSeen_filter seen l :
  filterSeen seen l
  = filter (λ r, normalizedEmail r ∉ seen) (deduplicateWithinArray l).
Proof.
  unfold deduplicateWithinArray. rewrite <- filterSeen_union.
  f_equal. set_solver.
Qed.

Lemma filterSeen_fresh seen l r :
  r ∈ filterSeen seen l → normalizedEmail r ∉ seen.
Proof.
  revert seen. induction l as [|a l IH]; intros seen; simpl.
  - by intros ?%elem_of_nil.
  - destruct (decide (normalizedEmail a ∈ seen)); [by apply IH|].
    intros [->|Hin]%elem_of_cons; [done|].
    apply IH in Hin. set_solver.
Qed.

Lemma filterSeen_NoDup seen l : NoDup (emailsOf (filterSeen seen l)).
Proof.
  revert seen. induction l as [|a l IH]; intros seen; simpl.
  - constructor.
  - destruct (decide (normalizedEmail a ∈ seen)); [by apply IH|].
    unfold emailsOf. rewrite fmap_cons. constructor; [|apply IH].
    intros (r & Heq & Hin)%list_elem_of_fmap.
    apply filterSeen_fresh in Hin. set_solver.
Qed.

Lemma filterSeen_sublist seen l : filterSeen seen l `sublist_of` l.
Proof.
  revert seen. induction l as [|a l IH]; intros seen; simpl; [done|].
  destruct (decide (normalizedEmail a ∈ seen)).
  - by apply sublist_cons.
  - by apply sublist_skip.
Qed.

(** A list without two equal emails, none of them seen, is kept whole. *)
Lemma filterSeen_id seen l :
  NoDup (emailsOf l) →
  (∀ r, r ∈ l → normalizedEmail r ∉ seen) →
  filterSeen seen l = l.
Proof.
  revert seen. induction l as [|a l IH]; intros seen Hnd Hfresh; simpl; [done|].
  unfold emailsOf in Hnd. rewrite fmap_cons in Hnd.
  apply NoDup_cons in Hnd as [Ha Hnd].
  rewrite decide_False by (apply Hfresh; left).
  f_equal. apply IH; [done|].
  intros r Hr. specialize (Hfresh r (list_elem_of_further _ _ _ Hr)).
  assert (normalizedEmail r ≠ normalizedEmail a).
  { intros Heq. apply Ha. rewrite <- Heq. by apply list_elem_of_fmap_2. }
  set_solver.
Qed.

Lemma forEachClaim_filterSeen seen final l :
  forEachClaim seen final l
  = (seen ∪ list_to_set (emailsOf (filterSeen seen l)),
     final ++ filterSeen seen l).
Proof.
  revert seen final. induction l as [|a l IH]; intros seen final; simpl.
  - rewrite app_nil_r. f_equal. set_solver.
  - destruct (decide (normalizedEmail a ∈ seen)); [by apply IH|].
    rewrite IH, <- app_assoc. simpl. f_equal. set_solver.
Qed.
End DedupeFacts.

Section DedupeTheorems.
Context {ops : JsStringOps}.
Implicit Types (seen : gset string) (l t c b : list recipient) (r : recipient).

Lemma deduplicateWithinArray_NoDup l :
  NoDup (emailsOf (deduplicateWithinArray l)).
Proof. apply filterSeen_NoDup. Qed.

Lemma deduplicateWithinArray_id l :
  NoDup (emailsOf l) → deduplicateWithinArray l = l.
Proof. intros Hnd. apply filterSeen_id; [done|]. set_solver. Qed.

(** The set-based loop and the positional reading agree. *)
Lemma filterSeen_positions (p l : list recipient) :
  filterSeen (list_to_set (emailsOf p)) l
  = omap id
      (imap (λ i r,
         if decide (normalizedEmail r ∈ emailsOf (take (length p + i) (p ++ l)))
         then None else Some r) l).
Proof.
  revert p. induction l as [|a l IH]; intros p; [done|].
  rewrite imap_cons. cbn [omap list_omap filterSeen].
  rewrite Nat.add_0_r, take_app_length.
  assert (Hext : imap
    ((λ i r, if decide (normalizedEmail r
                        ∈ emailsOf (take (length p + i) (p ++ a :: l)))
             then None else Some r) ∘ S) l
    = imap (λ i r, if decide (normalizedEmail r
                        ∈ emailsOf (take (length (p ++ [a]) + i) ((p ++ [a]) ++ l)))
             then None else Some r) l).
  { apply imap_ext. intros i x _. simpl.
    rewrite length_app, <- app_assoc. simpl.
    by replace (length p + 1 + i) with (length p + S i) by lia. }
  rewrite Hext, <- IH. clear Hext IH.
  assert (Hset : list_to_set (emailsOf (p ++ [a]))
                 =@{gset string} {[normalizedEmail a]} ∪ list_to_set (emailsOf p)).
  { unfold emailsOf. rewrite fmap_app, list_to_set_app_L. set_solver. }
  destruct (decide (normalizedEmail a ∈ emailsOf p)) as [Hin|Hin].
  - rewrite decide_True by (by apply elem_of_list_to_set).
    simpl. rewrite Hset. f_equal.
    assert (normalizedEmail a ∈ (list_to_set (emailsOf p) : gset string))
      by (by apply elem_of_list_to_set).
    set_solver.
  - rewrite decide_False by (by rewrite elem_of_list_to_set).
    simpl. by rewrite Hset.
Qed.

Lemma deduplicateWithinArray_positions l :
  deduplicateWithinArray l = dropLaterOccurrences l.
Proof.
  unfold deduplicateWithinArray, dropLaterOccurrences.
  change (∅ : gset string) with (list_to_set (emailsOf []) : gset string).
  by rewrite filterSeen_positions.
Qed.

(** The three loops over the shared set, in closed form. *)
Lemma deduplicateAllRecipients_filters t c b :
  deduplicateAllRecipients t c b
  = let t' := deduplicateWithinArray t in
    let c' := filter (λ r, normalizedEmail r ∉ emailsOf t')
                (deduplicateWithinArray c) in
    let b' := filter (λ r, (normalizedEmail r ∉ emailsOf t')
                           ∧ (normalizedEmail r ∉ emailsOf c'))
                (deduplicateWithinArray b) in
    {| to := t'; cc := c'; bcc := b' |}.
Proof.
  unfold deduplicateAllRecipients.
  rewrite !forEachClaim_filterSeen. cbn zeta. simpl.
  fold (deduplicateWithinArray (deduplicateWithinArray t)).
  rewrite (filterSeen_filter _ (deduplicateWithinArray c)).
  rewrite (filterSeen_filter _ (deduplicateWithinArray b)).
  rewrite !(deduplicateWithinArray_id (deduplicateWithinArray _))
    by apply deduplicateWithinArray_NoDup.
  set (t' := deduplicateWithinArray t).
  assert (Hc : filter (λ r, normalizedEmail r ∉ (∅ ∪ list_to_set (emailsOf t') : gset string))
                 (deduplicateWithinArray c)
               = filter (λ r, normalizedEmail r ∉ emailsOf t')
                   (deduplicateWithinArray c)).
  { apply list_filter_iff. intros r. set_solver. }
  rewrite Hc. f_equal.
  apply list_filter_iff. intros r. set_solver.
Qed.

End DedupeTheorems.

Section DedupeClaims.
Context {ops : JsStringOps}.
Implicit Types (seen : gset string) (l t c b : list recipient) (r : recipient).

(** The emails seen after a pass are those seen before and those of the
    whole list passed over. *)
Lemma filterSeen_emails seen l :
  seen ∪ list_to_set (emailsOf (filterSeen seen l))
  = seen ∪ list_to_set (emailsOf l).
Proof.
  revert seen. induction l as [|a l IH]; intros seen; simpl; [done|].
  destruct (decide (normalizedEmail a ∈ seen)) as [Hin|Hin].
  - rewrite IH. set_solver.
  - unfold emailsOf in *. rewrite !fmap_cons. simpl.
    specialize (IH ({[normalizedEmail a]} ∪ seen)). set_solver.
Qed.

Lemma emailsOf_app_set l1 l2 :
  list_to_set (emailsOf (l1 ++ l2))
  =@{gset string} list_to_set (emailsOf l1) ∪ list_to_set (emailsOf l2).
Proof. unfold emailsOf. by rewrite fmap_app, list_to_set_app_L. Qed.

Lemma filterSeen_dedupe seen l :
  filterSeen seen (deduplicateWithinArray l) = filterSeen seen l.
Proof.
  rewrite (filterSeen_filter seen (deduplicateWithinArray l)).
  rewrite deduplicateWithinArray_id by apply deduplicateWithinArray_NoDup.
  by rewrite <- filterSeen_filter.
Qed.

(** The run over the three fields is one pass over their concatenation,
    cut where the fields meet. *)
Lemma deduplicateAllRecipients_one_pass t c b :
  deduplicateAllRecipients t c b
  = {| to := filterSeen ∅ t;
       cc := filterSeen (list_to_set (emailsOf t)) c;
       bcc := filterSeen (list_to_set (emailsOf (t ++ c))) b |}.
Proof.
  unfold deduplicateAllRecipients.
  rewrite !forEachClaim_filterSeen. cbn zeta. simpl.
  rewrite !filterSeen_dedupe.
  rewrite (filterSeen_emails ∅ t).
  assert (Hc : (∅ ∪ list_to_set (emailsOf t) : gset string)
               = list_to_set (emailsOf t)) by set_solver.
  rewrite Hc, filterSeen_emails.
  by rewrite emailsOf_app_set.
Qed.

Lemma filter_email_filterSeen (k : string) seen l :
  filter (λ r, normalizedEmail r = k) (filterSeen seen l)
  = if decide (k ∈ seen) then []
    else take 1 (filter (λ r, normalizedEmail r = k) l).
Proof.
  revert seen. induction l as [|a l IH]; intros seen; simpl.
  - by destruct (decide (k ∈ seen)).
  - destruct (decide (normalizedEmail a ∈ seen)) as [Hin|Hin].
    + rewrite IH. destruct (decide (k ∈ seen)); [done|].
      by rewrite filter_cons_False by (intros Heq; subst k; done).
    + destruct (decide (normalizedEmail a = k)) as [<-|Hne].
      * rewrite !filter_cons_True by done.
        rewrite IH, decide_True by set_solver.
        by rewrite decide_False.
      * rewrite !filter_cons_False by done.
        rewrite IH.
        destruct (decide (k ∈ seen)).
        -- by rewrite decide_True by set_solver.
        -- by rewrite decide_False by set_solver.
Qed.

Lemma filter_nil_not_email (k : string) l :
  filter (λ r, normalizedEmail r = k) l = [] ↔ k ∉ emailsOf l.
Proof.
  unfold emailsOf. induction l as [|a l IH].
  - split; [intros _ ?%elem_of_nil; done|done].
  - rewrite fmap_cons, not_elem_of_cons.
    destruct (decide (normalizedEmail a = k)) as [Heq|Hne].
    + rewrite filter_cons_True by done. naive_solver.
    + rewrite filter_cons_False by done. naive_solver.
Qed.

End DedupeClaims.

Section DedupeResults.
Context {ops : JsStringOps}.
Implicit Types (l t c b : list recipient) (r : recipient).

(** C1.  Dedupe works in two phases.  Within each field an entry is dropped
    when an earlier entry of that field has the same lower-cased email, and
    the first occurrence stays where it is; then the fields are scanned in
    the order primary, copy, blind-copy and an entry of copy or blind-copy
    stays only if its email was not kept by a field of higher priority
    ([dedupeSpec]).  For the address a@x.com present in all three fields,
    whatever the display names, only the primary entry remains. *)
Theorem dedupe_two_phase_priority :
  (∀ t c b, deduplicateAllRecipients t c b = dedupeSpec t c b)
  ∧ (∀ n1 n2 n3,
       deduplicateAllRecipients
         [Recipient n1 (Some "a@x.com")] [Recipient n2 (Some "a@x.com")]
         [Recipient n3 (Some "a@x.com")]
       = {| to := [Recipient n1 (Some "a@x.com")]; cc := []; bcc := [] |}).
Proof.
  split.
  - intros t c b. rewrite deduplicateAllRecipients_filters.
    unfold dedupeSpec. by rewrite !deduplicateWithinArray_positions.
  - intros n1 n2 n3. rewrite deduplicateAllRecipients_one_pass. simpl.
    rewrite decide_False by set_solver.
    unfold emailsOf. simpl.
    by rewrite !decide_True by set_solver.
Qed.

(** C5.  Dedupe is idempotent: run on its own output it returns that output,
    field by field. *)
Theorem dedupe_idempotent t c b :
  deduplicateAllRecipients
    (to (deduplicateAllRecipients t c b))
    (cc (deduplicateAllRecipients t c b))
    (bcc (deduplicateAllRecipients t c b))
  = deduplicateAllRecipients t c b.
Proof.
  rewrite (deduplicateAllRecipients_one_pass t c b). cbn [to cc bcc].
  rewrite deduplicateAllRecipients_one_pass.
  assert (Hkeep : ∀ seen seen' l,
    seen ⊆ seen' → NoDup (emailsOf l) →
    (∀ r, r ∈ l → normalizedEmail r ∉ seen') → filterSeen seen l = l).
  { intros seen seen' l Hsub Hnd Hfresh. apply filterSeen_id; [done|].
    intros r Hr. specialize (Hfresh r Hr). set_solver. }
  f_equal.
  - apply filterSeen_id; [apply filterSeen_NoDup|set_solver].
  - apply (Hkeep _ (list_to_set (emailsOf t))).
    + pose proof (filterSeen_emails ∅ t). set_solver.
    + apply filterSeen_NoDup.
    + intros r. apply filterSeen_fresh.
  - apply (Hkeep _ (list_to_set (emailsOf (t ++ c)))).
    + rewrite !emailsOf_app_set.
      pose proof (filterSeen_emails ∅ t).
      pose proof (filterSeen_emails (list_to_set (emailsOf t)) c).
      set_solver.
    + apply filterSeen_NoDup.
    + intros r. apply filterSeen_fresh.
Qed.

Lemma validateAndFilterRecipients_sublist l :
  validateAndFilterRecipients l `sublist_of` l.
Proof. apply sublist_filter. Qed.

(** C9.  The steps that are not there to reorder keep the order of what
    they keep, field by field: the output of Validate is a subsequence of
    its input, and each of the three lists returned by Dedupe is a
    subsequence of the list given for the same field, so no entry changes
    field. *)
Theorem filtering_steps_preserve_order :
  (∀ l, validateAndFilterRecipients l `sublist_of` l)
  ∧ (∀ t c b,
       to (deduplicateAllRecipients t c b) `sublist_of` t
       ∧ cc (deduplicateAllRecipients t c b) `sublist_of` c
       ∧ bcc (deduplicateAllRecipients t c b) `sublist_of` b).
Proof.
  split; [apply validateAndFilterRecipients_sublist|].
  intros t c b. rewrite deduplicateAllRecipients_one_pass. cbn [to cc bcc].
  repeat split; apply filterSeen_sublist.
Qed.

(** C10.  Entries without an email (missing or empty) all normalize to the
    empty string, which lower-casing leaves empty and produces from nothing
    else.  Of all such entries in the three fields Dedupe keeps exactly the
    first one of the first field, in priority order, that has any; so at
    most one survives overall. *)
Theorem dedupe_keeps_first_entry_without_email
    (Hlower : ∀ s, toLowerCase s = "" ↔ s = "") t c b :
  let out := deduplicateAllRecipients t c b in
  filter hasNoEmail (to out) = take 1 (filter hasNoEmail t)
  ∧ filter hasNoEmail (cc out)
    = (if filter hasNoEmail t is [] then take 1 (filter hasNoEmail c) else [])
  ∧ filter hasNoEmail (bcc out)
    = (if filter hasNoEmail (t ++ c) is []
       then take 1 (filter hasNoEmail b) else [])
  ∧ (length (filter hasNoEmail (to out ++ cc out ++ bcc out)) ≤ 1)%nat.
Proof.
  assert (Hfilter : ∀ l,
    filter hasNoEmail l = filter (λ r, normalizedEmail r = "") l).
  { intros l. apply list_filter_iff. intros r.
    unfold hasNoEmail, normalizedEmail. by rewrite Hlower. }
  assert (Hin : ∀ l,
    (if filter hasNoEmail l is [] then true else false)
    = bool_decide ("" ∉ (list_to_set (emailsOf l) : gset string))).
  { intros l. rewrite Hfilter.
    pose proof (filter_nil_not_email "" l) as Hnil.
    destruct (filter _ l) eqn:Heq.
    - symmetry. apply bool_decide_eq_true.
      rewrite elem_of_list_to_set. by apply Hnil.
    - symmetry. apply bool_decide_eq_false. intros Hnot.
      rewrite elem_of_list_to_set in Hnot. by apply Hnil in Hnot. }
  intros out. subst out. rewrite deduplicateAllRecipients_one_pass.
  cbn [to cc bcc].
  assert (Hto : filter hasNoEmail (filterSeen ∅ t)
                = take 1 (filter hasNoEmail t)).
  { rewrite !Hfilter, filter_email_filterSeen. by rewrite decide_False. }
  assert (Hcc : filter hasNoEmail (filterSeen (list_to_set (emailsOf t)) c)
                = if filter hasNoEmail t is []
                  then take 1 (filter hasNoEmail c) else []).
  { specialize (Hin t). rewrite (Hfilter (filterSeen _ _)).
    rewrite filter_email_filterSeen, <- Hfilter.
    destruct (filter hasNoEmail t).
    - symmetry in Hin. apply bool_decide_eq_true in Hin.
      by rewrite decide_False.
    - symmetry in Hin. apply bool_decide_eq_false in Hin.
      rewrite decide_True; [done|]. by apply dec_stable. }
  assert (Hbcc :
    filter hasNoEmail (filterSeen (list_to_set (emailsOf (t ++ c))) b)
    = if filter hasNoEmail (t ++ c) is []
      then take 1 (filter hasNoEmail b) else []).
  { specialize (Hin (t ++ c)). rewrite (Hfilter (filterSeen _ _)).
    rewrite filter_email_filterSeen, <- Hfilter.
    destruct (filter hasNoEmail (t ++ c)).
    - symmetry in Hin. apply bool_decide_eq_true in Hin.
      by rewrite decide_False.
    - symmetry in Hin. apply bool_decide_eq_false in Hin.
      rewrite decide_True; [done|]. by apply dec_stable. }
  split_and!; [done..|].
  rewrite !filter_app, Hto, Hcc, Hbcc, !filter_app, !length_app.
  destruct (filter hasNoEmail t) as [|x xs]; simpl; [|lia].
  destruct (filter hasNoEmail c) as [|y ys]; simpl; [|lia].
  destruct (filter hasNoEmail b); simpl; lia.
Qed.

End DedupeResults.

(** * The pattern matcher decides the language *)

Lemma append_nil_l (s : string) : "" +:+ s = s.
Proof. reflexivity. Qed.

Lemma append_cons c (s t : string) : String c s +:+ t = String c (s +:+ t).
Proof. reflexivity. Qed.

Lemma append_nil_r (s : string) : s +:+ "" = s.
Proof. induction s as [|c s IH]; [done|]. by rewrite append_cons, IH. Qed.

Lemma append_assoc (s t u : string) : (s +:+ t) +:+ u = s +:+ t +:+ u.
Proof. induction s as [|c s IH]; [done|]. by rewrite !append_cons, IH. Qed.

Lemma matches_void_inv s : ¬ matches Void s.
Proof. inversion 1. Qed.

Lemma matches_eps_inv s : matches Eps s → s = "".
Proof. by inversion 1. Qed.

Lemma matches_class_inv p s :
  matches (Class p) s → ∃ c, s = String c "" ∧ p c = true.
Proof. inversion 1; subst. eauto. Qed.

Lemma matches_seq_inv r1 r2 s :
  matches (Seq r1 r2) s → ∃ s1 s2, s = s1 +:+ s2 ∧ matches r1 s1 ∧ matches r2 s2.
Proof. inversion 1; subst. eauto. Qed.

Lemma matches_alt_inv r1 r2 s :
  matches (Alt r1 r2) s → matches r1 s ∨ matches r2 s.
Proof. inversion 1; subst; eauto. Qed.

(** A non-empty word of a starred pattern starts with a non-empty word
    of the pattern. *)
Lemma matches_star_inv r c s :
  matches (Star r) (String c s) →
  ∃ s1 s2, s = s1 +:+ s2 ∧ matches r (String c s1) ∧ matches (Star r) s2.
Proof.
  intros Hm. remember (Star r) as r' eqn:Hr. remember (String c s) as w eqn:Hw.
  revert c s Hw.
  induction Hm as [| | | | | |r0 s1 s2 Hm1 _ Hm2 IH]; intros c' s' Hw;
    try discriminate.
  injection Hr as ->.
  destruct s1 as [|c1 s1]; rewrite ?append_nil_l, ?append_cons in Hw.
  - by apply IH.
  - injection Hw as <- <-. eauto.
Qed.

Lemma matches_seq' r1 r2 s : matches (seq' r1 r2) s ↔ matches (Seq r1 r2) s.
Proof.
  split.
  - intros Hm. destruct r1, r2; simpl in Hm;
      try (by apply matches_void_inv in Hm); try done;
      by apply (matches_seq Eps _ "" s); [constructor|].
  - intros (s1 & s2 & -> & H1 & H2)%matches_seq_inv.
    destruct r1, r2; simpl;
      try (by apply matches_void_inv in H1);
      try (by apply matches_void_inv in H2);
      try (by constructor);
      by apply matches_eps_inv in H1 as ->.
Qed.

Lemma matches_alt' r1 r2 s : matches (alt' r1 r2) s ↔ matches (Alt r1 r2) s.
Proof.
  split.
  - intros Hm. destruct r1, r2; simpl in Hm;
      try (by apply matches_void_inv in Hm); try done;
      first [by apply matches_alt_l | by apply matches_alt_r].
  - intros [H1|H2]%matches_alt_inv.
    + destruct r1, r2; simpl; try (by apply matches_void_inv in H1);
        try done; by apply matches_alt_l.
    + destruct r1, r2; simpl; try (by apply matches_void_inv in H2);
        try done; by apply matches_alt_r.
Qed.

Lemma nullable_matches r : nullable r = true ↔ matches r "".
Proof.
  induction r as [| |p|r1 IH1 r2 IH2|r1 IH1 r2 IH2|r IH]; simpl.
  - split; [done|by intros ?%matches_void_inv].
  - split; [constructor|done].
  - split; [done|]. by intros (c & ? & _)%matches_class_inv.
  - rewrite andb_true_iff, IH1, IH2. split.
    + intros [H1 H2]. by apply (matches_seq _ _ "" "").
    + intros (s1 & s2 & Heq & H1 & H2)%matches_seq_inv.
      destruct s1; rewrite ?append_nil_l, ?append_cons in Heq; [|done].
      by subst s2.
  - rewrite orb_true_iff, IH1, IH2. split.
    + intros [?|?]; [by apply matches_alt_l|by apply matches_alt_r].
    + apply matches_alt_inv.
  - split; [constructor|done].
Qed.

Lemma deriv_matches c r s : matches (deriv c r) s ↔ matches r (String c s).
Proof.
  revert s. induction r as [| |p|r1 IH1 r2 IH2|r1 IH1 r2 IH2|r IH];
    intros s; simpl.
  - split; by intros ?%matches_void_inv.
  - split; [by intros ?%matches_void_inv|by intros ?%matches_eps_inv].
  - destruct (p c) eqn:Hp; split.
    + intros ->%matches_eps_inv. by constructor.
    + intros (c' & [= <- ->] & _)%matches_class_inv. constructor.
    + by intros ?%matches_void_inv.
    + intros (c' & [= <- ->] & Hp')%matches_class_inv. congruence.
  - rewrite matches_alt'. split.
    + intros [Hm|Hm]%matches_alt_inv.
      * apply matches_seq' in Hm as (s1 & s2 & -> & H1 & H2)%matches_seq_inv.
        apply IH1 in H1. by apply (matches_seq _ _ (String c s1) s2).
      * destruct (nullable r1) eqn:Hn; [|by apply matches_void_inv in Hm].
        apply nullable_matches in Hn. apply IH2 in Hm.
        by apply (matches_seq _ _ "" (String c s)).
    + intros (s1 & s2 & Heq & H1 & H2)%matches_seq_inv.
      destruct s1 as [|c1 s1]; rewrite ?append_nil_l, ?append_cons in Heq.
      * subst s2. apply matches_alt_r.
        apply nullable_matches in H1. rewrite H1. by apply IH2.
      * injection Heq as <- ->. apply matches_alt_l, matches_seq'.
        apply matches_seq; [by apply IH1|done].
  - rewrite matches_alt'. split.
    + intros [Hm|Hm]%matches_alt_inv;
        [apply matches_alt_l, IH1|apply matches_alt_r, IH2]; done.
    + intros [Hm|Hm]%matches_alt_inv;
        [apply matches_alt_l, IH1|apply matches_alt_r, IH2]; done.
  - rewrite matches_seq'. split.
    + intros (s1 & s2 & -> & H1 & H2)%matches_seq_inv.
      apply IH in H1. by apply (matches_star_cons _ (String c s1) s2).
    + intros (s1 & s2 & -> & H1 & H2)%matches_star_inv.
      apply matches_seq; [by apply IH|done].
Qed.

Lemma regexTest_matches r s : regexTest r s = true ↔ matches r s.
Proof.
  revert r. induction s as [|c s IH]; intros r; simpl.
  - apply nullable_matches.
  - rewrite IH. apply deriv_matches.
Qed.

(** * The shape of the addresses the pattern accepts *)

Lemma allChars_app p (s t : string) :
  allChars p (s +:+ t) = allChars p s && allChars p t.
Proof.
  induction s as [|c s IH]; [done|].
  rewrite append_cons. simpl. by rewrite IH, andb_assoc.
Qed.

Lemma allChars_impl (p q : ascii → bool) s :
  (∀ c, p c = true → q c = true) → allChars p s = true → allChars q s = true.
Proof.
  intros Hpq. induction s as [|c s IH]; [done|]. simpl.
  rewrite !andb_true_iff. naive_solver.
Qed.

Lemma length_app_string (s t : string) :
  String.length (s +:+ t) = (String.length s + String.length t)%nat.
Proof. induction s as [|c s IH]; [done|]. rewrite append_cons. simpl. lia. Qed.

Lemma matches_star_class p s :
  matches (Star (Class p)) s → allChars p s = true.
Proof.
  induction s as [|c s IH]; [done|].
  intros (s1 & s2 & -> & H1 & H2)%matches_star_inv.
  apply matches_class_inv in H1 as (c' & [= <- ->] & Hp).
  rewrite append_nil_l. simpl. rewrite Hp. by apply IH.
Qed.

Lemma matches_upto_class n p s :
  matches (UpTo n (Class p)) s →
  (String.length s ≤ n)%nat ∧ allChars p s = true.
Proof.
  revert s. induction n as [|n IH]; intros s; simpl.
  - by intros ->%matches_eps_inv.
  - intros [Hm| ->%matches_eps_inv]%matches_alt_inv; [|simpl; split; [lia|done]].
    apply matches_seq_inv in Hm as (s1 & s2 & -> & H1 & H2).
    apply matches_class_inv in H1 as (c & -> & Hp).
    apply IH in H2 as [Hlen Hall].
    rewrite ?append_cons, ?append_nil_l. simpl. rewrite Hp. split; [lia|done].
Qed.

Lemma alnum_labelChar c : alnum c = true → labelChar c = true.
Proof. unfold labelChar. by intros ->. Qed.

Lemma matches_label s : matches labelRegex s → isLabel s.
Proof.
  unfold labelRegex, Opt.
  intros (s1 & s2 & -> & H1 & H2)%matches_seq_inv.
  apply matches_class_inv in H1 as (c & -> & Hc%alnum_labelChar).
  rewrite ?append_cons, ?append_nil_l.
  apply matches_alt_inv in H2 as [H2| ->%matches_eps_inv].
  - apply matches_seq_inv in H2 as (u & v & -> & Hu & Hv).
    apply matches_upto_class in Hu as [Hlen Hall].
    apply matches_class_inv in Hv as (d & -> & Hd%alnum_labelChar).
    split.
    + simpl. rewrite length_app_string. simpl. lia.
    + simpl. rewrite Hc, allChars_app, Hall. simpl. by rewrite Hd.
  - split; simpl; [lia|by rewrite Hc].
Qed.

Lemma matches_dotted s :
  matches (Star (Seq (Chr ".") labelRegex)) s →
  ∃ labels, s = dotted labels ∧ Forall isLabel labels.
Proof.
  intros Hm. remember (Star (Seq (Chr ".") labelRegex)) as r eqn:Hr.
  induction Hm as [| | | | | |r0 s1 s2 Hm1 _ Hm2 IH]; try discriminate.
  - by exists [].
  - injection Hr as ->. destruct (IH eq_refl) as (labels & -> & Hall).
    apply matches_seq_inv in Hm1 as (d & label & -> & Hd & Hlabel).
    apply matches_class_inv in Hd as (c & -> & Hc).
    apply Ascii.eqb_eq in Hc as <-.
    exists (label :: labels). split.
    + simpl. by rewrite ?append_cons, ?append_nil_l.
    + constructor; [by apply matches_label|done].
Qed.

(** What [emailRegex] accepts: a non-empty local part of allowed
    characters, an at sign, and labels separated by dots. *)
Lemma matches_emailRegex s :
  matches emailRegex s →
  ∃ localPart label labels,
    s = localPart +:+ "@" +:+ label +:+ dotted labels
    ∧ localPart ≠ "" ∧ allChars localChar localPart = true
    ∧ Forall isLabel (label :: labels).
Proof.
  unfold emailRegex, Plus.
  intros (s1 & s2 & -> & H1 & H2)%matches_seq_inv.
  apply matches_seq_inv in H1 as (a & rest & -> & Ha & Hrest).
  apply matches_class_inv in Ha as (c & -> & Hc).
  apply matches_star_class in Hrest.
  apply matches_seq_inv in H2 as (at_ & s3 & -> & Hat & H3).
  apply matches_class_inv in Hat as (c' & -> & Hc').
  apply Ascii.eqb_eq in Hc' as <-.
  apply matches_seq_inv in H3 as (label & s4 & -> & Hlabel & H4).
  apply matches_dotted in H4 as (labels & -> & Hlabels).
  exists (String c rest), label, labels. split_and!.
  - by rewrite ?append_cons, ?append_nil_l.
  - done.
  - simpl. by rewrite Hc, Hrest.
  - constructor; [by apply matches_label|done].
Qed.

(** [split] cuts at the first separator. *)
Lemma split_app_sep sep (s rest : string) :
  allChars (λ c, negb (Ascii.eqb c sep)) s = true →
  split sep (s +:+ String sep rest) = s :: split sep rest.
Proof.
  induction s as [|c s IH]; simpl.
  - intros _. rewrite ?append_nil_l. simpl. by rewrite Ascii.eqb_refl.
  - intros [Hc Hs]%andb_true_iff. rewrite ?append_cons. simpl.
    apply negb_true_iff in Hc. rewrite Hc, IH by done. done.
Qed.

Lemma split_no_sep sep (s : string) :
  allChars (λ c, negb (Ascii.eqb c sep)) s = true → split sep s = [s].
Proof.
  induction s as [|c s IH]; simpl; [done|].
  intros [Hc Hs]%andb_true_iff.
  apply negb_true_iff in Hc. by rewrite Hc, IH.
Qed.

Lemma labelChar_not_dot c :
  labelChar c = true → negb (Ascii.eqb c ".") = true.
Proof.
  intros Hc. destruct (Ascii.eqb_spec c "."%char) as [->|]; [|done].
  by vm_compute in Hc.
Qed.

Lemma labelChar_not_at c :
  labelChar c = true → negb (Ascii.eqb c "@") = true.
Proof.
  intros Hc. destruct (Ascii.eqb_spec c "@"%char) as [->|]; [|done].
  by vm_compute in Hc.
Qed.

Lemma localChar_not_at c :
  localChar c = true → negb (Ascii.eqb c "@") = true.
Proof.
  intros Hc. destruct (Ascii.eqb_spec c "@"%char) as [->|]; [|done].
  by vm_compute in Hc.
Qed.

Lemma split_dotted label labels :
  Forall isLabel (label :: labels) →
  split "." (label +:+ dotted labels) = label :: labels.
Proof.
  revert label. induction labels as [|l labels IH]; intros label Hall.
  - simpl. rewrite ?append_nil_r. apply split_no_sep.
    apply Forall_inv in Hall as [_ Hall].
    eapply allChars_impl; [apply labelChar_not_dot|done].
  - apply Forall_cons in Hall as [[_ Hlabel] Hall].
    simpl. rewrite ?append_cons, ?append_nil_l.
    rewrite split_app_sep
      by (eapply allChars_impl; [apply labelChar_not_dot|done]).
    f_equal. by apply IH.
Qed.

Lemma dotted_no_at labels :
  Forall isLabel labels →
  allChars (λ c, negb (Ascii.eqb c "@")) (dotted labels) = true.
Proof.
  induction 1 as [|l labels [_ Hl] _ IH]; [done|].
  simpl. rewrite ?append_cons, ?append_nil_l. simpl.
  rewrite allChars_app, IH, andb_true_r.
  eapply allChars_impl; [apply labelChar_not_at|done].
Qed.

(** An accepted address splits at its at sign into the local part and the
    domain, and the domain splits at its dots into labels. *)
Lemma isValidRecipient_shape r :
  isValidRecipient r = true →
  ∃ localPart domainPart,
    split "@" (or_empty (emailAddress r)) = [localPart; domainPart]
    ∧ Forall isLabel (split "." domainPart).
Proof.
  unfold isValidRecipient.
  destruct (String.eqb _ ""); [done|].
  destruct (negb (includes _ "@")); [done|].
  destruct (split "@" _) as [|l [|d [|]]] eqn:Hsplit; try done.
  destruct (_ || _); [done|].
  destruct (negb (includes d ".")); [done|].
  destruct (includes _ ".."); [done|].
  intros (localPart & label & labels & Heq & _ & Hlocal & Hlabels)
    %regexTest_matches%matches_emailRegex.
  rewrite Heq in Hsplit.
  change ("@" +:+ label +:+ dotted labels)
    with (String "@" (label +:+ dotted labels)) in Hsplit.
  rewrite split_app_sep in Hsplit
    by (eapply allChars_impl; [apply localChar_not_at|done]).
  rewrite split_no_sep in Hsplit.
  - injection Hsplit as <- <-. eexists _, _. split; [done|].
    by rewrite split_dotted.
  - rewrite allChars_app. apply andb_true_iff. split.
    + apply Forall_inv in Hlabels as [_ Hl].
      eapply allChars_impl; [apply labelChar_not_at|done].
    + apply dotted_no_at. by apply Forall_inv_tail in Hlabels.
Qed.

(** * Validate *)

Lemma or_empty_Some (s : string) : or_empty (Some s) = s.
Proof.
  unfold or_empty, js_or. simpl.
  destruct (String.eqb_spec s ""); simpl; congruence.
Qed.

Lemma elem_of_validateAndFilterRecipients r l :
  r ∈ validateAndFilterRecipients l ↔ isValidRecipient r = true ∧ r ∈ l.
Proof. unfold validateAndFilterRecipients. by rewrite list_elem_of_filter. Qed.

Lemma includes_app_char (s t : string) c :
  includes (s +:+ String c t) (String c "") = true.
Proof.
  induction s as [|a s IH]; rewrite ?append_nil_l, ?append_cons; simpl.
  - destruct (ascii_dec c c); [|done]. by destruct t.
  - rewrite IH. apply orb_true_r.
Qed.

Lemma allChars_repeatString p n (s : string) :
  allChars p s = true → allChars p (repeatString n s) = true.
Proof.
  intros Hs. induction n as [|n IH]; [done|].
  simpl. by rewrite allChars_app, Hs, IH.
Qed.

(** The tests of the callback, for an address already cut at its at sign. *)
Lemma isValidRecipient_intro r (localPart domainPart : string) :
  or_empty (emailAddress r) = localPart +:+ String "@" domainPart →
  localPart ≠ "" → domainPart ≠ "" →
  allChars (λ c, negb (Ascii.eqb c "@")) localPart = true →
  allChars (λ c, negb (Ascii.eqb c "@")) domainPart = true →
  includes domainPart "." = true →
  includes (localPart +:+ String "@" domainPart) ".." = false →
  regexTest emailRegex (localPart +:+ String "@" domainPart) = true →
  isValidRecipient r = true.
Proof.
  intros Hemail Hl Hd Hlocal Hdomain Hdot Hdots Hre.
  unfold isValidRecipient. rewrite Hemail.
  assert (String.eqb (localPart +:+ String "@" domainPart) "" = false) as ->.
  { apply String.eqb_neq. destruct localPart; [done|].
    by rewrite append_cons. }
  rewrite includes_app_char. simpl negb. cbv iota.
  rewrite split_app_sep, split_no_sep by done.
  apply String.eqb_neq in Hl, Hd. rewrite Hl, Hd, Hdot, Hdots. simpl.
  exact Hre.
Qed.

Lemma matches_plus_repeat p c n :
  p c = true →
  matches (Plus (Class p)) (repeatString (S n) (String c "")).
Proof.
  intros Hp. simpl. rewrite ?append_cons, ?append_nil_l.
  apply (matches_seq _ _ (String c "")); [by constructor|].
  induction n as [|n IH]; [constructor|].
  simpl. rewrite ?append_cons, ?append_nil_l.
  apply (matches_star_cons _ (String c "")); [by constructor|done].
Qed.

Lemma includes_dots_repeat_a n (t : string) :
  includes (repeatString n "a" +:+ t) ".." = includes t "..".
Proof.
  induction n as [|n IH]; simpl; rewrite ?append_nil_l, ?append_cons; done.
Qed.

(** No bound on the local part: any number of [a]s is accepted. *)
Lemma isValidRecipient_long_local name n :
  (1 ≤ n)%nat →
  isValidRecipient
    (Recipient name (Some (repeatString n "a" +:+ "@example.com"))) = true.
Proof.
  intros Hn. destruct n as [|n]; [lia|].
  apply (isValidRecipient_intro _ (repeatString (S n) "a") "example.com").
  - simpl. by rewrite or_empty_Some.
  - simpl. by rewrite ?append_cons.
  - done.
  - by apply allChars_repeatString.
  - done.
  - done.
  - by rewrite includes_dots_repeat_a.
  - apply regexTest_matches. unfold emailRegex.
    apply matches_seq; [by apply matches_plus_repeat|].
    apply regexTest_matches. by vm_compute.
Qed.

Lemma matches_star_dotted_b k :
  matches (Star (Seq (Chr ".") labelRegex)) (repeatString k ".b" +:+ ".c").
Proof.
  induction k as [|k IH]; simpl; rewrite ?append_nil_l.
  - apply regexTest_matches. by vm_compute.
  - rewrite append_assoc. apply matches_star_cons; [|done].
    apply regexTest_matches. by vm_compute.
Qed.

Lemma includes_dots_dotted_b k :
  includes (repeatString k ".b" +:+ ".c") ".." = false.
Proof.
  induction k as [|k IH]; [done|].
  simpl. rewrite ?append_cons, ?append_nil_l. simpl.
  rewrite ?append_cons, ?append_nil_l in *. by rewrite IH.
Qed.

(** No bound on the domain part, and a top-level label of one character
    is accepted. *)
Lemma isValidRecipient_long_domain name k :
  isValidRecipient
    (Recipient name (Some ("a@b" +:+ repeatString k ".b" +:+ ".c"))) = true.
Proof.
  apply (isValidRecipient_intro _ "a" ("b" +:+ repeatString k ".b" +:+ ".c")).
  - simpl. by rewrite or_empty_Some.
  - done.
  - by rewrite append_cons.
  - done.
  - rewrite !allChars_app, allChars_repeatString by done. done.
  - rewrite <- (append_assoc "b"). apply includes_app_char.
  - rewrite ?append_cons, ?append_nil_l. simpl.
    rewrite ?append_cons, ?append_nil_l. by rewrite includes_dots_dotted_b.
  - apply regexTest_matches. unfold emailRegex.
    apply (matches_seq _ _ "a"); [apply regexTest_matches; by vm_compute|].
    apply (matches_seq _ _ "@"); [apply regexTest_matches; by vm_compute|].
    apply (matches_seq _ _ "b"); [apply regexTest_matches; by vm_compute|].
    apply matches_star_dotted_b.
Qed.

(** X27.  The validator of the fallback has none of the length limits of
    the library.  It bounds the length of each label of the domain, the
    top-level label included, and nothing else: an address one of whose
    labels is empty or longer than 63 characters is excluded from the
    output, while a local part of any length, a domain part of any length
    and a top-level label of one character are accepted. *)
Theorem validate_bounds_labels_only :
  (∀ r localPart domainPart label l,
     split "@" (or_empty (emailAddress r)) = [localPart; domainPart] →
     label ∈ split "." domainPart →
     (String.length label < 1 ∨ 63 < String.length label)%nat →
     r ∉ validateAndFilterRecipients l)
  ∧ (∀ name n, (1 ≤ n)%nat →
       let r := Recipient name (Some (repeatString n "a" +:+ "@example.com")) in
       validateAndFilterRecipients [r] = [r])
  ∧ (∀ name k,
       let r := Recipient name (Some ("a@b" +:+ repeatString k ".b" +:+ ".c")) in
       validateAndFilterRecipients [r] = [r]).
Proof.
  split_and!.
  - intros r localPart domainPart label l Hsplit Hlabel Hlen
      [Hvalid _]%elem_of_validateAndFilterRecipients.
    apply isValidRecipient_shape in Hvalid as (l' & d' & Hsplit' & Hall).
    rewrite Hsplit in Hsplit'. injection Hsplit' as <- <-.
    rewrite Forall_forall in Hall. destruct (Hall _ Hlabel) as [Hbound _].
    lia.
  - intros name n Hn r. unfold validateAndFilterRecipients.
    rewrite filter_cons_True; [done|]. by apply isValidRecipient_long_local.
  - intros name k r. unfold validateAndFilterRecipients.
    rewrite filter_cons_True; [done|]. by apply isValidRecipient_long_domain.
Qed.

(** C7.  Validate drops a..b@example.com, @example.com and a@example, and
    keeps a@example.com, whatever the display names. *)
Theorem validate_examples n1 n2 n3 n4 :
  isValidRecipient (Recipient n1 (Some "a..b@example.com")) = false
  ∧ isValidRecipient (Recipient n2 (Some "@example.com")) = false
  ∧ isValidRecipient (Recipient n3 (Some "a@example")) = false
  ∧ isValidRecipient (Recipient n4 (Some "a@example.com")) = true
  ∧ validateAndFilterRecipients
      [Recipient n1 (Some "a..b@example.com");
       Recipient n2 (Some "@example.com");
       Recipient n3 (Some "a@example");
       Recipient n4 (Some "a@example.com")]
    = [Recipient n4 (Some "a@example.com")].
Proof.
  assert (H1 : isValidRecipient (Recipient n1 (Some "a..b@example.com")) = false)
    by (by vm_compute).
  assert (H2 : isValidRecipient (Recipient n2 (Some "@example.com")) = false)
    by (by vm_compute).
  assert (H3 : isValidRecipient (Recipient n3 (Some "a@example")) = false)
    by (by vm_compute).
  assert (H4 : isValidRecipient (Recipient n4 (Some "a@example.com")) = true)
    by (by vm_compute).
  split_and!; [done|done|done|done|].
  unfold validateAndFilterRecipients.
  rewrite !filter_cons_False by congruence.
  by rewrite filter_cons_True.
Qed.

(** * Sort *)

Section ArraySort.
Context {A : Type} (compareFn : A → A → Z).
Implicit Types (x : A) (l : list A).

Lemma sortedInsert_Permutation x l : sortedInsert compareFn x l ≡ₚ x :: l.
Proof.
  induction l as [|y l IH]; simpl; [done|].
  destruct (compareFn x y <=? 0)%Z; [done|].
  rewrite IH. apply Permutation_swap.
Qed.

Lemma arraySort_Permutation l : arraySort compareFn l ≡ₚ l.
Proof.
  induction l as [|x l IH]; simpl; [done|].
  by rewrite sortedInsert_Permutation, IH.
Qed.

Lemma ascending_tail x l : ascending compareFn (x :: l) → ascending compareFn l.
Proof. destruct l; simpl; tauto. Qed.

(** A list already in order comes back as it is. *)
Lemma arraySort_ascending_id l :
  ascending compareFn l → arraySort compareFn l = l.
Proof.
  induction l as [|x l IH]; [done|]. intros Hasc.
  simpl. rewrite IH by (by apply ascending_tail in Hasc).
  destruct l as [|y l]; [done|]. simpl in *.
  destruct Hasc as [Hxy _].
  by rewrite (proj2 (Z.leb_le _ _) Hxy).
Qed.

Section Total.
Hypothesis compareFn_total : ∀ x y, (0 < compareFn x y → compareFn y x ≤ 0)%Z.

Lemma sortedInsert_ascending x l :
  ascending compareFn l → ascending compareFn (sortedInsert compareFn x l).
Proof.
  induction l as [|y l IH]; [done|]. intros Hasc. simpl.
  destruct (Z.leb_spec (compareFn x y) 0) as [Hxy|Hxy].
  - by split.
  - specialize (IH (ascending_tail _ _ Hasc)).
    destruct l as [|z l]; simpl in *.
    + split; [by apply compareFn_total|done].
    + destruct Hasc as [Hyz Hasc].
      destruct (compareFn x z <=? 0)%Z.
      * split; [by apply compareFn_total|done].
      * by split.
Qed.

Lemma arraySort_ascending l : ascending compareFn (arraySort compareFn l).
Proof.
  induction l as [|x l IH]; [done|]. simpl. by apply sortedInsert_ascending.
Qed.

Lemma arraySort_idempotent l :
  arraySort compareFn (arraySort compareFn l) = arraySort compareFn l.
Proof. apply arraySort_ascending_id, arraySort_ascending. Qed.

End Total.
End ArraySort.

(** C6.  Sort returns a permutation of its input: the same entries with the
    same multiplicities, hence the same length.  A list already in the
    comparator's order is returned unchanged, and, the comparator being
    total, sorting a sorted result again changes nothing. *)
Theorem sort_permutes_and_is_idempotent {ops : JsStringOps}
    (l : list recipient) :
  sortRecipientsAlphabetically l ≡ₚ l
  ∧ length (sortRecipientsAlphabetically l) = length l
  ∧ (inSortOrder l → sortRecipientsAlphabetically l = l)
  ∧ ((∀ a b, (0 < localeCompare a b → localeCompare b a ≤ 0)%Z) →
     sortRecipientsAlphabetically (sortRecipientsAlphabetically l)
     = sortRecipientsAlphabetically l).
Proof.
  unfold sortRecipientsAlphabetically, inSortOrder. split_and!.
  - apply arraySort_Permutation.
  - by rewrite arraySort_Permutation.
  - apply arraySort_ascending_id.
  - intros Htotal. apply arraySort_idempotent.
    intros x y. apply Htotal.
Qed.

(** * The internal-domain list *)

(** C8 (as amended).  The internal-domain list handed to the processors
    library is the stored list, in its order, without the entries that are
    empty, blank, or equal to the placeholder mydomain.com.  Every other
    entry stays as often as it occurs: repeated domains are not removed. *)
Theorem internal_domains_filter (s : settings)
    (recipients : recipientLists) :
  let stored := default [] (internalDomains s) in
  let handed := payloadInternalDomains (processorRequest s recipients) in
  handed `sublist_of` stored
  ∧ (∀ d, d ∈ handed ↔
          d ∈ stored ∧ d ≠ "" ∧ d ≠ "mydomain.com" ∧ trim d ≠ "")
  ∧ (∀ d, d ≠ "" → d ≠ "mydomain.com" → trim d ≠ "" →
          filter (λ x, x = d) handed = filter (λ x, x = d) stored).
Proof.
  intros stored handed. subst handed. cbn [processorRequest payloadInternalDomains].
  unfold filteredInternalDomains. fold stored.
  assert (Hok : ∀ d, isConfiguredDomain d = true
                     ↔ d ≠ "" ∧ d ≠ "mydomain.com" ∧ trim d ≠ "").
  { intros d. unfold isConfiguredDomain.
    rewrite !andb_true_iff, !negb_true_iff, !String.eqb_neq. tauto. }
  split_and!.
  - apply sublist_filter.
  - intros d. rewrite list_elem_of_filter, Hok. tauto.
  - intros d H1 H2 H3. rewrite list_filter_filter.
    apply list_filter_iff. intros x. split; [tauto|].
    intros ->. split; [done|]. by apply Hok.
Qed.

(** * The run *)

Section Run.
Context {ops : JsStringOps}.

(** X28.  The fallback reads the enabled steps only to ask whether they
    contain its three names, and runs validate, dedupe and sort in that
    fixed order: the order of the names in the settings, their repetition
    and any other name are without effect on its result. *)
Theorem fallback_reads_three_names s s' recipients :
  (∀ name, name ∈ ["validate"; "dedupe"; "sort"] →
           name ∈ enabledSteps s ↔ name ∈ enabledSteps s') →
  fallbackProcessing s recipients = fallbackProcessing s' recipients.
Proof.
  intros Hsame. unfold fallbackProcessing.
  assert (Hv := Hsame "validate"). assert (Hd := Hsame "dedupe").
  assert (Hs := Hsame "sort").
  repeat case_decide; try reflexivity; exfalso; set_solver.
Qed.

End Run.

(** * The claims at concrete inputs *)

Lemma asciiToLowerCase_empty (s : string) : asciiToLowerCase s = "" ↔ s = "".
Proof. by destruct s. Qed.

Lemma codeUnitCompare_total (a b : string) :
  (0 < codeUnitCompare a b → codeUnitCompare b a ≤ 0)%Z.
Proof.
  unfold codeUnitCompare. rewrite (String.compare_antisym b a).
  destruct (String.compare a b); simpl; lia.
Qed.

Lemma dedupe_keeps_first_entry_without_email_witness :
  filter hasNoEmail
    (to (@deduplicateAllRecipients asciiOps
           [addr "a@x.com"] [noAddress "N"; emptyAddress "E"] [noAddress "M"]))
  = take 1 (filter hasNoEmail [addr "a@x.com"])
  ∧ filter hasNoEmail
      (cc (@deduplicateAllRecipients asciiOps
             [addr "a@x.com"] [noAddress "N"; emptyAddress "E"] [noAddress "M"]))
    = [noAddress "N"].
Proof.
  pose proof (@dedupe_keeps_first_entry_without_email asciiOps
                asciiToLowerCase_empty
                [addr "a@x.com"] [noAddress "N"; emptyAddress "E"]
                [noAddress "M"]) as (Hto & Hcc & _).
  split; [exact Hto|exact Hcc].
Defined.

Lemma sort_permutes_and_is_idempotent_witness :
  @sortRecipientsAlphabetically asciiOps sortedThree = sortedThree
  ∧ @sortRecipientsAlphabetically asciiOps
      (@sortRecipientsAlphabetically asciiOps (reverse sortedThree))
    = @sortRecipientsAlphabetically asciiOps (reverse sortedThree).
Proof.
  split.
  - apply (proj1 (proj2 (proj2
      (@sort_permutes_and_is_idempotent asciiOps sortedThree)))).
    vm_compute. repeat split; discriminate.
  - apply (proj2 (proj2 (proj2
      (@sort_permutes_and_is_idempotent asciiOps (reverse sortedThree))))).
    intros a b. apply codeUnitCompare_total.
Defined.

Lemma validate_bounds_labels_only_witness :
  (longLabel ∉ validateAndFilterRecipients [longLabel])
  ∧ validateAndFilterRecipients [addr longLocal] = [addr longLocal].
Proof.
  split.
  - apply (proj1 validate_bounds_labels_only longLabel
             "a" (repeatString 64 "x" +:+ ".com") (repeatString 64 "x")).
    + reflexivity.
    + vm_compute. left.
    + right. vm_compute. lia.
  - apply (proj1 (proj2 validate_bounds_labels_only) (Some "") 65). lia.
Defined.

Lemma internal_domains_filter_witness :
  filter (λ x, x = "corp.com")
    (payloadInternalDomains (processorRequest repeatedDomains twoSpellings))
  = ["corp.com"; "corp.com"].
Proof.
  rewrite (proj2 (proj2
    (internal_domains_filter repeatedDomains twoSpellings)) "corp.com");
    [reflexivity|discriminate..].
Defined.

(** C8, as stated, fails: a domain stored twice is handed over twice. *)
Lemma internal_domains_keep_duplicates :
  payloadInternalDomains (processorRequest repeatedDomains twoSpellings)
  = ["corp.com"; "corp.com"]
  ∧ ¬ NoDup (payloadInternalDomains
               (processorRequest repeatedDomains twoSpellings)).
Proof.
  split; [by vm_compute|].
  intros Hnd. vm_compute in Hnd. apply NoDup_cons in Hnd as [Hnot _].
  apply Hnot. left.
Qed.

(** * Further properties of Dedupe *)

Section DedupeMore.
Context {ops : JsStringOps}.
Implicit Types (seen : gset string) (l t c b : list recipient) (r : recipient).

Lemma filterSeen_app seen l1 l2 :
  filterSeen seen (l1 ++ l2)
  = filterSeen seen l1
    ++ filterSeen (seen ∪ list_to_set (emailsOf l1)) l2.
Proof.
  revert seen. induction l1 as [|a l1 IH]; intros seen.
  - simpl. f_equal. set_solver.
  - change (emailsOf (a :: l1)) with (normalizedEmail a :: emailsOf l1).
    simpl.
    destruct (decide (normalizedEmail a ∈ seen)) as [Hin|Hin].
    + rewrite IH. do 2 f_equal. set_solver.
    + rewrite IH. simpl. do 3 f_equal. set_solver.
Qed.

(** The three lists Dedupe returns, one after the other. *)
Lemma dedupe_fields_concat t c b :
  to (deduplicateAllRecipients t c b)
  ++ cc (deduplicateAllRecipients t c b)
  ++ bcc (deduplicateAllRecipients t c b)
  = filterSeen ∅ (t ++ c ++ b).
Proof.
  rewrite deduplicateAllRecipients_one_pass. cbn [to cc bcc].
  rewrite !filterSeen_app, emailsOf_app_set.
  do 2 f_equal; [f_equal; set_solver|].
  f_equal. set_solver.
Qed.

(** X1.  Dedupe over the three fields is the per-list dedupe of their
    concatenation in priority order, cut back into the fields: the lists
    it returns, joined, are [deduplicateWithinArray] of the inputs joined. *)
Theorem dedupe_is_one_pass_over_fields t c b :
  to (deduplicateAllRecipients t c b)
  ++ cc (deduplicateAllRecipients t c b)
  ++ bcc (deduplicateAllRecipients t c b)
  = deduplicateWithinArray (t ++ c ++ b).
Proof. apply dedupe_fields_concat. Qed.

(** X2.  For every normalized email, the entries of the result that carry
    it are exactly the first entry of the input that carries it, reading
    primary, then copy, then blind-copy: the first occurrence survives and
    no other does. *)
Theorem dedupe_keeps_first_of_each_email (k : string) t c b :
  filter (λ r, normalizedEmail r = k)
    (to (deduplicateAllRecipients t c b)
     ++ cc (deduplicateAllRecipients t c b)
     ++ bcc (deduplicateAllRecipients t c b))
  = take 1 (filter (λ r, normalizedEmail r = k) (t ++ c ++ b)).
Proof.
  rewrite dedupe_fields_concat, filter_email_filterSeen.
  by rewrite decide_False.
Qed.

(** X3.  The result holds no normalized email twice, across all three
    fields; it holds every email of the input; and the number of entries
    left is the number of distinct emails of the input. *)
Theorem dedupe_output_distinct_and_complete t c b :
  let out := to (deduplicateAllRecipients t c b)
             ++ cc (deduplicateAllRecipients t c b)
             ++ bcc (deduplicateAllRecipients t c b) in
  NoDup (emailsOf out)
  ∧ (∀ k, k ∈ emailsOf out ↔ k ∈ emailsOf (t ++ c ++ b))
  ∧ length out = size (list_to_set (emailsOf (t ++ c ++ b)) : gset string).
Proof.
  intros out. subst out. rewrite dedupe_fields_concat.
  pose proof (filterSeen_NoDup ∅ (t ++ c ++ b)) as Hnd.
  pose proof (filterSeen_emails ∅ (t ++ c ++ b)) as Hset.
  split_and!.
  - done.
  - intros k.
    rewrite <- (elem_of_list_to_set (C:=gset string) k (emailsOf (filterSeen _ _))).
    rewrite <- (elem_of_list_to_set (C:=gset string) k (emailsOf (t ++ c ++ b))).
    set_solver.
  - assert (Heq : (list_to_set (emailsOf (t ++ c ++ b)) : gset string)
                  = list_to_set (emailsOf (filterSeen ∅ (t ++ c ++ b))))
      by set_solver.
    rewrite Heq, size_list_to_set by done.
    unfold emailsOf. by rewrite length_fmap.
Qed.

(** Distinct emails: nothing for Dedupe to do. *)
Lemma deduplicateAllRecipients_distinct t c b :
  NoDup (emailsOf (t ++ c ++ b)) →
  deduplicateAllRecipients t c b = {| to := t; cc := c; bcc := b |}.
Proof.
  intros Hnd. rewrite deduplicateAllRecipients_one_pass.
  unfold emailsOf in Hnd. rewrite !fmap_app in Hnd.
  apply NoDup_app in Hnd as (Ht & Htc & Hcb).
  apply NoDup_app in Hcb as (Hc & Hcb & Hb).
  f_equal.
  - apply filterSeen_id; [done|set_solver].
  - apply filterSeen_id; [done|]. intros r Hr.
    rewrite elem_of_list_to_set. intros Hin.
    apply (Htc _ Hin). apply elem_of_app. left.
    by apply list_elem_of_fmap_2.
  - apply filterSeen_id; [done|]. intros r Hr.
    rewrite emailsOf_app_set, elem_of_union, !elem_of_list_to_set.
    intros [Hin|Hin].
    + apply (Htc _ Hin). apply elem_of_app. right.
      by apply list_elem_of_fmap_2.
    + apply (Hcb _ Hin). by apply list_elem_of_fmap_2.
Qed.

Lemma deduplicateAllRecipients_NoDup t c b :
  NoDup (emailsOf (to (deduplicateAllRecipients t c b)
                   ++ cc (deduplicateAllRecipients t c b)
                   ++ bcc (deduplicateAllRecipients t c b))).
Proof. rewrite dedupe_fields_concat. apply filterSeen_NoDup. Qed.

(** X4.  When the normalized emails of the three fields are pairwise
    distinct, Dedupe changes nothing. *)
Theorem dedupe_noop_on_distinct t c b :
  NoDup (emailsOf (t ++ c ++ b)) →
  deduplicateAllRecipients t c b = {| to := t; cc := c; bcc := b |}.
Proof. apply deduplicateAllRecipients_distinct. Qed.

(** X5.  A field is never touched by a field of lower priority: the
    primary list of the result is the per-list dedupe of the primary input
    whatever copy and blind-copy hold, and the copy list of the result
    does not depend on blind-copy. *)
Theorem dedupe_ignores_lower_priority t c b c' b' :
  to (deduplicateAllRecipients t c b) = deduplicateWithinArray t
  ∧ to (deduplicateAllRecipients t c b) = to (deduplicateAllRecipients t c' b')
  ∧ cc (deduplicateAllRecipients t c b) = cc (deduplicateAllRecipients t c b').
Proof. by rewrite !deduplicateAllRecipients_one_pass. Qed.

End DedupeMore.

(** * Further properties of Validate *)

Lemma unsnoc_app_last (s : string) c :
  unsnoc (s +:+ String c "") = Some (s, c).
Proof.
  induction s as [|a s IH]; rewrite ?append_nil_l, ?append_cons; [done|].
  simpl. by rewrite IH.
Qed.

Lemma unsnoc_Some (s init : string) last :
  unsnoc s = Some (init, last) → s = init +:+ String last "".
Proof.
  revert init. induction s as [|a s IH]; intros init; [done|]. simpl.
  destruct (unsnoc s) as [[i l]|] eqn:Hs.
  - intros [= <- <-]. rewrite append_cons. f_equal. by apply IH.
  - intros [= <- <-]. destruct s; [done|]. simpl in Hs.
    by destruct (unsnoc s) as [[??]|].
Qed.

Lemma unsnoc_None (s : string) : unsnoc s = None → s = "".
Proof. destruct s; [done|]. simpl. by destruct (unsnoc s) as [[??]|]. Qed.

Lemma matches_upto_intro p n (s : string) :
  allChars p s = true → (String.length s ≤ n)%nat →
  matches (UpTo n (Class p)) s.
Proof.
  revert s. induction n as [|n IH]; intros s Hall Hlen.
  - destruct s; [constructor|simpl in Hlen; lia].
  - simpl. destruct s as [|c s]; [apply matches_alt_r; constructor|].
    simpl in Hall, Hlen. apply andb_true_iff in Hall as [Hc Hs].
    apply matches_alt_l.
    apply (matches_seq _ _ (String c "") s); [by constructor|].
    apply IH; [done|lia].
Qed.

Lemma matches_plus_class p (s : string) :
  s ≠ "" → allChars p s = true → matches (Plus (Class p)) s.
Proof.
  intros Hne Hall. destruct s as [|c s]; [done|].
  simpl in Hall. apply andb_true_iff in Hall as [Hc Hs].
  apply (matches_seq _ _ (String c "") s); [by constructor|].
  clear Hne Hc. induction s as [|a s IH]; [constructor|].
  simpl in Hs. apply andb_true_iff in Hs as [Ha Hs].
  apply (matches_star_cons _ (String a "") s); [by constructor|by apply IH].
Qed.

Lemma isHostLabel_matches (s : string) :
  isHostLabel s = true ↔ matches labelRegex s.
Proof.
  split.
  - destruct s as [|c rest]; [done|]. unfold isHostLabel.
    intros [[Hc Hrest]%andb_true_iff Hlen%Nat.leb_le]%andb_true_iff.
    apply (matches_seq _ _ (String c "") rest); [by constructor|].
    destruct (unsnoc rest) as [[middle last]|] eqn:Hun.
    + apply unsnoc_Some in Hun as ->.
      apply andb_true_iff in Hrest as [Hmid Hlast].
      apply matches_alt_l, matches_seq; [|by constructor].
      apply matches_upto_intro; [done|].
      simpl in Hlen. rewrite length_app_string in Hlen. simpl in Hlen. lia.
    + apply unsnoc_None in Hun as ->. apply matches_alt_r. constructor.
  - unfold labelRegex, Opt.
    intros (s1 & s2 & -> & H1 & H2)%matches_seq_inv.
    apply matches_class_inv in H1 as (c & -> & Hc).
    rewrite ?append_cons, ?append_nil_l. unfold isHostLabel. rewrite Hc.
    apply matches_alt_inv in H2 as [H2| ->%matches_eps_inv]; [|done].
    apply matches_seq_inv in H2 as (u & v & -> & Hu & Hv).
    apply matches_upto_class in Hu as [Hlen Hall].
    apply matches_class_inv in Hv as (d & -> & Hd).
    rewrite unsnoc_app_last, Hall, Hd. simpl.
    apply Nat.leb_le. rewrite length_app_string. simpl. lia.
Qed.

Lemma isHostLabel_isLabel (s : string) : isHostLabel s = true → isLabel s.
Proof. intros H%isHostLabel_matches. by apply matches_label. Qed.

Lemma matches_dotted_host (s : string) :
  matches (Star (Seq (Chr ".") labelRegex)) s ↔
  ∃ labels, s = dotted labels ∧ Forall (λ l, isHostLabel l = true) labels.
Proof.
  split.
  - intros Hm. remember (Star (Seq (Chr ".") labelRegex)) as r eqn:Hr.
    induction Hm as [| | | | | |r0 s1 s2 Hm1 _ Hm2 IH]; try discriminate.
    + by exists [].
    + injection Hr as ->. destruct (IH eq_refl) as (labels & -> & Hall).
      apply matches_seq_inv in Hm1 as (d & label & -> & Hd & Hlabel).
      apply matches_class_inv in Hd as (c & -> & Hc).
      apply Ascii.eqb_eq in Hc as <-.
      exists (label :: labels). split.
      * simpl. by rewrite ?append_cons, ?append_nil_l.
      * constructor; [by apply isHostLabel_matches|done].
  - intros (labels & -> & Hall).
    induction Hall as [|label labels Hlabel _ IH]; [constructor|].
    simpl. rewrite <- append_assoc. apply matches_star_cons; [|done].
    apply (matches_seq _ _ "." label);
      [by constructor|by apply isHostLabel_matches].
Qed.

Lemma includes_cons a (s n : string) :
  includes (String a s) n = String.prefix n (String a s) || includes s n.
Proof. reflexivity. Qed.

Lemma prefix_dots_cons a (s : string) :
  String.prefix ".." (String a s)
  = Ascii.eqb a "."
    && match s with
       | EmptyString => false
       | String b _ => Ascii.eqb b "."
       end.
Proof.
  change (String.prefix ".." (String a s))
    with (if ascii_dec "." a then String.prefix "." s else false).
  destruct (ascii_dec "." a) as [<-|Hna].
  - rewrite Ascii.eqb_refl. destruct s as [|b s]; [done|].
    change (String.prefix "." (String b s))
      with (if ascii_dec "." b then String.prefix "" s else false).
    destruct (ascii_dec "." b) as [<-|Hnb].
    + rewrite Ascii.eqb_refl. by destruct s.
    + symmetry. apply andb_false_iff. right. apply Ascii.eqb_neq. congruence.
  - symmetry. apply andb_false_iff. left. apply Ascii.eqb_neq. congruence.
Qed.

(** Two dots in a row cannot straddle a character that is not a dot. *)
Lemma includes_dots_app (s t : string) c :
  c ≠ "."%char →
  includes (s +:+ String c t) ".."
  = includes s ".." || includes (String c t) "..".
Proof.
  intros Hc%Ascii.eqb_neq. induction s as [|a s IH]; [done|].
  rewrite append_cons, !includes_cons, IH, orb_assoc. f_equal. f_equal.
  rewrite !prefix_dots_cons. f_equal.
  destruct s as [|b s]; rewrite ?append_nil_l, ?append_cons; done.
Qed.

Lemma includes_dots_no_dot (s t : string) :
  allChars (λ c, negb (Ascii.eqb c ".")) s = true →
  includes (s +:+ t) ".." = includes t "..".
Proof.
  induction s as [|a s IH]; [done|].
  intros [Ha%negb_true_iff Hs]%andb_true_iff.
  rewrite append_cons, includes_cons, IH by done.
  by rewrite prefix_dots_cons, Ha.
Qed.

Lemma includes_dots_dotted labels :
  Forall isLabel labels → includes (dotted labels) ".." = false.
Proof.
  induction 1 as [|l labels [[Hlen _] Hl] _ IH]; [done|].
  change (dotted (l :: labels)) with (String "." (l +:+ dotted labels)).
  rewrite includes_cons, includes_dots_no_dot
    by (eapply allChars_impl; [apply labelChar_not_dot|done]).
  rewrite IH, orb_false_r, prefix_dots_cons.
  destruct l as [|a l]; [simpl in Hlen; lia|].
  rewrite append_cons.
  change (allChars labelChar (String a l))
    with (labelChar a && allChars labelChar l) in Hl.
  apply andb_true_iff in Hl as [Ha _].
  apply labelChar_not_dot, negb_true_iff in Ha. by rewrite Ha.
Qed.

Lemma includes_dot_no_dot (s : string) :
  allChars (λ c, negb (Ascii.eqb c ".")) s = true → includes s "." = false.
Proof.
  induction s as [|a s IH]; [done|].
  intros [Ha%negb_true_iff%Ascii.eqb_neq Hs]%andb_true_iff.
  rewrite includes_cons, IH by done.
  change (String.prefix "." (String a s))
    with (if ascii_dec "." a then String.prefix "" s else false).
  by destruct (ascii_dec "." a); [congruence|].
Qed.

Lemma includes_app_false_l (s t n : string) :
  includes (s +:+ t) n = false → includes s n = false.
Proof.
  induction s as [|a s IH].
  - rewrite append_nil_l. destruct n as [|b n]; [by destruct t|done].
  - rewrite append_cons.
    change (includes (String a (s +:+ t)) n)
      with (String.prefix n (String a (s +:+ t)) || includes (s +:+ t) n).
    change (includes (String a s) n)
      with (String.prefix n (String a s) || includes s n).
    intros [Hp Hi]%orb_false_iff. rewrite IH, orb_false_r by done.
    clear IH Hi. revert a s Hp.
    induction n as [|b n IHn]; intros a s Hp; [done|]. simpl in *.
    destruct (ascii_dec b a); [|done].
    destruct s as [|a' s].
    + destruct n; [|done]. rewrite append_nil_l in Hp. by destruct t.
    + rewrite append_cons in Hp. by apply IHn.
Qed.

Lemma isValidRecipient_form (r : recipient) :
  isValidRecipient r = true →
  ∃ localPart label labels,
    or_empty (emailAddress r) = localPart +:+ "@" +:+ label +:+ dotted labels
    ∧ localPart ≠ ""
    ∧ allChars localChar localPart = true
    ∧ includes localPart ".." = false
    ∧ labels ≠ []
    ∧ Forall (λ l, isHostLabel l = true) (label :: labels).
Proof.
  unfold isValidRecipient.
  destruct (String.eqb _ ""); [done|].
  destruct (negb (includes _ "@")); [done|].
  destruct (split "@" _) as [|l [|d [|]]] eqn:Hsplit; try done.
  destruct (_ || _); [done|].
  destruct (includes d ".") eqn:Hdot; [|done].
  destruct (includes _ "..") eqn:Hdots; [done|]. simpl.
  intros Hre%regexTest_matches. unfold emailRegex in Hre.
  apply matches_seq_inv in Hre as (localPart & s2 & Heq & H1 & H2).
  apply matches_seq_inv in H1 as (a & rest & -> & Ha & Hrest).
  apply matches_class_inv in Ha as (c & -> & Hc).
  apply matches_star_class in Hrest.
  apply matches_seq_inv in H2 as (at_ & s3 & -> & Hat & H3).
  apply matches_class_inv in Hat as (c' & -> & Hc').
  apply Ascii.eqb_eq in Hc' as <-.
  apply matches_seq_inv in H3 as (label & s4 & -> & Hlabel & H4).
  apply isHostLabel_matches in Hlabel.
  apply matches_dotted_host in H4 as (labels & -> & Hlabels).
  rewrite ?append_cons, ?append_nil_l in Heq.
  assert (Hall : Forall isLabel (label :: labels)).
  { constructor; [by apply isHostLabel_isLabel|].
    eapply Forall_impl; [done|]. apply isHostLabel_isLabel. }
  assert (Hlocal : allChars localChar (String c rest) = true)
    by (simpl; by rewrite Hc, Hrest).
  exists (String c rest), label, labels.
  rewrite Heq in Hsplit, Hdots |- *.
  change (String c (rest +:+ String "@" (label +:+ dotted labels)))
    with (String c rest +:+ String "@" (label +:+ dotted labels))
    in Hsplit, Hdots |- *.
  rewrite split_app_sep in Hsplit
    by (eapply allChars_impl; [apply localChar_not_at|done]).
  rewrite split_no_sep in Hsplit.
  2:{ rewrite allChars_app. apply andb_true_iff. split.
      - apply Forall_inv in Hall as [_ Hl].
        eapply allChars_impl; [apply labelChar_not_at|done].
      - apply dotted_no_at. by apply Forall_inv_tail in Hall. }
  injection Hsplit as <- <-.
  split_and!; try done.
  + by apply includes_app_false_l in Hdots.
  + intros ->. simpl in Hdot. rewrite append_nil_r in Hdot.
    rewrite includes_dot_no_dot in Hdot; [done|].
    apply Forall_inv in Hall as [_ Hl].
    eapply allChars_impl; [apply labelChar_not_dot|done].
  + by constructor.
Qed.

Lemma isValidRecipient_of_form (r : recipient) :
  (
  ∃ localPart label labels,
    or_empty (emailAddress r) = localPart +:+ "@" +:+ label +:+ dotted labels
    ∧ localPart ≠ ""
    ∧ allChars localChar localPart = true
    ∧ includes localPart ".." = false
    ∧ labels ≠ []
    ∧ Forall (λ l, isHostLabel l = true) (label :: labels)) →
  isValidRecipient r = true.
Proof.
  intros (localPart & label & labels & Heq & Hne & Hlocal & Hdots
          & Hlabels & Hhost).
  assert (Hall : Forall isLabel (label :: labels)).
  { eapply Forall_impl; [done|]. apply isHostLabel_isLabel. }
  change ("@" +:+ label +:+ dotted labels)
    with (String "@" (label +:+ dotted labels)) in Heq.
  apply (isValidRecipient_intro r localPart (label +:+ dotted labels));
    try done.
  + apply Forall_inv in Hall as [[Hlen _] _].
    destruct label; [simpl in Hlen; lia|]. by rewrite append_cons.
  + eapply allChars_impl; [apply localChar_not_at|done].
  + rewrite allChars_app. apply andb_true_iff. split.
    * apply Forall_inv in Hall as [_ Hl].
      eapply allChars_impl; [apply labelChar_not_at|done].
    * apply dotted_no_at. by apply Forall_inv_tail in Hall.
  + destruct labels as [|l labels]; [done|]. simpl.
    rewrite ?append_cons, ?append_nil_l. apply includes_app_char.
  + rewrite includes_dots_app, Hdots by done. simpl.
    rewrite includes_dots_no_dot.
    * apply includes_dots_dotted. by apply Forall_inv_tail in Hall.
    * apply Forall_inv in Hall as [_ Hl].
      eapply allChars_impl; [apply labelChar_not_dot|done].
  + apply regexTest_matches. unfold emailRegex.
    apply matches_seq; [by apply matches_plus_class|].
    apply (matches_seq _ _ "@"); [by constructor|].
    apply matches_seq.
    * apply isHostLabel_matches. by apply Forall_inv in Hhost.
    * apply matches_dotted_host. exists labels. split; [done|].
      by apply Forall_inv_tail in Hhost.
Qed.

(** X6.  Validate keeps exactly the entries whose email reads
    local@label.label...: a non-empty local part made of the characters
    the pattern lists, without two dots in a row; then at least two labels
    separated by single dots, each of 1 to 63 letters, digits or hyphens
    and neither starting nor ending with a hyphen.  The display name plays
    no part. *)
Theorem validate_accepts_exactly (r : recipient) :
  isValidRecipient r = true ↔
  ∃ localPart label labels,
    or_empty (emailAddress r) = localPart +:+ "@" +:+ label +:+ dotted labels
    ∧ localPart ≠ ""
    ∧ allChars localChar localPart = true
    ∧ includes localPart ".." = false
    ∧ labels ≠ []
    ∧ Forall (λ l, isHostLabel l = true) (label :: labels).
Proof.
  split; [apply isValidRecipient_form|apply isValidRecipient_of_form].
Qed.

(** X7.  Validate is idempotent, and what it keeps from a list does not
    depend on the neighbours: it distributes over concatenation. *)
Theorem validate_idempotent_and_local (l1 l2 : list recipient) :
  validateAndFilterRecipients (validateAndFilterRecipients l1)
  = validateAndFilterRecipients l1
  ∧ validateAndFilterRecipients (l1 ++ l2)
    = validateAndFilterRecipients l1 ++ validateAndFilterRecipients l2.
Proof.
  unfold validateAndFilterRecipients. split; [|apply filter_app].
  rewrite list_filter_filter. apply list_filter_iff. tauto.
Qed.

(** * Further properties of Sort *)

Section ArraySortMore.
Context {A : Type} (compareFn : A → A → Z).
Implicit Types (x : A) (l : list A).

Lemma ascending_Sorted l :
  ascending compareFn l → Sorted (λ a b, (compareFn a b ≤ 0)%Z) l.
Proof.
  induction l as [|x l IH]; [constructor|]. intros Hasc.
  constructor; [by apply IH, (ascending_tail _ x)|].
  destruct l as [|y l]; constructor. by destruct Hasc.
Qed.

(** An element that comes before everything in a list is put in front. *)
Lemma sortedInsert_front x l :
  Forall (λ y, (compareFn x y ≤ 0)%Z) l → sortedInsert compareFn x l = x :: l.
Proof.
  destruct l as [|y l]; [done|]. intros [Hxy _]%Forall_cons. simpl.
  by rewrite (proj2 (Z.leb_le _ _) Hxy).
Qed.

(** Inserting keeps the order of the entries that share a key, when a key
    does not compare after itself. *)
Lemma sortedInsert_filter_key {K} `{EqDecision K} (key : A → K) (k : K) x l :
  (∀ y, key y = key x → (compareFn x y ≤ 0)%Z) →
  filter (λ y, key y = k) (sortedInsert compareFn x l)
  = filter (λ y, key y = k) (x :: l).
Proof.
  intros Hrefl. induction l as [|y l IH]; [done|]. simpl.
  destruct (Z.leb_spec (compareFn x y) 0) as [Hxy|Hxy]; [done|].
  assert (key y ≠ key x) by (intros Heq; specialize (Hrefl y Heq); lia).
  rewrite (filter_cons _ y), IH, !(filter_cons _ x), (filter_cons _ y).
  repeat case_decide; congruence.
Qed.

Section Order.
Hypothesis compareFn_total : ∀ x y, (0 < compareFn x y → compareFn y x ≤ 0)%Z.
Hypothesis compareFn_trans :
  ∀ x y z, (compareFn x y ≤ 0 → compareFn y z ≤ 0 → compareFn x z ≤ 0)%Z.

Lemma arraySort_StronglySorted l :
  StronglySorted (λ a b, (compareFn a b ≤ 0)%Z) (arraySort compareFn l).
Proof.
  apply Sorted_StronglySorted.
  - intros x y z. apply compareFn_trans.
  - apply ascending_Sorted, arraySort_ascending, compareFn_total.
Qed.

Lemma sortedInsert_filter (P : A → Prop) `{∀ x, Decision (P x)} x l :
  StronglySorted (λ a b, (compareFn a b ≤ 0)%Z) l →
  filter P (sortedInsert compareFn x l)
  = if decide (P x) then sortedInsert compareFn x (filter P l)
    else filter P l.
Proof.
  induction 1 as [|y l Hsorted IH Hy]; simpl.
  - rewrite filter_cons, filter_nil. by case_decide.
  - destruct (Z.leb_spec (compareFn x y) 0) as [Hxy|Hxy].
    + rewrite (filter_cons _ x). case_decide; [|done].
      symmetry. apply sortedInsert_front.
      apply Forall_forall. intros z [_ Hz]%list_elem_of_filter.
      apply elem_of_cons in Hz as [->|Hz]; [done|].
      rewrite Forall_forall in Hy. eapply compareFn_trans; [done|].
      by apply Hy.
    + rewrite (filter_cons _ y), IH, (filter_cons _ y).
      destruct (decide (P x)), (decide (P y)); simpl; try done.
      by rewrite (proj2 (Z.leb_gt _ _) Hxy).
Qed.

Lemma arraySort_filter (P : A → Prop) `{∀ x, Decision (P x)} l :
  filter P (arraySort compareFn l) = arraySort compareFn (filter P l).
Proof.
  induction l as [|x l IH]; [done|]. simpl.
  rewrite sortedInsert_filter by apply arraySort_StronglySorted.
  rewrite filter_cons, IH. by case_decide.
Qed.

End Order.
End ArraySortMore.

Section SortMore.
Context {ops : JsStringOps}.

(** X8.  When [localeCompare] is a total preorder, Sort returns the entries
    in ascending order of their lower-cased name (the display name, or the
    email when there is none): no entry comes after any later one. *)
Theorem sort_result_in_order (l : list recipient) :
  (∀ a b, (0 < localeCompare a b → localeCompare b a ≤ 0)%Z) →
  (∀ a b c, (localeCompare a b ≤ 0 → localeCompare b c ≤ 0 →
             localeCompare a c ≤ 0)%Z) →
  StronglySorted (λ a b, (compareRecipients a b ≤ 0)%Z)
    (sortRecipientsAlphabetically l).
Proof.
  intros Htotal Htrans. apply arraySort_StronglySorted.
  - intros x y. apply Htotal.
  - intros x y z. apply Htrans.
Qed.

(** X9.  Sort is stable: when a name does not compare after itself, the
    entries that share a lower-cased name come out in the order they came
    in. *)
Theorem sort_is_stable (k : string) (l : list recipient) :
  (∀ s, (localeCompare s s ≤ 0)%Z) →
  filter (λ r, sortName r = k) (sortRecipientsAlphabetically l)
  = filter (λ r, sortName r = k) l.
Proof.
  intros Hrefl. unfold sortRecipientsAlphabetically.
  induction l as [|x l IH]; [done|]. simpl.
  rewrite sortedInsert_filter_key.
  - rewrite !(filter_cons _ x), IH. done.
  - intros y Hy. unfold compareRecipients. rewrite Hy. apply Hrefl.
Qed.

(** X10.  Validate and Sort commute when [localeCompare] is a total
    preorder: dropping the invalid entries of a sorted list gives the
    sorted list of the valid entries. *)
Theorem validate_sort_commute (l : list recipient) :
  (∀ a b, (0 < localeCompare a b → localeCompare b a ≤ 0)%Z) →
  (∀ a b c, (localeCompare a b ≤ 0 → localeCompare b c ≤ 0 →
             localeCompare a c ≤ 0)%Z) →
  validateAndFilterRecipients (sortRecipientsAlphabetically l)
  = sortRecipientsAlphabetically (validateAndFilterRecipients l).
Proof.
  intros Htotal Htrans.
  unfold validateAndFilterRecipients, sortRecipientsAlphabetically.
  apply arraySort_filter.
  - intros x y. apply Htotal.
  - intros x y z. apply Htrans.
Qed.

End SortMore.

Lemma codeUnitCompare_trans (a b c : string) :
  (codeUnitCompare a b ≤ 0 → codeUnitCompare b c ≤ 0 →
   codeUnitCompare a c ≤ 0)%Z.
Proof.
  assert (Hle : ∀ x y, (codeUnitCompare x y ≤ 0)%Z ↔ String.compare x y ≠ Gt).
  { intros x y. unfold codeUnitCompare.
    destruct (String.compare x y); split; (done || lia). }
  rewrite !Hle. clear Hle. revert b c.
  induction a as [|x a IH]; intros [|y b] [|z c]; simpl; try done.
  unfold Ascii.compare.
  destruct (N.compare_spec (N_of_ascii x) (N_of_ascii y)),
           (N.compare_spec (N_of_ascii y) (N_of_ascii z)),
           (N.compare_spec (N_of_ascii x) (N_of_ascii z));
    try done; try lia.
  apply IH.
Qed.

Lemma codeUnitCompare_refl (s : string) : (codeUnitCompare s s ≤ 0)%Z.
Proof.
  pose proof (codeUnitCompare_total s s). lia.
Qed.

(** * The fallback pipeline *)

Section FallbackMore.
Context {ops : JsStringOps}.
Implicit Types (st : recipientLists) (s : settings).

(** The fallback as its three optional steps. *)
Lemma fallbackProcessing_steps s st :
  fallbackProcessing s st
  = (if decide ("sort" ∈ enabledSteps s) then sortStep else id)
      ((if decide ("dedupe" ∈ enabledSteps s) then dedupeStep else id)
         ((if decide ("validate" ∈ enabledSteps s) then validateStep else id)
            st)).
Proof.
  unfold fallbackProcessing. destruct st.
  repeat case_decide; reflexivity.
Qed.

Lemma fieldsWithin_trans st1 st2 st3 :
  fieldsWithin st1 st2 → fieldsWithin st2 st3 → fieldsWithin st1 st3.
Proof.
  intros (?&?&?) (?&?&?). split_and!; by etrans.
Qed.

Lemma validateStep_within st : fieldsWithin (validateStep st) st.
Proof.
  split_and!; apply sublist_submseteq, validateAndFilterRecipients_sublist.
Qed.

Lemma dedupeStep_within st : fieldsWithin (dedupeStep st) st.
Proof.
  unfold dedupeStep. rewrite deduplicateAllRecipients_one_pass.
  split_and!; apply sublist_submseteq, filterSeen_sublist.
Qed.

Lemma sortStep_within st : fieldsWithin (sortStep st) st.
Proof.
  split_and!; apply Permutation_submseteq, arraySort_Permutation.
Qed.

Lemma fieldsWithin_concat st1 st2 :
  fieldsWithin st1 st2 →
  to st1 ++ cc st1 ++ bcc st1 ⊆+ to st2 ++ cc st2 ++ bcc st2.
Proof.
  intros (?&?&?). repeat apply submseteq_app; done.
Qed.

Lemma allValid_within st1 st2 :
  fieldsWithin st1 st2 → allValid st2 → allValid st1.
Proof.
  intros Hin%fieldsWithin_concat Hvalid. unfold allValid in *.
  rewrite Forall_forall in *. intros r Hr. apply Hvalid.
  by eapply elem_of_submseteq.
Qed.

Lemma validateStep_allValid st : allValid (validateStep st).
Proof.
  unfold allValid, validateStep. cbn [to cc bcc].
  rewrite !Forall_app. split_and!; apply Forall_forall; intros r;
    by intros [? _]%elem_of_validateAndFilterRecipients.
Qed.

Lemma validateStep_id st : allValid st → validateStep st = st.
Proof.
  unfold allValid. rewrite !Forall_app. intros (Ht & Hc & Hb).
  assert (Hid : ∀ l, Forall (λ r, isValidRecipient r = true) l →
                     validateAndFilterRecipients l = l).
  { intros l Hl. unfold validateAndFilterRecipients.
    induction Hl as [|r l Hr _ IH]; [done|].
    by rewrite filter_cons_True, IH. }
  destruct st as [t c b]. unfold validateStep. cbn [to cc bcc] in *.
  by rewrite !Hid.
Qed.

Lemma dedupeStep_allDistinct st : allDistinct (dedupeStep st).
Proof. apply deduplicateAllRecipients_NoDup. Qed.

Lemma dedupeStep_id st : allDistinct st → dedupeStep st = st.
Proof.
  intros Hnd. destruct st as [t c b]. unfold dedupeStep. cbn [to cc bcc].
  by apply deduplicateAllRecipients_distinct.
Qed.

Lemma sortStep_allDistinct st : allDistinct st → allDistinct (sortStep st).
Proof.
  unfold allDistinct, sortStep, sortRecipientsAlphabetically, emailsOf.
  cbn [to cc bcc]. intros Hnd.
  eapply NoDup_Permutation_proper; [|exact Hnd].
  by rewrite !arraySort_Permutation.
Qed.

Lemma sortStep_id st : allInOrder st → sortStep st = st.
Proof.
  intros (Ht & Hc & Hb). destruct st as [t c b].
  unfold sortStep, sortRecipientsAlphabetically. cbn [to cc bcc] in *.
  by rewrite !arraySort_ascending_id.
Qed.

Lemma sortStep_allInOrder st :
  (∀ a b, (0 < localeCompare a b → localeCompare b a ≤ 0)%Z) →
  allInOrder (sortStep st).
Proof.
  intros Htotal. unfold allInOrder, sortStep, inSortOrder,
    sortRecipientsAlphabetically. cbn [to cc bcc].
  split_and!; apply arraySort_ascending; intros x y; apply Htotal.
Qed.

(** X11.  The fallback never adds an entry and never moves one to another
    field: whatever the settings, each field of its result holds only
    entries of the same field of its input, none more often than there. *)
Theorem fallback_never_adds s st :
  to (fallbackProcessing s st) ⊆+ to st
  ∧ cc (fallbackProcessing s st) ⊆+ cc st
  ∧ bcc (fallbackProcessing s st) ⊆+ bcc st.
Proof.
  change (fieldsWithin (fallbackProcessing s st) st).
  rewrite fallbackProcessing_steps.
  repeat case_decide; unfold id;
    repeat (first [ done
                  | eapply fieldsWithin_trans; [apply sortStep_within|]
                  | eapply fieldsWithin_trans; [apply dedupeStep_within|]
                  | apply validateStep_within
                  | split_and!; done ]).
Qed.

(** X12.  With validate enabled, every entry the fallback returns is one
    that Validate accepts, whichever other steps run. *)
Theorem fallback_result_valid s st :
  "validate" ∈ enabledSteps s →
  Forall (λ r, isValidRecipient r = true)
    (to (fallbackProcessing s st) ++ cc (fallbackProcessing s st)
     ++ bcc (fallbackProcessing s st)).
Proof.
  intros Hv. change (allValid (fallbackProcessing s st)).
  rewrite fallbackProcessing_steps, (decide_True _ _ Hv).
  repeat case_decide; unfold id;
    repeat (first [ apply validateStep_allValid
                  | eapply allValid_within; [apply sortStep_within|]
                  | eapply allValid_within; [apply dedupeStep_within|] ]).
Qed.

(** X13.  With dedupe enabled, no normalized email occurs twice in what the
    fallback returns, across the three fields, sorted or not. *)
Theorem fallback_result_distinct s st :
  "dedupe" ∈ enabledSteps s →
  NoDup (emailsOf (to (fallbackProcessing s st) ++ cc (fallbackProcessing s st)
                   ++ bcc (fallbackProcessing s st))).
Proof.
  intros Hd. change (allDistinct (fallbackProcessing s st)).
  rewrite fallbackProcessing_steps, (decide_True _ _ Hd).
  repeat case_decide; unfold id;
    first [ apply sortStep_allDistinct, dedupeStep_allDistinct
          | apply dedupeStep_allDistinct ].
Qed.

(** X14.  Running the fallback on its own result changes nothing, when
    [localeCompare] never puts each of two names after the other. *)
Theorem fallback_idempotent s st :
  (∀ a b, (0 < localeCompare a b → localeCompare b a ≤ 0)%Z) →
  fallbackProcessing s (fallbackProcessing s st) = fallbackProcessing s st.
Proof.
  intros Htotal.
  rewrite (fallbackProcessing_steps s (fallbackProcessing s st)).
  rewrite (fallbackProcessing_steps s st).
  set (v := if decide ("validate" ∈ enabledSteps s) then validateStep else id).
  set (d := if decide ("dedupe" ∈ enabledSteps s) then dedupeStep else id).
  set (o := if decide ("sort" ∈ enabledSteps s) then sortStep else id).
  assert (Hv : v (o (d (v st))) = o (d (v st))).
  { subst v. case_decide; [|done]. apply validateStep_id.
    eapply allValid_within; [|apply validateStep_allValid].
    subst o d. repeat case_decide; unfold id;
      repeat (first [ split_and!; done
                    | eapply fieldsWithin_trans; [apply sortStep_within|]
                    | apply dedupeStep_within
                    | apply sortStep_within ]). }
  assert (Hd : d (o (d (v st))) = o (d (v st))).
  { subst d. case_decide; [|done]. apply dedupeStep_id.
    subst o. case_decide; unfold id;
      first [ apply sortStep_allDistinct, dedupeStep_allDistinct
            | apply dedupeStep_allDistinct ]. }
  assert (Ho : o (o (d (v st))) = o (d (v st))).
  { subst o. case_decide; [|done]. by apply sortStep_id, sortStep_allInOrder. }
  by rewrite Hv, Hd, Ho.
Qed.

End FallbackMore.

(** * Further properties of the run *)

Section RunMore.
Context {ops : JsStringOps}.

Lemma updateAllRecipients_cases h t c b :
  updateAllRecipients h t c b
  = if toSetAsync h t then
      if ccSetAsync h c then
        if bccSetAsync h b
        then ([SetAsync To t; SetAsync Cc c; SetAsync Bcc b], inr tt)
        else ([SetAsync To t; SetAsync Cc c; SetAsync Bcc b],
              inl (JsError "Failed to update BCC recipients"))
      else ([SetAsync To t; SetAsync Cc c],
            inl (JsError "Failed to update CC recipients"))
    else ([SetAsync To t], inl (JsError "Failed to update To recipients")).
Proof.
  unfold updateAllRecipients, bind, emit, throw, ret.
  by destruct (toSetAsync h t), (ccSetAsync h c), (bccSetAsync h b).
Qed.

Lemma getAllRecipients_cases h :
  getAllRecipients h
  = if succeeded (toGetAsync h) && succeeded (ccGetAsync h)
       && succeeded (bccGetAsync h)
    then ([], inr {| to := default [] (value (toGetAsync h));
                     cc := default [] (value (ccGetAsync h));
                     bcc := default [] (value (bccGetAsync h)) |})
    else ([], inl (JsError
                     (if negb (succeeded (toGetAsync h))
                      then "Failed to get To recipients"
                      else if negb (succeeded (ccGetAsync h))
                      then "Failed to get CC recipients"
                      else "Failed to get BCC recipients"))).
Proof.
  unfold getAllRecipients, throw, ret.
  by destruct (succeeded (toGetAsync h)), (succeeded (ccGetAsync h)),
       (succeeded (bccGetAsync h)).
Qed.

(** Every run is of one of two kinds. *)
Lemma quickClean_cases h :
  quickClean h = faultTrace
  ∨ ∃ reads t c b,
      getAllRecipients h = ([], inr reads)
      ∧ planned h reads t c b
      ∧ quickClean h
        = if toSetAsync h t && ccSetAsync h c && bccSetAsync h b
          then [SetAsync To t; SetAsync Cc c; SetAsync Bcc b;
                ReplaceNotification InformationalMessage
                  (successMessage (length (to reads) + length (cc reads)
                                   + length (bcc reads)));
                RemoveNotificationAfter 3000; EventCompleted]
          else take (if toSetAsync h t
                     then if ccSetAsync h c then 3 else 2 else 1)
                 [SetAsync To t; SetAsync Cc c; SetAsync Bcc b]
               ++ faultTrace.
Proof.
  unfold quickClean, quickCleanBody. rewrite getAllRecipients_cases.
  destruct (_ && _ && _); [|by left]. simpl.
  set (reads := {| to := _ |}).
  destruct (processRecipients h) as [process|] eqn:Hproc.
  - destruct (process _) as [e|result] eqn:Hres; [by left|].
    right. exists reads, (convertToOfficeFormat (resultTo result)),
      (convertToOfficeFormat (resultCc result)),
      (convertToOfficeFormat (resultBcc result)).
    split_and!; [done|by eapply planned_library|].
    rewrite updateAllRecipients_cases.
    by destruct (toSetAsync h _), (ccSetAsync h _), (bccSetAsync h _).
  - right. eexists reads, _, _, _.
    split_and!; [done|by apply planned_fallback|].
    rewrite updateAllRecipients_cases.
    by destruct (toSetAsync h _), (ccSetAsync h _), (bccSetAsync h _).
Qed.

(** X15.  Every run has the same shape: first the writes, which are the
    first n of To, Cc, Bcc in that order; then exactly one notification
    and the timer that removes it after 3000 ms; then the completion of
    the event, once and last.  A success notification comes only after all
    three writes. *)
Theorem quickClean_trace_shape h :
  ∃ t c b n type text,
    quickClean h
    = take n [SetAsync To t; SetAsync Cc c; SetAsync Bcc b]
      ++ [ReplaceNotification type text; RemoveNotificationAfter 3000;
          EventCompleted]
    ∧ (type = InformationalMessage → n = 3).
Proof.
  destruct (quickClean_cases h) as [->|(reads & t & c & b & _ & _ & ->)].
  - by exists [], [], [], 0, ErrorMessage, failureMessage.
  - destruct (_ && _ && _).
    + by eexists t, c, b, 3, _, _.
    + by eexists t, c, b, _, ErrorMessage, failureMessage.
Qed.

(** X16.  A success notification means that all three reads succeeded,
    that all three fields were written and each write succeeded, and that
    nothing else happened; the number it reports is the number of
    recipients read, not the number written.  Without the library, what
    was written is the result of the fallback on what was read. *)
Theorem quickClean_success_means h text :
  ReplaceNotification InformationalMessage text ∈ quickClean h →
  ∃ reads t c b,
    getAllRecipients h = ([], inr reads)
    ∧ quickClean h
      = [SetAsync To t; SetAsync Cc c; SetAsync Bcc b;
         ReplaceNotification InformationalMessage text;
         RemoveNotificationAfter 3000; EventCompleted]
    ∧ toSetAsync h t = true ∧ ccSetAsync h c = true ∧ bccSetAsync h b = true
    ∧ text = successMessage (length (to reads) + length (cc reads)
                             + length (bcc reads))
    ∧ (processRecipients h = None →
       {| to := t; cc := c; bcc := b |}
       = fallbackProcessing (loadSettings (clearSendSettings h)) reads).
Proof.
  destruct (quickClean_cases h) as [->|(reads & t & c & b & Hget & Hplan & ->)].
  - unfold faultTrace. set_solver.
  - destruct (toSetAsync h t) eqn:Ht, (ccSetAsync h c) eqn:Hc,
      (bccSetAsync h b) eqn:Hb; simpl; unfold faultTrace;
      try (intros Hin; exfalso; set_solver).
    intros Hin. exists reads, t, c, b.
    assert (text = successMessage (length (to reads) + length (cc reads)
                                   + length (bcc reads))) as ->
      by set_solver.
    split_and!; try done.
    intros Hnone. destruct Hplan as [_|process result Hsome _]; [|congruence].
    by destruct (fallbackProcessing _ _).
Qed.

(** X17.  A field is written only after the fields before it have been
    written with success: Cc only after To, Bcc only after To and Cc. *)
Theorem quickClean_writes_in_order h f l :
  SetAsync f l ∈ quickClean h →
  match f with
  | To => True
  | Cc => ∃ t, SetAsync To t ∈ quickClean h ∧ toSetAsync h t = true
  | Bcc => ∃ t c, SetAsync To t ∈ quickClean h ∧ toSetAsync h t = true
                  ∧ SetAsync Cc c ∈ quickClean h ∧ ccSetAsync h c = true
  end.
Proof.
  destruct (quickClean_cases h) as [->|(reads & t & c & b & _ & _ & ->)].
  - unfold faultTrace. set_solver.
  - destruct f; [done|..];
      destruct (toSetAsync h t) eqn:Ht, (ccSetAsync h c) eqn:Hc,
        (bccSetAsync h b) eqn:Hb; simpl; unfold faultTrace; intros Hin;
      try (exfalso; set_solver);
      first [ exists t; split; [set_solver|done]
            | exists t, c; split_and!; [set_solver|done|set_solver|done] ].
Qed.

End RunMore.

(** * Conversion to and from strings *)

Lemma trimEnd_idempotent (s : string) : trimEnd (trimEnd s) = trimEnd s.
Proof.
  induction s as [|c s IH]; [done|]. simpl.
  destruct (trimEnd s) as [|d t] eqn:Ht.
  - destruct (isWhiteSpace c) eqn:Hc; [done|]. simpl. by rewrite Hc.
  - change (trimEnd (String c (String d t)))
      with (match trimEnd (String d t) with
            | EmptyString =>
                if isWhiteSpace c then EmptyString else String c EmptyString
            | t' => String c t'
            end).
    by rewrite IH.
Qed.

Lemma trimStart_startsClean (s : string) : startsClean (trimStart s).
Proof.
  induction s as [|c s IH]; [done|]. simpl.
  by destruct (isWhiteSpace c) eqn:Hc.
Qed.

Lemma trimStart_id (s : string) : startsClean s → trimStart s = s.
Proof. destruct s as [|c s]; [done|]. simpl. by intros ->. Qed.

Lemma trimEnd_startsClean (s : string) :
  startsClean s → startsClean (trimEnd s).
Proof.
  destruct s as [|c s]; [done|]. simpl. intros Hc.
  destruct (trimEnd s); [by rewrite Hc|done].
Qed.

Lemma trim_idempotent (s : string) : trim (trim s) = trim s.
Proof.
  unfold trim.
  rewrite (trimStart_id (trimEnd (trimStart s)))
    by apply trimEnd_startsClean, trimStart_startsClean.
  apply trimEnd_idempotent.
Qed.

Lemma trimStart_whiteSpace (s : string) :
  allChars isWhiteSpace s = true → trimStart s = "".
Proof.
  induction s as [|c s IH]; [done|]. simpl.
  intros [-> Hs]%andb_true_iff. by apply IH.
Qed.

Lemma trimEnd_whiteSpace (s : string) :
  allChars isWhiteSpace s = true → trimEnd s = "".
Proof.
  induction s as [|c s IH]; [done|]. simpl.
  intros [-> Hs]%andb_true_iff. by rewrite IH.
Qed.

Lemma trimEnd_app_whiteSpace (s q : string) :
  allChars isWhiteSpace q = true → trimEnd (s +:+ q) = trimEnd s.
Proof.
  intros Hq. induction s as [|c s IH].
  - rewrite append_nil_l. by apply trimEnd_whiteSpace.
  - rewrite append_cons. simpl. by rewrite IH.
Qed.

Lemma trimStart_app (s q : string) :
  trimStart (s +:+ q)
  = if allChars isWhiteSpace s then trimStart q else trimStart s +:+ q.
Proof.
  induction s as [|c s IH]; [done|]. rewrite append_cons. simpl.
  by destruct (isWhiteSpace c).
Qed.

Lemma trim_app_whiteSpace (s q : string) :
  allChars isWhiteSpace q = true → trim (s +:+ q) = trim s.
Proof.
  intros Hq. unfold trim. rewrite trimStart_app.
  destruct (allChars isWhiteSpace s) eqn:Hs.
  - by rewrite (trimStart_whiteSpace s), (trimStart_whiteSpace q).
  - by apply trimEnd_app_whiteSpace.
Qed.

Lemma trim_no_whiteSpace (s : string) :
  allChars (λ c, negb (isWhiteSpace c)) s = true → trim s = s.
Proof.
  intros Hs. unfold trim. rewrite trimStart_id.
  - induction s as [|c s IH]; [done|]. simpl in *.
    apply andb_true_iff in Hs as [Hc%negb_true_iff Hs].
    rewrite IH by done. destruct s; [by rewrite Hc|done].
  - destruct s as [|c s]; [done|]. simpl in *.
    by apply andb_true_iff in Hs as [Hc%negb_true_iff _].
Qed.

Lemma matchBracketed_whiteSpace c (rest : string) :
  isWhiteSpace c = true → matchBracketed (String c rest) = matchBracketed rest.
Proof. intros Hc. unfold matchBracketed. simpl. by rewrite Hc. Qed.

Lemma matchBracketed_other c (rest : string) :
  isWhiteSpace c = false → c ≠ "<"%char → matchBracketed (String c rest) = None.
Proof.
  intros Hc Hne. unfold matchBracketed. simpl. rewrite Hc.
  by destruct c as [[] [] [] [] [] [] [] []].
Qed.

Lemma matchBracketed_address (ws e : string) :
  allChars isWhiteSpace ws = true → e ≠ "" → noLineTerminator e = true →
  matchBracketed (ws +:+ "<" +:+ e +:+ ">") = Some e.
Proof.
  intros Hws He Hlt. induction ws as [|c ws IH].
  - rewrite append_nil_l. unfold matchBracketed.
    change (trimStart ("<" +:+ e +:+ ">")) with (String "<" (e +:+ ">")).
    cbv iota beta. rewrite unsnoc_app_last, Hlt.
    apply String.eqb_neq in He. by rewrite He.
  - simpl in Hws. apply andb_true_iff in Hws as [Hc Hws].
    rewrite append_cons, matchBracketed_whiteSpace by done. by apply IH.
Qed.

Lemma matchBracketed_no_bracket (s : string) :
  allChars (λ c, negb (Ascii.eqb c "<")) s = true → matchBracketed s = None.
Proof.
  induction s as [|c s IH]; [done|]. simpl.
  intros [Hc%negb_true_iff%Ascii.eqb_neq Hs]%andb_true_iff.
  destruct (isWhiteSpace c) eqn:Hw.
  - rewrite matchBracketed_whiteSpace by done. by apply IH.
  - by apply matchBracketed_other.
Qed.

(** Before a character of the name that is not white space, the tail of
    the pattern cannot match. *)
Lemma matchBracketed_in_name (s t : string) :
  allChars isWhiteSpace s = false →
  allChars (λ c, negb (Ascii.eqb c "<")) s = true →
  matchBracketed (s +:+ t) = None.
Proof.
  induction s as [|c s IH]; [done|]. simpl.
  intros Hws [Hc%negb_true_iff%Ascii.eqb_neq Hs]%andb_true_iff.
  rewrite append_cons. destruct (isWhiteSpace c) eqn:Hw.
  - rewrite matchBracketed_whiteSpace by done. by apply IH.
  - by apply matchBracketed_other.
Qed.

Lemma findNameAddress_no_bracket (name s : string) :
  allChars (λ c, negb (Ascii.eqb c "<")) s = true →
  findNameAddress name s = None.
Proof.
  revert name. induction s as [|c s IH]; intros name; [done|]. simpl.
  intros [_ Hs]%andb_true_iff.
  destruct (isLineTerminator c); [done|].
  rewrite matchBracketed_no_bracket by done. by apply IH.
Qed.

(** The lazy group stops at the shortest non-empty prefix of the name
    that only white space follows. *)
Lemma findNameAddress_name (name dn e : string) :
  dn ≠ "" → noLineTerminator dn = true →
  allChars (λ c, negb (Ascii.eqb c "<")) dn = true →
  e ≠ "" → noLineTerminator e = true →
  ∃ p q, dn = p +:+ q ∧ allChars isWhiteSpace q = true
         ∧ findNameAddress name (dn +:+ " <" +:+ e +:+ ">")
           = Some (name +:+ p, e).
Proof.
  intros Hdn Hlt Hnb He Hle. revert name Hdn.
  induction dn as [|c dn IH]; intros name Hdn; [done|].
  simpl in Hlt, Hnb.
  apply andb_true_iff in Hlt as [Hc%negb_true_iff Hlt].
  apply andb_true_iff in Hnb as [_ Hnb].
  rewrite append_cons. simpl. rewrite Hc.
  destruct (allChars isWhiteSpace dn) eqn:Hws.
  - exists (String c ""), dn. split_and!; [done..|].
    change (dn +:+ " <" +:+ e +:+ ">")
      with (dn +:+ " " +:+ "<" +:+ e +:+ ">").
    rewrite <- (append_assoc dn " "), matchBracketed_address; try done.
    by rewrite allChars_app, Hws.
  - rewrite matchBracketed_in_name by done.
    destruct (IH Hlt Hnb (name +:+ String c "")) as (p & q & -> & Hq & ->).
    { by intros ->. }
    exists (String c p), q. split_and!; [by rewrite append_cons|done|].
    by rewrite append_assoc.
Qed.

Lemma localChar_plain c : localChar c = true → plainChar c = true.
Proof. by destruct c as [[] [] [] [] [] [] [] []]. Qed.

Lemma labelChar_plain c : labelChar c = true → plainChar c = true.
Proof. by destruct c as [[] [] [] [] [] [] [] []]. Qed.

Lemma dotted_plain labels :
  Forall isLabel labels → allChars plainChar (dotted labels) = true.
Proof.
  induction 1 as [|l labels [_ Hl] _ IH]; [done|].
  change (dotted (l :: labels)) with (String "." (l +:+ dotted labels)).
  change (allChars plainChar (String "." (l +:+ dotted labels)))
    with (plainChar "." && allChars plainChar (l +:+ dotted labels)).
  rewrite allChars_app, IH, andb_true_r.
  eapply allChars_impl; [apply labelChar_plain|done].
Qed.

Lemma isValidRecipient_plain (r : recipient) :
  isValidRecipient r = true →
  ∃ e, emailAddress r = Some e ∧ e ≠ "" ∧ allChars plainChar e = true.
Proof.
  intros Hvalid.
  destruct (isValidRecipient_form r Hvalid)
    as (localPart & label & labels & Heq & Hne & Hlocal & _ & _ & Hhost).
  assert (Hall : Forall isLabel (label :: labels)).
  { eapply Forall_impl; [done|]. apply isHostLabel_isLabel. }
  destruct (emailAddress r) as [e|] eqn:He.
  - rewrite or_empty_Some in Heq. exists e. split_and!; [done|..].
    + subst e. destruct localPart; [done|]. by rewrite append_cons.
    + subst e.
      change ("@" +:+ label +:+ dotted labels)
        with (String "@" (label +:+ dotted labels)).
      rewrite allChars_app.
      change (allChars plainChar (String "@" (label +:+ dotted labels)))
        with (plainChar "@" && allChars plainChar (label +:+ dotted labels)).
      rewrite allChars_app. apply andb_true_iff. split.
      * eapply allChars_impl; [apply localChar_plain|done].
      * apply andb_true_iff. split; [done|]. apply andb_true_iff. split.
        -- apply Forall_inv in Hall as [_ Hl].
           eapply allChars_impl; [apply labelChar_plain|done].
        -- apply dotted_plain. by apply Forall_inv_tail in Hall.
  - exfalso. destruct localPart; [done|].
    rewrite append_cons in Heq. by vm_compute in Heq.
Qed.

(** X18.  The strings sent to the library come back as the entries they
    were made from.  For an entry that Validate accepts and whose display
    name (possibly empty) holds neither a line terminator nor an opening
    angle bracket, formatting it as the run does and converting the string
    back gives the same address and the display name trimmed. *)
Theorem format_convert_roundtrip (r : recipient) (dn : string) :
  isValidRecipient r = true →
  displayName r = Some dn →
  noLineTerminator dn = true →
  allChars (λ c, negb (Ascii.eqb c "<")) dn = true →
  (λ s, convertEntry (EntryString s)) <$> formatRecipient r
  = Some {| displayName := Some (trim dn); emailAddress := emailAddress r |}.
Proof.
  intros (e & He & Hne & Hplain)%isValidRecipient_plain Hdn Hlt Hnb.
  assert (He_ws : allChars (λ c, negb (isWhiteSpace c)) e = true).
  { eapply allChars_impl; [|exact Hplain]. unfold plainChar. intros c.
    rewrite !andb_true_iff. tauto. }
  assert (He_nb : allChars (λ c, negb (Ascii.eqb c "<")) e = true).
  { eapply allChars_impl; [|exact Hplain]. unfold plainChar. intros c.
    rewrite !andb_true_iff. tauto. }
  assert (He_lt : noLineTerminator e = true).
  { clear -Hplain. induction e as [|c e IH]; [done|]. simpl in *.
    apply andb_true_iff in Hplain as [Hc He]. rewrite IH by done.
    unfold plainChar in Hc. rewrite !andb_true_iff in Hc.
    destruct Hc as [[_ ->] _]. done. }
  unfold formatRecipient. rewrite Hdn, He. simpl.
  destruct (String.eqb_spec dn "") as [->|Hdn_ne]; simpl.
  - unfold matchNameAddress.
    rewrite findNameAddress_no_bracket by done.
    by rewrite (trim_no_whiteSpace e).
  - unfold matchNameAddress.
    destruct (findNameAddress_name "" dn e) as (p & q & -> & Hq & ->);
      try done.
    rewrite append_nil_l, trim_app_whiteSpace by done.
    by rewrite (trim_no_whiteSpace e).
Qed.

(** X19.  Converting a string always yields both properties, and neither
    starts or ends with white space. *)
Theorem convertEntry_trimmed (s : string) :
  ∃ name address,
    convertEntry (EntryString s)
    = {| displayName := Some name; emailAddress := Some address |}
    ∧ trim name = name ∧ trim address = address.
Proof.
  simpl. destruct (matchNameAddress s) as [[name address]|].
  - eexists _, _. split; [done|]. by rewrite !trim_idempotent.
  - exists "", (trim s). split; [done|]. by rewrite trim_idempotent.
Qed.

(** X20.  A string without an opening angle bracket is taken whole as the
    address, trimmed, with an empty display name. *)
Theorem convertEntry_plain_address (s : string) :
  allChars (λ c, negb (Ascii.eqb c "<")) s = true →
  convertEntry (EntryString s)
  = {| displayName := Some ""; emailAddress := Some (trim s) |}.
Proof.
  intros Hs. simpl. unfold matchNameAddress.
  by rewrite findNameAddress_no_bracket.
Qed.

(** * The settings *)

(** X21.  The steps handed to the library are the stored order with the
    steps that are not enabled left out: a step is handed over exactly
    when it is both in the order and enabled, in the order's sequence, so
    an enabled step the order does not list is not run.  When no order is
    stored, the enabled steps are handed over as they are. *)
Theorem enabledStepsInOrder_facts (s : settings) :
  enabledStepsInOrder s `sublist_of` default (enabledSteps s) (stepOrder s)
  ∧ (∀ step, step ∈ enabledStepsInOrder s ↔
             step ∈ default (enabledSteps s) (stepOrder s)
             ∧ step ∈ enabledSteps s)
  ∧ (stepOrder s = None → enabledStepsInOrder s = enabledSteps s).
Proof.
  unfold enabledStepsInOrder. split_and!.
  - apply sublist_filter.
  - intros step. rewrite list_elem_of_filter. tauto.
  - intros ->. simpl.
    assert (Hid : ∀ l k : list string, (∀ x, x ∈ l → x ∈ k) →
                                       filter (λ step, step ∈ k) l = l).
    { intros l k. induction l as [|x l IH]; intros Hin; [done|].
      rewrite filter_cons_True by (apply Hin; left).
      f_equal. apply IH. intros y Hy. apply Hin. by right. }
    by apply Hid.
Qed.

(** * The further properties at concrete inputs *)

Lemma dedupe_noop_on_distinct_witness :
  @deduplicateAllRecipients asciiOps
    [addr "a@x.com"] [addr "b@x.com"; addr "c@x.com"] [addr "d@x.com"]
  = {| to := [addr "a@x.com"]; cc := [addr "b@x.com"; addr "c@x.com"];
       bcc := [addr "d@x.com"] |}.
Proof.
  apply (@dedupe_noop_on_distinct asciiOps).
  apply (bool_decide_unpack (NoDup _)). by vm_compute.
Defined.

Lemma sort_result_in_order_witness :
  StronglySorted (λ a b, (@compareRecipients asciiOps a b ≤ 0)%Z)
    (@sortRecipientsAlphabetically asciiOps nameClash).
Proof.
  apply (@sort_result_in_order asciiOps nameClash).
  - intros a b. apply codeUnitCompare_total.
  - intros a b c. apply codeUnitCompare_trans.
Defined.

Lemma sort_is_stable_witness :
  filter (λ r, @sortName asciiOps r = "bob")
    (@sortRecipientsAlphabetically asciiOps nameClash)
  = filter (λ r, @sortName asciiOps r = "bob") nameClash.
Proof.
  apply (@sort_is_stable asciiOps "bob" nameClash).
  intros s. apply codeUnitCompare_refl.
Defined.

Lemma validate_sort_commute_witness :
  validateAndFilterRecipients (@sortRecipientsAlphabetically asciiOps nameClash)
  = @sortRecipientsAlphabetically asciiOps (validateAndFilterRecipients nameClash).
Proof.
  apply (@validate_sort_commute asciiOps nameClash).
  - intros a b. apply codeUnitCompare_total.
  - intros a b c. apply codeUnitCompare_trans.
Defined.

Lemma fallback_result_valid_witness :
  Forall (λ r, isValidRecipient r = true)
    (to (@fallbackProcessing asciiOps defaultSettings
           {| to := nameClash; cc := []; bcc := nameClash |})
     ++ cc (@fallbackProcessing asciiOps defaultSettings
              {| to := nameClash; cc := []; bcc := nameClash |})
     ++ bcc (@fallbackProcessing asciiOps defaultSettings
               {| to := nameClash; cc := []; bcc := nameClash |})).
Proof.
  apply (@fallback_result_valid asciiOps defaultSettings).
  simpl. do 2 apply list_elem_of_further. apply list_elem_of_here.
Defined.

Lemma fallback_result_distinct_witness :
  NoDup (@emailsOf asciiOps
    (to (@fallbackProcessing asciiOps onlyDedupe twoSpellings)
     ++ cc (@fallbackProcessing asciiOps onlyDedupe twoSpellings)
     ++ bcc (@fallbackProcessing asciiOps onlyDedupe twoSpellings))).
Proof.
  apply (@fallback_result_distinct asciiOps onlyDedupe twoSpellings).
  simpl. apply list_elem_of_here.
Defined.

Lemma fallback_idempotent_witness :
  @fallbackProcessing asciiOps defaultSettings
    (@fallbackProcessing asciiOps defaultSettings
       {| to := nameClash; cc := []; bcc := nameClash |})
  = @fallbackProcessing asciiOps defaultSettings
      {| to := nameClash; cc := []; bcc := nameClash |}.
Proof.
  apply (@fallback_idempotent asciiOps).
  intros a b. apply codeUnitCompare_total.
Defined.

Lemma quickClean_success_means_witness :
  ∃ reads t c b,
    getAllRecipients (hostOf twoSpellings None) = ([], inr reads)
    ∧ @quickClean asciiOps (hostOf twoSpellings None)
      = [SetAsync To t; SetAsync Cc c; SetAsync Bcc b;
         ReplaceNotification InformationalMessage
           "Success. 2 addresses processed.";
         RemoveNotificationAfter 3000; EventCompleted]
    ∧ toSetAsync (hostOf twoSpellings None) t = true
    ∧ ccSetAsync (hostOf twoSpellings None) c = true
    ∧ bccSetAsync (hostOf twoSpellings None) b = true
    ∧ "Success. 2 addresses processed."
      = successMessage (length (to reads) + length (cc reads)
                        + length (bcc reads))
    ∧ (processRecipients (hostOf twoSpellings None) = None →
       {| to := t; cc := c; bcc := b |}
       = @fallbackProcessing asciiOps
           (loadSettings (clearSendSettings (hostOf twoSpellings None)))
           reads).
Proof.
  apply (@quickClean_success_means asciiOps (hostOf twoSpellings None)).
  vm_compute. do 3 apply list_elem_of_further. apply list_elem_of_here.
Defined.

Lemma quickClean_writes_in_order_witness :
  ∃ t c,
    SetAsync To t ∈ @quickClean asciiOps (hostOf twoSpellings None)
    ∧ toSetAsync (hostOf twoSpellings None) t = true
    ∧ SetAsync Cc c ∈ @quickClean asciiOps (hostOf twoSpellings None)
    ∧ ccSetAsync (hostOf twoSpellings None) c = true.
Proof.
  apply (@quickClean_writes_in_order asciiOps (hostOf twoSpellings None)
           Bcc []).
  vm_compute. do 2 apply list_elem_of_further. apply list_elem_of_here.
Defined.

Lemma format_convert_roundtrip_witness :
  (λ s, convertEntry (EntryString s)) <$> formatRecipient spacedName
  = Some {| displayName := Some (trim "Bob Smith  ");
            emailAddress := emailAddress spacedName |}.
Proof.
  apply (format_convert_roundtrip spacedName "Bob Smith  ");
    by vm_compute.
Defined.

Lemma convertEntry_plain_address_witness :
  convertEntry (EntryString "  bob@x.com ")
  = {| displayName := Some ""; emailAddress := Some (trim "  bob@x.com ") |}.
Proof.
  apply (convertEntry_plain_address "  bob@x.com "). by vm_compute.
Defined.


(** * The processors library *)

Section LibraryValidate.
Import Processors.
Context {ops : JsStringOps}.

Lemma extractEmail_trimmed (recipient : string) :
  trim (extractEmail recipient) = extractEmail recipient.
Proof.
  unfold extractEmail. destruct (String.eqb recipient ""); [done|].
  destruct (searchAngle recipient); apply trim_idempotent.
Qed.

(** What [validateEmailFormat] has tested of an address it accepts. *)
Lemma validateEmailFormat_valid (email : string) :
  validateEmailFormat email = FormatValid →
  ∃ localPart domainPart,
    split "@" (trim email) = [localPart; domainPart]
    ∧ (1 ≤ String.length localPart ≤ 64)%nat
    ∧ (1 ≤ String.length domainPart ≤ 253)%nat
    ∧ (2 ≤ String.length (lastLabel domainPart))%nat
    ∧ includes domainPart "." = true
    ∧ regexTest emailRegex (trim email) = true
    ∧ includes (trim email) ".." = false.
Proof.
  unfold validateEmailFormat.
  destruct (String.eqb email ""); [done|].
  destruct (_ && _); [done|]. destruct (_ && _); [done|].
  destruct (_ =? _)%nat; [done|].
  destruct (negb (includes (trim email) "@")); [done|].
  destruct (split "@" (trim email)) as [|localPart [|domainPart [|]]];
    try done.
  destruct (String.eqb localPart "") eqn:Hl; [done|].
  destruct (64 <? _)%nat eqn:Hl64; [done|].
  destruct (String.eqb domainPart "") eqn:Hd; [done|].
  destruct (253 <? _)%nat eqn:Hd253; [done|].
  destruct (includes domainPart ".") eqn:Hdot; [|done].
  destruct (regexTest emailRegex (trim email)) eqn:Hre; [|done].
  destruct (includes (trim email) "..") eqn:Hdots; [done|].
  simpl. destruct (_ || _); [done|]. destruct (_ || _); [done|].
  destruct (_ || _); [done|].
  destruct (_ <? 2)%nat eqn:Htld; [done|].
  intros _. exists localPart, domainPart.
  apply Nat.ltb_ge in Hl64, Hd253, Htld.
  apply String.eqb_neq in Hl, Hd.
  destruct localPart; [done|]. destruct domainPart; [done|].
  simpl in *. split_and!; try done; lia.
Qed.

Lemma validateRecipient_status (recipient : string) :
  status (validateRecipient recipient) = "error"
  ↔ validateEmailFormat (extractEmail recipient) ≠ FormatValid.
Proof.
  unfold validateRecipient.
  destruct (validateEmailFormat _); [|done].
  destruct (checkForTypos _); simpl; split; done.
Qed.

Lemma isKept_validateRecipient (recipient : string) :
  isKept (validateRecipient recipient) = true
  ↔ validateEmailFormat (extractEmail recipient) = FormatValid.
Proof.
  unfold validateRecipient, isKept.
  destruct (validateEmailFormat _); [|done].
  destruct (checkForTypos _); simpl; split; done.
Qed.

Lemma elem_of_validRecipients (recipient : string) (l : list string) :
  recipient ∈ (validateAndFilterRecipients l).2
  ↔ recipient ∈ l
    ∧ validateEmailFormat (extractEmail recipient) = FormatValid.
Proof.
  unfold validateAndFilterRecipients. simpl.
  rewrite list_elem_of_filter, isKept_validateRecipient. tauto.
Qed.

(** C2.  Validate, the step of the library, classifies as error and leaves
    out of every list of its output an entry whose email, with the local
    part and the domain part that the code takes from the split at the
    at-sign, has a local part longer than 64 characters, a domain part
    longer than 253 characters, or a top-level label (the last label of
    the domain part) shorter than 2 characters. *)
Theorem validate_rejects_overlong_parts
    (recipient : string) (l : list string) (st : state) :
  let email := extractEmail recipient in
  let localPart := default "" (split "@" email !! 0%nat) in
  let domainPart := default "" (split "@" email !! 1%nat) in
  (64 < String.length localPart
   ∨ 253 < String.length domainPart
   ∨ String.length (lastLabel domainPart) < 2)%nat →
  status (validateRecipient recipient) = "error"
  ∧ isValid (validateRecipient recipient) = false
  ∧ recipient ∉ (validateAndFilterRecipients l).2
  ∧ (recipient ∉ to (validateStep st))
  ∧ (recipient ∉ cc (validateStep st))
  ∧ (recipient ∉ bcc (validateStep st)).
Proof.
  intros email localPart domainPart Hlong.
  assert (Hformat : validateEmailFormat email ≠ FormatValid).
  { intros (l' & d' & Hsplit & Hl & Hd & Htld & _)%validateEmailFormat_valid.
    unfold email in Hsplit. rewrite extractEmail_trimmed in Hsplit.
    unfold localPart, domainPart, email in Hlong.
    rewrite Hsplit in Hlong. simpl in Hlong. lia. }
  split_and!.
  - by apply validateRecipient_status.
  - unfold validateRecipient. fold email.
    destruct (validateEmailFormat email); done.
  - by intros [_ ?]%elem_of_validRecipients.
  - simpl. by intros [_ ?]%elem_of_validRecipients.
  - simpl. by intros [_ ?]%elem_of_validRecipients.
  - simpl. by intros [_ ?]%elem_of_validRecipients.
Qed.

End LibraryValidate.

Lemma validate_rejects_overlong_parts_witness :
  Processors.status (@Processors.validateRecipient asciiOps longLocalEntry)
  = "error"
  ∧ longLocalEntry
    ∉ (@Processors.validateAndFilterRecipients asciiOps
         ["a@example.com"; longLocalEntry]).2.
Proof.
  pose proof (@validate_rejects_overlong_parts asciiOps longLocalEntry
                ["a@example.com"; longLocalEntry]
                (Processors.initialState (payloadOf [] [] "")))
    as Hrejects.
  destruct Hrejects as (Hstatus & _ & Hout & _).
  - left. vm_compute. lia.
  - split; [exact Hstatus|exact Hout].
Defined.


Section LibraryRun.
Import Processors.
Context {ops : JsStringOps} {engine : JsEngine}.
Implicit Types (st : state) (v : stateValue) (p : payload).

Lemma runSteps_app (names1 names2 : list string) v :
  runSteps (names1 ++ names2) v
  = match runSteps names1 v with
    | inl error => inl error
    | inr v' => runSteps names2 v'
    end.
Proof.
  revert v. induction names1 as [|name names1 IH]; intros v; simpl; [done|].
  destruct (runStep name v); [done|apply IH].
Qed.

(** C4.  When the call of a step raises an error, the run ends there: the
    loop is left whatever steps remain, and [processRecipients] returns
    nothing; it throws an error whose message names the step that failed
    and carries the message of the fault. *)
Theorem step_fault_aborts_run p (before after : list string)
    (stepName : string) v (fn : stepFn) (error : jsError) :
  enabledSteps (initialState p) = before ++ stepName :: after →
  runSteps before (IsState (initialState p)) = inr v →
  lookupStep stepName = Some fn →
  callStepFn fn v = inl error →
  processRecipients p
  = inl (JsError ("Step '" +:+ stepName +:+ "' failed: " +:+ message error))
  ∧ ∀ remaining,
      runSteps (before ++ stepName :: remaining) (IsState (initialState p))
      = inl (JsError ("Step '" +:+ stepName +:+ "' failed: "
                      +:+ message error)).
Proof.
  intros Hsteps Hbefore Hlookup Hcall.
  assert (Hrun : ∀ remaining,
    runSteps (before ++ stepName :: remaining) (IsState (initialState p))
    = inl (JsError ("Step '" +:+ stepName +:+ "' failed: "
                    +:+ message error))).
  { intros remaining. rewrite runSteps_app, Hbefore. simpl.
    unfold runStep. by rewrite Hlookup, Hcall. }
  split; [|exact Hrun].
  unfold processRecipients. by rewrite Hsteps, Hrun.
Qed.

End LibraryRun.

Lemma step_fault_aborts_run_witness :
  @Processors.processRecipients asciiOps exampleEngine inheritedDomain
  = inl (JsError "Step 'flagExt' failed: acc[domain].push is not a function").
Proof.
  refine (proj1 (@step_fault_aborts_run asciiOps exampleEngine inheritedDomain
           ["sort"] ["dedupe"] "flagExt"
           (Processors.IsState
              (@Processors.sortStep asciiOps
                 (Processors.initialState inheritedDomain)))
           (Processors.OwnStep (@Processors.flagExternalStep asciiOps exampleEngine))
           (JsError "acc[domain].push is not a function") _ _ _ _)).
  - reflexivity.
  - reflexivity.
  - reflexivity.
  - vm_compute. reflexivity.
Defined.


Section LibraryLog.
Import Processors.
Context {ops : JsStringOps} {engine : JsEngine}.
Implicit Types (st : state) (v : stateValue) (p : payload).

(** C3 (the code diverges).  The table of steps is an object literal, and
    the lookup of a name in it also finds what every object inherits.
    The name toString is none of the six names of the table, yet it is
    not skipped: the orchestrator calls the inherited function as a step
    and takes the string it returns for the state, so that the run of a
    payload whose only enabled step is toString ends in a TypeError, where
    the run without any step, and the run with a name that is not found,
    return the lists as they came. *)
Theorem inherited_step_name_is_not_skipped :
  stepMap "toString" = None
  ∧ lookupStep "toString" = Some (Inherited "toString")
  ∧ (∀ st, runStep "toString" (IsState st) = inr IsPrimitive)
  ∧ processRecipients (oneAddress ["toString"])
    = inl (JsError (typeErrorMessage LengthOfMissingList))
  ∧ (processRecipients (oneAddress [])
     = inr {| success := true;
              result := {| toList := ["a@x.com"]; ccList := [];
                           bccList := [] |};
              resultActions := [];
              resultSummary := {| totalProcessed := 1; totalRemaining := 1;
                                  stepsExecuted := 0 |} |})
  ∧ processRecipients (oneAddress ["compress"])
    = processRecipients (oneAddress []).
Proof. split_and!; reflexivity. Qed.

(** What each function of the table does to the state: it appends one
    action, of the type of its name, from the lists it found to the lists
    it leaves, and keeps the settings. *)
Lemma stepMap_log (stepName : string) (step : state → jsError + state)
    st st' :
  stepMap stepName = Some step → step st = inr st' →
  ∃ a, actions st' = actions st ++ [a]
       ∧ actionType a = stepName
       ∧ actionInput a = listsOf st
       ∧ actionOutput a = listsOf st'
       ∧ enabledSteps st' = enabledSteps st
       ∧ internalDomains st' = internalDomains st
       ∧ orgDomain st' = orgDomain st.
Proof.
  unfold stepMap. intros Hstep Hrun.
  repeat (match type of Hstep with
          | context [String.eqb stepName ?n] =>
              destruct (String.eqb_spec stepName n) as [->|_]
          end; [injection Hstep as <-|]); try done.
  - injection Hrun as <-. eexists. by split_and!.
  - injection Hrun as <-. unfold dedupeStep.
    destruct (dedupeArrays _ _ _) as [final removed].
    eexists. split_and!; try done. by destruct final.
  - injection Hrun as <-. eexists. by split_and!.
  - injection Hrun as <-. eexists. by split_and!.
  - injection Hrun as <-. eexists. by split_and!.
  - unfold flagExternalStep in Hrun.
    destruct (String.eqb (orgDomain st) "").
    + injection Hrun as <-. eexists. by split_and!.
    + destruct (groupByDomain _ _); [done|].
      injection Hrun as <-. eexists. by split_and!.
Qed.

(** A value that is not a state never becomes one again. *)
Lemma callStepFn_state (fn : stepFn) v st' :
  callStepFn fn v = inr (IsState st') → ∃ st, v = IsState st.
Proof.
  destruct v as [st| |]; [by eexists|..]; destruct fn as [step|name];
    simpl; try done; repeat case_match; done.
Qed.

Lemma runStep_state (stepName : string) v st' :
  runStep stepName v = inr (IsState st') → ∃ st, v = IsState st.
Proof.
  unfold runStep. destruct (lookupStep stepName) as [fn|].
  - destruct (callStepFn fn v) as [|v'] eqn:Hcall; [done|].
    intros ?; simplify_eq. by eapply callStepFn_state.
  - intros ?; simplify_eq. by eexists.
Qed.

Lemma runSteps_state (stepNames : list string) v st' :
  runSteps stepNames v = inr (IsState st') → ∃ st, v = IsState st.
Proof.
  revert v. induction stepNames as [|name names IH]; intros v; simpl.
  - intros ?; simplify_eq. by eexists.
  - destruct (runStep name v) as [|v'] eqn:Hstep; [done|].
    intros [st1 ->]%IH. by eapply runStep_state.
Qed.

(** One turn of the loop on a state, when it leaves a state: either the
    name is one of the table and its function has run, or the state is
    as it was. *)
Lemma runStep_cases (stepName : string) st st' :
  runStep stepName (IsState st) = inr (IsState st') →
  (∃ step, stepMap stepName = Some step ∧ step st = inr st')
  ∨ (stepMap stepName = None ∧ st' = st).
Proof.
  unfold runStep, lookupStep.
  destruct (stepMap stepName) as [step|] eqn:Hmap.
  - simpl. destruct (step st) as [|st1] eqn:Hstep; [done|].
    intros [= <-]. left. by exists step.
  - case_decide; [|intros ?; simplify_eq; by right].
    simpl. repeat case_match; try done; intros ?; simplify_eq; by right.
Qed.

Lemma chained_snoc (start : recipients) (log : list action) (a : action)
    (final : recipients) :
  chained start log (actionInput a) →
  actionOutput a = final →
  chained start (log ++ [a]) final.
Proof.
  revert start. induction log as [|b log IH]; intros start; simpl.
  - by intros -> ->.
  - intros [-> Hlog] Hout. split; [done|by apply IH].
Qed.

Lemma chained_app (start middle final : recipients) (log1 log2 : list action) :
  chained start log1 middle → chained middle log2 final →
  chained start (log1 ++ log2) final.
Proof.
  revert start. induction log1 as [|b log IH]; intros start; simpl.
  - by intros ->.
  - intros [-> Hlog] H2. split; [done|by apply IH].
Qed.

(** The loop from a state to a state: the actions it appends. *)
Lemma runSteps_log (stepNames : list string) st st' :
  runSteps stepNames (IsState st) = inr (IsState st') →
  ∃ log, actions st' = actions st ++ log
         ∧ actionType <$> log = filter isStepName stepNames
         ∧ chained (listsOf st) log (listsOf st')
         ∧ enabledSteps st' = enabledSteps st.
Proof.
  revert st. induction stepNames as [|name names IH]; intros st; simpl.
  - intros [= <-]. exists []. by rewrite app_nil_r.
  - destruct (runStep name (IsState st)) as [|v1] eqn:Hstep; [done|].
    intros Hrest. destruct (runSteps_state _ _ _ Hrest) as [st1 ->].
    apply IH in Hrest as (log & Hlog & Htypes & Hchain & Hsteps).
    apply runStep_cases in Hstep as [(step & Hmap & Hrun)|[Hmap ->]].
    + destruct (stepMap_log _ _ _ _ Hmap Hrun)
        as (a & Ha & Htype & Hin & Hout & Hsame & _).
      exists (a :: log). split_and!.
      * by rewrite Hlog, Ha, <- app_assoc.
      * rewrite filter_cons_True by (unfold isStepName; by rewrite Hmap).
        rewrite fmap_cons. by f_equal.
      * simpl. split; [done|]. by rewrite Hout.
      * by rewrite Hsteps.
    + exists log. split_and!; try done.
      rewrite filter_cons_False; [done|].
      unfold isStepName. rewrite Hmap. by intros [].
Qed.

Lemma processRecipients_returns p r :
  processRecipients p = inr r →
  ∃ st, runSteps (enabledSteps (initialState p)) (IsState (initialState p))
        = inr (IsState st)
        ∧ success r = true
        ∧ result r = listsOf st
        ∧ resultActions r = actions st
        ∧ stepsExecuted (resultSummary r) = length (actions st)
        ∧ totalRemaining (resultSummary r) = countOf st.
Proof.
  unfold processRecipients.
  destruct (runSteps _ _) as [|[st| |]]; try done.
  intros [= <-]. by exists st.
Qed.

(** X22.  The steps of a run that returns are the names of the table among the
    enabled steps, once for each occurrence and in the order of the list:
    the log holds one action for each, of the type of that name, and
    [stepsExecuted] is their number. *)
Theorem run_logs_the_enabled_steps p r :
  processRecipients p = inr r →
  actionType <$> resultActions r
  = filter isStepName (enabledSteps (initialState p))
  ∧ stepsExecuted (resultSummary r)
    = length (filter isStepName (enabledSteps (initialState p))).
Proof.
  intros (st & Hrun & _ & _ & -> & -> & _)%processRecipients_returns.
  apply runSteps_log in Hrun as (log & Hlog & Htypes & _).
  change (actions (initialState p)) with (@nil action) in Hlog.
  rewrite app_nil_l in Hlog. by rewrite Hlog, <- Htypes, length_fmap.
Qed.

(** X23.  Each step of a run that returns works on what the step before it
    left: in the log the input of the first action is the lists of the
    payload, the input of every other action is the output of the action
    before it, and the result is the output of the last action, or the
    lists of the payload when no step has run. *)
Theorem run_threads_the_state p r :
  processRecipients p = inr r →
  chained (payloadLists p) (resultActions r) (result r).
Proof.
  intros (st & Hrun & _ & -> & -> & _)%processRecipients_returns.
  apply runSteps_log in Hrun as (log & Hlog & _ & Hchain & _).
  change (actions (initialState p)) with (@nil action) in Hlog.
  rewrite app_nil_l in Hlog. by rewrite Hlog.
Qed.

(** *** Names that are not found *)

Lemma stepMap_alike (stepName : string) (step : state → jsError + state)
    st1 st2 :
  stepMap stepName = Some step → alike st1 st2 →
  alikeOutcomes alike (step st1) (step st2).
Proof.
  unfold stepMap. intros Hstep Halike.
  destruct st1 as [t1 c1 b1 e1 i1 o1 a1], st2 as [t2 c2 b2 e2 i2 o2 a2].
  destruct Halike as (Ht & Hc & Hb & Hi & Ho & Ha & Hsort).
  simpl in *. subst t2 c2 b2 i2 o2 a2.
  repeat (match type of Hstep with
          | context [String.eqb stepName ?n] =>
              destruct (String.eqb_spec stepName n) as [->|_]
          end; [injection Hstep as <-|]); try done.
  - simpl. unfold dedupeStep. simpl.
    destruct (dedupeArrays _ _ _) as [final removed]. by simpl.
  - simpl. unfold prioritizeInternalStep. simpl.
    rewrite (bool_decide_ext _ _ Hsort). done.
  - unfold flagExternalStep. simpl.
    destruct (String.eqb o1 ""); [done|].
    destruct (groupByDomain _ _); by simpl.
Qed.

Lemma runStep_alike (stepName : string) v1 v2 :
  alikeValues v1 v2 →
  alikeOutcomes alikeValues (runStep stepName v1) (runStep stepName v2).
Proof.
  intros Halike. unfold runStep, lookupStep.
  destruct (stepMap stepName) as [step|] eqn:Hmap.
  - destruct v1 as [st1| |], v2 as [st2| |]; try done.
    simpl. pose proof (stepMap_alike _ _ _ _ Hmap Halike) as Hstep.
    destruct (step st1), (step st2); simpl in *; try done. by subst.
  - case_decide; [|by simpl].
    destruct v1 as [st1| |], v2 as [st2| |]; try done; simpl;
      repeat case_match; simplify_eq/=; done.
Qed.

Lemma runSteps_alike (stepNames : list string) v1 v2 :
  alikeValues v1 v2 →
  alikeOutcomes alikeValues (runSteps stepNames v1) (runSteps stepNames v2).
Proof.
  revert v1 v2. induction stepNames as [|name names IH]; intros v1 v2 Halike;
    simpl; [done|].
  pose proof (runStep_alike name _ _ Halike) as Hstep.
  destruct (runStep name v1), (runStep name v2); simpl in *; try done.
  by apply IH.
Qed.

(** A name that the lookup does not find changes nothing. *)
Lemma runStep_not_found (stepName : string) v :
  ¬ isFound stepName → runStep stepName v = inr v.
Proof.
  unfold isFound, runStep. destruct (lookupStep stepName); [|done].
  intros []. by eexists.
Qed.

Lemma runSteps_filter_found (stepNames : list string) v :
  runSteps (filter isFound stepNames) v = runSteps stepNames v.
Proof.
  revert v. induction stepNames as [|name names IH]; intros v; [done|].
  destruct (decide (isFound name)) as [Hfound|Hnot].
  - rewrite filter_cons_True by done. simpl.
    destruct (runStep name v); [done|apply IH].
  - rewrite filter_cons_False by done. simpl.
    by rewrite runStep_not_found, IH.
Qed.

(** X24.  A name among the enabled steps that the lookup does not find, one
    that is neither in the table of steps nor inherited by it, is skipped
    without a trace: a run returns, or throws, the same with the names
    that are not found as without them. *)
Theorem names_not_found_are_skipped p :
  processRecipients
    (withEnabledSteps p (filter isFound (enabledSteps (initialState p))))
  = processRecipients p.
Proof.
  assert (Halike :
    alike (initialState
             (withEnabledSteps p
                (filter isFound (enabledSteps (initialState p)))))
      (initialState p)).
  { unfold alike. simpl. split_and!; try done.
    rewrite list_elem_of_filter. split; [by intros [_ ?]|].
    intros Hin. split; [|done]. by eexists. }
  pose proof (runSteps_alike (enabledSteps (initialState p)) _ _
                (Halike : alikeValues (IsState _) (IsState _))) as Hrun.
  unfold processRecipients.
  change (enabledSteps (initialState (withEnabledSteps p ?l))) with l.
  rewrite runSteps_filter_found.
  destruct (runSteps _ (IsState (initialState (withEnabledSteps _ _))))
    as [e1|[st1| |]],
    (runSteps _ (IsState (initialState p))) as [e2|[st2| |]];
    simpl in Hrun; try done.
  - by subst.
  - destruct Hrun as (Ht & Hc & Hb & _ & _ & Ha & _).
    unfold listsOf, countOf. by rewrite Ht, Hc, Hb, Ha.
Qed.

End LibraryLog.

Lemma run_logs_the_enabled_steps_witness :
  match @Processors.processRecipients asciiOps exampleEngine withUnknownName
  with
  | inr r =>
      Processors.actionType <$> Processors.resultActions r = ["sort"; "dedupe"]
      ∧ Processors.result r
        = {| Processors.toList := ["A <X@a.com>"]; Processors.ccList := [];
             Processors.bccList := [] |}
  | inl _ => False
  end.
Proof.
  destruct (@Processors.processRecipients asciiOps exampleEngine
              withUnknownName) as [e|r] eqn:Hrun.
  - vm_compute in Hrun. discriminate.
  - split.
    + apply (@run_logs_the_enabled_steps asciiOps exampleEngine _ _ Hrun).
    + vm_compute in Hrun. by injection Hrun as <-.
Defined.

Lemma run_threads_the_state_witness :
  match @Processors.processRecipients asciiOps exampleEngine withUnknownName
  with
  | inr r =>
      @Processors.chained
        {| Processors.toList := ["B <x@a.com>"; "A <X@a.com>"];
           Processors.ccList := []; Processors.bccList := [] |}
        (Processors.resultActions r) (Processors.result r)
  | inl _ => False
  end.
Proof.
  destruct (@Processors.processRecipients asciiOps exampleEngine
              withUnknownName) as [e|r] eqn:Hrun.
  - vm_compute in Hrun. discriminate.
  - apply (@run_threads_the_state asciiOps exampleEngine _ _ Hrun).
Defined.


Section LibraryLists.
Import Processors.
Context {ops : JsStringOps} {engine : JsEngine}.
Implicit Types (st : state) (v : stateValue) (p : payload).

Lemma removeDuplicatesFrom_sublist (seen : gset string) (l : list string) :
  (removeDuplicatesFrom seen l).1 `sublist_of` l.
Proof.
  revert seen. induction l as [|r l IH]; intros seen; simpl; [done|].
  case_decide.
  - specialize (IH seen). destruct (removeDuplicatesFrom seen l).
    by apply sublist_cons.
  - specialize (IH ({[toLowerCase (extractEmail r)]} ∪ seen)).
    destruct (removeDuplicatesFrom _ l). by apply sublist_skip.
Qed.

Lemma claimEmails_sublist (allEmails : gset string) (l : list string) :
  (claimEmails allEmails l).1.2 `sublist_of` l.
Proof.
  revert allEmails. induction l as [|r l IH]; intros allEmails; simpl; [done|].
  case_decide.
  - specialize (IH allEmails). destruct (claimEmails allEmails l) as [[??]?].
    by apply sublist_cons.
  - specialize (IH ({[toLowerCase (extractEmail r)]} ∪ allEmails)).
    destruct (claimEmails _ l) as [[??]?]. by apply sublist_skip.
Qed.

Lemma dedupeArrays_sublist (t c b : list string) :
  toList (dedupeArrays t c b).1 `sublist_of` t
  ∧ ccList (dedupeArrays t c b).1 `sublist_of` c
  ∧ bccList (dedupeArrays t c b).1 `sublist_of` b.
Proof.
  unfold dedupeArrays, removeDuplicates.
  pose proof (removeDuplicatesFrom_sublist ∅ t) as Ht.
  pose proof (removeDuplicatesFrom_sublist ∅ c) as Hc.
  pose proof (removeDuplicatesFrom_sublist ∅ b) as Hb.
  destruct (removeDuplicatesFrom ∅ t) as [uniqueTo ?].
  destruct (removeDuplicatesFrom ∅ c) as [uniqueCc ?].
  destruct (removeDuplicatesFrom ∅ b) as [uniqueBcc ?].
  pose proof (claimEmails_sublist ∅ uniqueTo) as Ht'.
  destruct (claimEmails ∅ uniqueTo) as [[all1 finalTo] ?].
  pose proof (claimEmails_sublist all1 uniqueCc) as Hc'.
  destruct (claimEmails all1 uniqueCc) as [[all2 finalCc] ?].
  pose proof (claimEmails_sublist all2 uniqueBcc) as Hb'.
  destruct (claimEmails all2 uniqueBcc) as [[all3 finalBcc] ?].
  simpl in *. split_and!; by etrans.
Qed.

Lemma sortAlphabetical_Permutation (l : list string) :
  sortAlphabetical l ≡ₚ l.
Proof. apply arraySort_Permutation. Qed.

Lemma prioritizeInternal_Permutation (l domains : list string) (flag : bool) :
  prioritizeInternal l domains flag ≡ₚ l.
Proof.
  unfold prioritizeInternal.
  destruct l as [|r l]; [done|]. destruct domains as [|d domains]; [done|].
  set (items := _ <$> (r :: l)).
  assert (Hitems : indexedRecipient <$> items = r :: l).
  { unfold items. rewrite <- list_fmap_compose. apply list_fmap_id. }
  rewrite arraySort_Permutation.
  assert (Hext : (if flag
                  then arraySort compareExternal
                         (filter (λ item, ¬ (0 ≤ domainIndex item)%Z) items)
                  else filter (λ item, ¬ (0 ≤ domainIndex item)%Z) items)
                 ≡ₚ filter (λ item, ¬ (0 ≤ domainIndex item)%Z) items).
  { destruct flag; [apply arraySort_Permutation|done]. }
  rewrite Hext, <- fmap_app, filter_app_complement. by rewrite Hitems.
Qed.

Lemma removeExternal_sublist (l domains : list string) :
  (removeExternal l domains).1 `sublist_of` l.
Proof.
  unfold removeExternal.
  destruct l as [|r l]; [done|]. destruct domains as [|d domains]; [done|].
  apply sublist_filter.
Qed.

Lemma listsWithin_trans (lists1 lists2 lists3 : recipients) :
  listsWithin lists1 lists2 → listsWithin lists2 lists3 →
  listsWithin lists1 lists3.
Proof. intros (?&?&?) (?&?&?). split_and!; by etrans. Qed.

(** No function of the table adds an entry to a list or moves one to
    another list. *)
Lemma stepMap_within (stepName : string) (step : state → jsError + state)
    st st' :
  stepMap stepName = Some step → step st = inr st' →
  listsWithin (listsOf st') (listsOf st).
Proof.
  unfold stepMap. intros Hstep Hrun.
  repeat (match type of Hstep with
          | context [String.eqb stepName ?n] =>
              destruct (String.eqb_spec stepName n) as [->|_]
          end; [injection Hstep as <-|]); try done.
  - injection Hrun as <-.
    split_and!; apply Permutation_submseteq, sortAlphabetical_Permutation.
  - injection Hrun as <-. unfold dedupeStep.
    pose proof (dedupeArrays_sublist (to st) (cc st) (bcc st)) as (?&?&?).
    destruct (dedupeArrays _ _ _) as [final removed].
    split_and!; by apply sublist_submseteq.
  - injection Hrun as <-.
    split_and!; apply sublist_submseteq, sublist_filter.
  - injection Hrun as <-.
    split_and!; apply Permutation_submseteq, prioritizeInternal_Permutation.
  - injection Hrun as <-.
    split_and!; apply sublist_submseteq, removeExternal_sublist.
  - unfold flagExternalStep in Hrun.
    destruct (String.eqb (orgDomain st) "").
    + injection Hrun as <-. by split_and!.
    + destruct (groupByDomain _ _); [done|].
      injection Hrun as <-. by split_and!.
Qed.

Lemma runSteps_within (stepNames : list string) st st' :
  runSteps stepNames (IsState st) = inr (IsState st') →
  listsWithin (listsOf st') (listsOf st).
Proof.
  revert st. induction stepNames as [|name names IH]; intros st; simpl.
  - intros ?; simplify_eq. by split_and!.
  - destruct (runStep name (IsState st)) as [|v1] eqn:Hstep; [done|].
    intros Hrest. destruct (runSteps_state _ _ _ Hrest) as [st1 ->].
    apply IH in Hrest.
    apply runStep_cases in Hstep as [(step & Hmap & Hrun)|[Hmap ->]];
      [|done].
    eapply listsWithin_trans; [done|]. by eapply stepMap_within.
Qed.

(** X25.  A run never adds a recipient and never moves one to another list:
    each list of the result is, as a multiset, within the list of the
    same name in the payload, whatever the enabled steps. *)
Theorem run_never_adds p r :
  processRecipients p = inr r →
  listsWithin (result r) (payloadLists p)
  ∧ (totalRemaining (resultSummary r) ≤ totalProcessed (resultSummary r))%nat.
Proof.
  unfold processRecipients.
  destruct (runSteps _ _) as [|[st| |]] eqn:Hrun; try done.
  intros ?; simplify_eq. apply runSteps_within in Hrun.
  split; [exact Hrun|]. simpl.
  destruct Hrun as (Ht & Hc & Hb).
  apply submseteq_length in Ht, Hc, Hb. unfold countOf.
  simpl in *. lia.
Qed.

End LibraryLists.

Lemma run_never_adds_witness :
  match @Processors.processRecipients asciiOps exampleEngine withUnknownName
  with
  | inr r =>
      Processors.toList (Processors.result r)
      ⊆+ ["B <x@a.com>"; "A <X@a.com>"]
  | inl _ => False
  end.
Proof.
  destruct (@Processors.processRecipients asciiOps exampleEngine
              withUnknownName) as [e|r] eqn:Hrun.
  - vm_compute in Hrun. discriminate.
  - apply (@run_never_adds asciiOps exampleEngine _ _ Hrun).
Defined.

(** * The two validators *)

Lemma validateEmailFormat_at (email : string) :
  Processors.validateEmailFormat email = Processors.FormatValid →
  includes (trim email) "@" = true.
Proof.
  unfold Processors.validateEmailFormat.
  destruct (String.eqb email ""); [done|].
  destruct (_ && _); [done|]. destruct (_ && _); [done|].
  destruct (_ =? _)%nat; [done|].
  by destruct (includes (trim email) "@").
Qed.

(** X26.  The library's format check is the stricter one: an address that
    [validateEmailFormat] accepts is, once trimmed, an address that the
    validator of the ribbon command's fallback accepts. *)
Theorem library_validation_is_stricter (email : string) (name : option string) :
  Processors.validateEmailFormat email = Processors.FormatValid →
  isValidRecipient {| displayName := name; emailAddress := Some (trim email) |}
  = true.
Proof.
  intros Hvalid. pose proof (validateEmailFormat_at _ Hvalid) as Hat.
  apply validateEmailFormat_valid
    in Hvalid as (l & d & Hsplit & Hl & Hd & _ & Hdot & Hre & Hdots).
  unfold isValidRecipient. simpl. rewrite or_empty_Some.
  destruct (String.eqb_spec (trim email) "") as [Hempty|_].
  { by rewrite Hempty in Hat. }
  rewrite Hat, Hsplit. cbn [negb].
  assert (String.eqb l "" = false) as ->
    by (destruct l; [simpl in Hl; lia|done]).
  assert (String.eqb d "" = false) as ->
    by (destruct d; [simpl in Hd; lia|done]).
  cbn [orb]. by rewrite Hdot, Hdots.
Qed.

Lemma library_validation_is_stricter_witness :
  isValidRecipient (addr "a@example.com") = true.
Proof.
  apply (library_validation_is_stricter " a@example.com " (Some "")).
  by vm_compute.
Defined.

Lemma fallback_reads_three_names_witness :
  @fallbackProcessing asciiOps (loadSettings None) twoSpellings
  = @fallbackProcessing asciiOps reorderedSettings twoSpellings.
Proof.
  apply (@fallback_reads_three_names asciiOps).
  intros name Hname. vm_compute in Hname |- *. set_solver.
Defined.
